(** * FAERScope opencore: disproportionality and time-series statistics

    A shallow embedding of the statistics engine of [@faerscope/opencore]
    (the 2x2 contingency-table calculators, the signal classifier, the score
    assembler, the Benjamini-Hochberg corrector and the time-series
    analyzer), together with the properties its specification states.

    Number models.  The code is embedded over two models of the JavaScript
    [number].

    Reals.  A number is idealised as a real.  The non-finite values ([NaN],
    [Infinity], [-Infinity]) have no real counterpart; in the calculators
    they can then only arise from a division by zero, from [Math.sqrt] of a
    negative number or from [Math.log] / [Math.log2] of a non-positive
    number, so these three operations are partial and the calculators run in
    a small monad [calc] that (1) fails as soon as such a value would be
    produced and (2) records every argument handed to [Math.sqrt],
    [Math.log] and [Math.log2].  This model has neither rounding nor
    overflow; it carries the properties that do not depend on them:
    formulas, frames, orderings, guards and index sets.

    binary64.  Module [B64] gives a number its IEEE 754 binary64 meaning,
    every operation rounding its exact result.  It carries the properties
    that depend on rounding or overflow: monotonicity of the PRR, finiteness
    of the calculators, and the cases of the rolling z-score. *)

From Stdlib Require Import Reals Lra Lia Psatz ZArith List String.
From Stdlib Require Import Sorted Permutation.
From Stdlib Require Import Ascii.
From stdpp Require Import base list.

Local Open Scope R_scope.

(* ================================================================= *)
(** ** Numbers *)

(** [===], [<=], [<], [>=] and [>] on numbers, as booleans. *)
Definition num_eqb (x y : R) : bool := if Req_dec_T x y then true else false.
Definition num_leb (x y : R) : bool := if Rle_dec x y then true else false.
Definition num_ltb (x y : R) : bool := if Rlt_dec x y then true else false.

Infix "===" := num_eqb (at level 70, no associativity) : R_scope.
Infix "<=?" := num_leb (at level 70, no associativity) : R_scope.
Infix "<?" := num_ltb (at level 70, no associativity) : R_scope.
Notation "x >=? y" := (num_leb y x) (at level 70, no associativity) : R_scope.
Notation "x >? y" := (num_ltb y x) (at level 70, no associativity) : R_scope.

(** A computation of the calculators: [None] when a non-finite number
    arises, otherwise the value together with the arguments that reached
    [Math.sqrt], [Math.log] or [Math.log2], in call order. *)
Definition calc (A : Type) : Type := option (A * list R).

Definition ret {A : Type} (x : A) : calc A := Some (x, []).

Definition bind {A B : Type} (m : calc A) (k : A -> calc B) : calc B :=
  match m with
  | None => None
  | Some (x, l1) =>
      match k x with
      | None => None
      | Some (y, l2) => Some (y, l1 ++ l2)
      end
  end.

Notation "x <- m ;; k" := (bind m (fun x => k))
  (at level 100, m at next level, right associativity).

(** The value of a computation, and the arguments it logged. *)
Definition value {A : Type} (m : calc A) : option A := fmap fst m.
Definition calls {A : Type} (m : calc A) : list R :=
  match m with Some (_, l) => l | None => [] end.

(** [x / y] with a denominator that depends on the input: finite exactly
    when [y] is not zero. *)
Definition fdiv (x y : R) : calc R :=
  if y === 0 then None else ret (x / y).

(** [Math.sqrt]: [NaN] below zero. *)
Definition Math_sqrt (x : R) : calc R :=
  if x <? 0 then None else Some (sqrt x, [x]).

(** [Math.log]: [-Infinity] at zero, [NaN] below. *)
Definition Math_log (x : R) : calc R :=
  if x <=? 0 then None else Some (ln x, [x]).

(** [Math.log2], same domain as [Math.log]. *)
Definition Math_log2 (x : R) : calc R :=
  if x <=? 0 then None else Some (ln x / ln 2, [x]).

Definition Math_LN2 : R := ln 2.

(* ================================================================= *)
(** ** Data model (types) *)

Record ContingencyTable : Type := mkTable {
  a : R;  (* reports with both the drug and the reaction *)
  b : R;  (* drug, not the reaction *)
  c : R;  (* reaction, not the drug *)
  d : R;  (* neither *)
  n : R   (* total reports, supplied by the caller *)
}.

Record DisproportionalityScore : Type := mkScore {
  reaction : string;
  count : R;
  table : ContingencyTable;
  prr : R;
  prrChi2 : R;
  prrPValue : R;
  ror : R;
  rorLower95 : R;
  rorUpper95 : R;
  ic : R;
  ic025 : R;
  ic975 : R;
  isSignal : bool;
  isStrongSignal : bool;
  fdrPValue : option R  (* optional field, absent until the batch correction *)
}.

(** The result of [computeROR_CI]. *)
Record Interval : Type := mkInterval { lower : R; upper : R }.

(* ================================================================= *)
(** ** Chi-squared p-value (1 degree of freedom) *)

Definition normalCDF (x : R) : calc R :=
  if x <? -8 then ret 0
  else if x >? 8 then ret 1
  else
    let a1 := 0.254829592 in
    let a2 := -0.284496736 in
    let a3 := 1.421413741 in
    let a4 := -1.453152027 in
    let a5 := 1.061405429 in
    let p := 0.3275911 in
    let sign := if x <? 0 then -1 else 1 in
    let absX := Rabs x in
    t <- fdiv 1 (1 + p * absX) ;;
    let y :=
      1 - (((((a5 * t + a4) * t + a3) * t + a2) * t + a1)
            * t * exp ((- absX * absX) / 2)) in
    ret (0.5 * (1 + sign * y)).

Definition chi2PValue1df (chi2 : R) : calc R :=
  if chi2 <=? 0 then ret 1
  else
    s <- Math_sqrt chi2 ;;
    phi <- normalCDF s ;;
    ret (2 * (1 - phi)).

(* ================================================================= *)
(** ** Disproportionality analysis *)

Definition computePRR (t : ContingencyTable) : calc R :=
  let '(a, b, c, d) := (a t, b t, c t, d t) in
  if (a + b === 0) || (c + d === 0) || (c === 0) then ret 0
  else
    p1 <- fdiv a (a + b) ;;
    p2 <- fdiv c (c + d) ;;
    fdiv p1 p2.

Definition computeChi2 (t : ContingencyTable) : calc R :=
  let '(a, b, c, d) := (a t, b t, c t, d t) in
  let n := a + b + c + d in
  let denom := (a + b) * (c + d) * (a + c) * (b + d) in
  if denom === 0 then ret 0
  else
    let num := (a * d - b * c) ^ 2 * n in
    fdiv num denom.

Definition computeROR (t : ContingencyTable) : calc R :=
  let '(a, b, c, d) := (a t, b t, c t, d t) in
  if (b === 0) || (c === 0) then ret 0
  else fdiv (a * d) (b * c).

Definition computeROR_CI (t : ContingencyTable) : calc Interval :=
  let '(a, b, c, d) := (a t, b t, c t, d t) in
  if (a === 0) || (b === 0) || (c === 0) || (d === 0)
  then ret (mkInterval 0 0)
  else
    q <- fdiv (a * d) (b * c) ;;
    lnROR <- Math_log q ;;
    ra <- fdiv 1 a ;;
    rb <- fdiv 1 b ;;
    rc <- fdiv 1 c ;;
    rd <- fdiv 1 d ;;
    se <- Math_sqrt (ra + rb + rc + rd) ;;
    ret (mkInterval (exp (lnROR - 1.96 * se)) (exp (lnROR + 1.96 * se))).

Definition computeIC (t : ContingencyTable) : calc R :=
  let '(a, b, c) := (a t, b t, c t) in
  let n := a + b + c + d t in
  if (a === 0) || (a + b === 0) || (a + c === 0) then ret 0
  else
    expected <- fdiv ((a + b) * (a + c)) n ;;
    if expected === 0 then ret 0
    else
      q <- fdiv a expected ;;
      Math_log2 q.

Definition computeIC025 (t : ContingencyTable) : calc R :=
  ic <- computeIC t ;;
  let a := a t in
  if a <=? 0 then ret 0
  else
    s <- Math_sqrt (Rmax a 0.5) ;;
    se <- fdiv 1 (Math_LN2 * s) ;;
    ret (ic - 1.96 * se).

Definition computeIC975 (t : ContingencyTable) : calc R :=
  ic <- computeIC t ;;
  let a := a t in
  if a <=? 0 then ret 0
  else
    s <- Math_sqrt (Rmax a 0.5) ;;
    se <- fdiv 1 (Math_LN2 * s) ;;
    ret (ic + 1.96 * se).

Definition computeDisproportionality
    (reaction : string) (count : R) (table : ContingencyTable)
    : calc DisproportionalityScore :=
  prr <- computePRR table ;;
  chi2 <- computeChi2 table ;;
  pValue <- chi2PValue1df chi2 ;;
  ror <- computeROR table ;;
  ci <- computeROR_CI table ;;
  ic <- computeIC table ;;
  ic025 <- computeIC025 table ;;
  ic975 <- computeIC975 table ;;
  let isSignal := (prr >=? 2) && (chi2 >=? 4) && (a table >=? 3) in
  let isStrongSignal := (lower ci >? 1) && (ic025 >? 0) in
  ret {| reaction := reaction; count := count; table := table;
         prr := prr; prrChi2 := chi2; prrPValue := pValue;
         ror := ror; rorLower95 := lower ci; rorUpper95 := upper ci;
         ic := ic; ic025 := ic025; ic975 := ic975;
         isSignal := isSignal; isStrongSignal := isStrongSignal;
         fdrPValue := None |}.

(* ================================================================= *)
(** ** Arrays *)

Local Open Scope nat_scope.

(** [Array.prototype.sort] with a comparator [cmp]: a stable sort in which
    [x] is placed after [y] only when [cmp x y > 0].  For a comparator that
    orders by a key the stable result is unique, so the sorting algorithm of
    the engine does not matter; insertion from the right is used here. *)
Fixpoint sort_insert {A : Type} (cmp : A -> A -> R) (x : A) (l : list A)
    : list A :=
  match l with
  | [] => [x]
  | y :: l' =>
      if (cmp x y >? 0)%R then y :: sort_insert cmp x l' else x :: y :: l'
  end.

Fixpoint Array_sort {A : Type} (cmp : A -> A -> R) (l : list A) : list A :=
  match l with
  | [] => []
  | x :: l' => sort_insert cmp x (Array_sort cmp l')
  end.

(** [Array.prototype.slice(start, end)]: a negative index counts from the
    end of the array, and both indices are clamped to the array. *)
Definition Array_slice {A : Type} (l : list A) (start end_ : Z) : list A :=
  let len := Z.of_nat (length l) in
  let k := if (start <? 0)%Z then Z.max (len + start) 0 else Z.min start len in
  let final :=
    if (end_ <? 0)%Z then Z.max (len + end_) 0 else Z.min end_ len in
  take (Z.to_nat (final - k)) (drop (Z.to_nat k) l).

(** [arr.reduce((s, v) => s + v, 0)] and
    [arr.reduce((s, v) => s + (v - mean) ** 2, 0)]. *)
Definition sum (l : list R) : R := fold_left (fun s v => (s + v)%R) l 0%R.
Definition sumsq (mean : R) (l : list R) : R :=
  fold_left (fun s v => (s + (v - mean) ^ 2)%R) l 0%R.

(* ================================================================= *)
(** ** Multiple testing correction: Benjamini-Hochberg FDR *)

(** Entries of the sortable array: the original index and the p-value. *)
Record Indexed : Type := mkIndexed { idx : nat; p : R }.

(** The spread copy [{...s, fdrPValue: v}]. *)
Definition with_fdr (s : DisproportionalityScore) (v : option R)
    : DisproportionalityScore :=
  {| reaction := reaction s; count := count s; table := table s;
     prr := prr s; prrChi2 := prrChi2 s; prrPValue := prrPValue s;
     ror := ror s; rorLower95 := rorLower95 s; rorUpper95 := rorUpper95 s;
     ic := ic s; ic025 := ic025 s; ic975 := ic975 s;
     isSignal := isSignal s; isStrongSignal := isStrongSignal s;
     fdrPValue := v |}.

(** The loop [for (let rank = m; rank >= 1; rank--)], with [rank] the loop
    counter still to be handled and [cumMin], [adjusted] the loop state.
    [adjusted] starts as [m] empty slots ([None]); reading
    [indexed[rank - 1]] outside the array would throw on [item.p], which is
    the result [None] of the whole walk.  The division is by [rank >= 1]. *)
Fixpoint bh_walk (indexed : list Indexed) (m rank : nat) (cumMin : R)
    (adjusted : list (option R)) : option (list (option R)) :=
  match rank with
  | O => Some adjusted
  | S r =>
      match indexed !! r with
      | None => None
      | Some item =>
          let raw := (p item * INR m / INR rank)%R in
          let cumMin := Rmin cumMin raw in
          bh_walk indexed m r cumMin
            (<[idx item := Some (Rmin cumMin 1)]> adjusted)
      end
  end.

(** [adjusted[i]]: an empty slot or an index outside the array reads as
    [undefined]. *)
Definition slot (adjusted : list (option R)) (i : nat) : option R :=
  default None (adjusted !! i).

Definition applyBenjaminiHochberg (scores : list DisproportionalityScore)
    : option (list DisproportionalityScore) :=
  if length scores =? 0 then Some scores
  else
    let m := length scores in
    let indexed := imap (fun i s => mkIndexed i (prrPValue s)) scores in
    let indexed := Array_sort (fun a b => (p a - p b)%R) indexed in
    match bh_walk indexed m m 1%R (replicate m None) with
    | None => None
    | Some adjusted =>
        Some (imap (fun i s => with_fdr s (slot adjusted i)) scores)
    end.

(* ================================================================= *)
(** ** Time-series statistics *)

(** [window] is an integer; [Math.floor(window / 2)] is then [window / 2]
    on [Z], which rounds towards minus infinity.  The window holds at least
    three points where its mean is taken, its variance is a sum of squares,
    and [std] is tested against zero before it divides, so the arithmetic of
    this part stays finite and plain operations on [R] are used. *)
Definition rollingZScore (data : list R) (window : Z) : list (option R) :=
  let halfW := (window / 2)%Z in
  imap (fun i val =>
    let start := Z.max 0 (Z.of_nat i - halfW) in
    let end_ := Z.min (Z.of_nat (length data) - 1) (Z.of_nat i + halfW) in
    let slice := Array_slice data start (end_ + 1) in
    if length slice <? 3 then None
    else
      let mean := (sum slice / INR (length slice))%R in
      let variance := (sumsq mean slice / INR (length slice))%R in
      let std := sqrt variance in
      if (std === 0)%R then Some 0%R
      else Some ((val - mean) / std)%R) data.

(** The state of the CUSUM loop. *)
Record Cusum : Type := mkCusum {
  sPos : R;
  sNeg : R;
  changepoints : list nat
}.

(** One iteration of [for (let i = 1; i < data.length; i++)]. *)
Definition cusum_step (data : list R) (mean std h : R) (st : Cusum) (i : nat)
    : Cusum :=
  let diff := (nth i data 0 - mean)%R in
  let sPos := Rmax 0 (sPos st + diff - std * 0.5) in
  let sNeg := Rmin 0 (sNeg st + diff + std * 0.5) in
  if (sPos >? h)%R || (sNeg <? - h)%R
  then mkCusum 0 0 (changepoints st ++ [i])
  else mkCusum sPos sNeg (changepoints st).

(** [threshold] is the optional parameter ([None] when it is not passed). *)
Definition detectChangepoints (data : list R) (threshold : option R)
    : list nat :=
  if length data <? 10 then []
  else
    let mean := (sum data / INR (length data))%R in
    let std := sqrt (sumsq mean data / INR (length data)) in
    let h := match threshold with Some t => t | None => (std * 4)%R end in
    changepoints
      (fold_left (cusum_step data mean std h)
         (seq 1 (length data - 1)) (mkCusum 0 0 [])).

(** [arr[i]] on an array whose entries may be [undefined]: an index past
    the end reads [undefined] too. *)
Definition elem {A : Type} (l : list (option A)) (i : nat) : option A :=
  default None (l !! i).

(** [movingAverage].  An entry is [None] for [undefined] and [Some v] for a
    number, where [v] is [None] when the number is not finite ([sum / window]
    with [window] zero).  [window] is an integer.  The loop
    [for (let j = i - window + 1; j <= i; j++)] runs over [window]
    consecutive indices, none when [window <= 0]; it is only reached with
    [i >= window - 1], so every [data[j]] it reads is inside the array. *)
Definition movingAverage (data : list R) (window : Z)
    : list (option (option R)) :=
  imap (fun i _ =>
    if (Z.of_nat i <? window - 1)%Z then None
    else
      let total :=
        fold_left (fun acc j => (acc + nth (Z.to_nat j) data 0)%R)
          (seqZ (Z.of_nat i - window + 1) window) 0%R in
      Some (value (fdiv total (IZR window)))) data.

Module TrendPoint.
Record t : Type := mk {
  time : string;   (* YYYYMMDD *)
  count : R;
  label : string
}.
End TrendPoint.

Module TrendWithStats.
Record t : Type := mk {
  time : string;
  count : R;
  label : string;
  ma : option (option R);   (* [ma?: number] *)
  zScore : option R;        (* [zScore?: number] *)
  isSpike : bool
}.
End TrendWithStats.

(** [detectSpikes(data, window = 12, threshold = 2.0)]: an argument that is
    not passed is [None] and takes its default. *)
Definition detectSpikes (data : list TrendPoint.t)
    (window : option Z) (threshold : option R) : list TrendWithStats.t :=
  let window := default 12%Z window in
  let threshold := default 2%R threshold in
  let counts := TrendPoint.count <$> data in
  let ma :=
    movingAverage counts
      (Z.min window (Z.max 3 (Z.of_nat (length data / 4)))) in
  let zScores :=
    rollingZScore counts (Z.min (window * 2) (Z.of_nat (length data))) in
  imap (fun i point =>
    {| TrendWithStats.time := TrendPoint.time point;
       TrendWithStats.count := TrendPoint.count point;
       TrendWithStats.label := TrendPoint.label point;
       TrendWithStats.ma := elem ma i;
       TrendWithStats.zScore := elem zScores i;
       TrendWithStats.isSpike :=
         match elem zScores i with
         | None => false
         | Some z => (Rabs z >? threshold)%R
         end |}) data.

(* ================================================================= *)
(** ** Strings and maps *)

(** A string is its sequence of code units, written here with the
    characters of [string]; [String.prototype.slice] follows the index rules
    of [Array.prototype.slice]. *)
Definition String_slice (s : string) (start end_ : Z) : string :=
  string_of_list_ascii (Array_slice (list_ascii_of_string s) start end_).

(** [Array.prototype.find]: the first element that passes the test. *)
Fixpoint Array_find {A : Type} (test : A -> bool) (l : list A) : option A :=
  match l with
  | [] => None
  | x :: l' => if test x then Some x else Array_find test l'
  end.

(** A [Map] with string keys: the entries in insertion order, each key
    once.  [Map_set] on a key that is present replaces its value where it
    stands; on a new key it appends. *)
Definition Map_has {V : Type} (m : list (string * V)) (k : string) : bool :=
  existsb (fun kv => String.eqb kv.1 k) m.

Definition Map_get {V : Type} (m : list (string * V)) (k : string)
    : option V :=
  snd <$> Array_find (fun kv => String.eqb kv.1 k) m.

Definition Map_set {V : Type} (m : list (string * V)) (k : string) (v : V)
    : list (string * V) :=
  if Map_has m k
  then (fun kv => if String.eqb kv.1 k then (k, v) else kv) <$> m
  else m ++ [(k, v)].

(* ================================================================= *)
(** ** Year-over-year regrouping *)

Module MonthCount.
(** [{ month: number; count: number }]; [month] is what [parseInt]
    returned, [None] standing for [NaN]. *)
Record t : Type := mk {
  month : option Z;
  count : R
}.
End MonthCount.

(** [e.month === month] on numbers: [NaN] equals nothing, itself
    included. *)
Definition month_eqb (m1 m2 : option Z) : bool :=
  match m1, m2 with
  | Some x, Some y => (x =? y)%Z
  | _, _ => false
  end.

(** [existing.count += x] on the entry that [find] returned: the object
    sits in the array, so the array shows the new count at the first entry
    that passes the test. *)
Fixpoint add_to_found (test : MonthCount.t -> bool) (x : R)
    (l : list MonthCount.t) : list MonthCount.t :=
  match l with
  | [] => []
  | e :: l' =>
      if test e
      then MonthCount.mk (MonthCount.month e) (MonthCount.count e + x)%R :: l'
      else e :: add_to_found test x l'
  end.

Section YearOverYear.
(** [parseInt] of the standard library, on the two characters of the month:
    an integer, or [None] for [NaN].  Nothing is assumed about it. *)
Variable parseInt : string -> option Z.

(** The body of [data.forEach((d) => ...)].  The arrays held by the map are
    changed in place in the source; here the changed array is stored back
    under its year.  [yearMap.get(year)!] is never [undefined], the key
    having just been set. *)
Definition yearOverYear_step (yearMap : list (string * list MonthCount.t))
    (d : TrendPoint.t) : list (string * list MonthCount.t) :=
  let year := String_slice (TrendPoint.time d) 0 4 in
  let month := parseInt (String_slice (TrendPoint.time d) 4 6) in
  let yearMap :=
    if negb (Map_has yearMap year) then Map_set yearMap year [] else yearMap in
  match Map_get yearMap year with
  | None => yearMap
  | Some entries =>
      let test := fun e => month_eqb (MonthCount.month e) month in
      match Array_find test entries with
      | Some existing =>
          Map_set yearMap year
            (add_to_found test (TrendPoint.count d) entries)
      | None =>
          Map_set yearMap year
            (entries ++ [MonthCount.mk month (TrendPoint.count d)])
      end
  end.

Definition yearOverYear (data : list TrendPoint.t)
    : list (string * list MonthCount.t) :=
  fold_left yearOverYear_step data [].
End YearOverYear.

(* ================================================================= *)
(** ** Date strings *)

Local Open Scope string_scope.

(** [str.replace(/-/g, "")] and the like: every occurrence of one
    character removed. *)
Fixpoint remove_char (ch : ascii) (s : string) : string :=
  match s with
  | EmptyString => EmptyString
  | String x s' =>
      if Ascii.eqb x ch then remove_char ch s'
      else String x (remove_char ch s')
  end.

(** [s.slice(start)] with one argument runs to the end of the string. *)
Definition String_slice_from (s : string) (start : Z) : string :=
  String_slice s start (Z.of_nat (String.length s)).

Definition formatDateForInput (yyyymmdd : string) : string :=
  if negb (String.length yyyymmdd =? 8)%nat then ""
  else String_slice yyyymmdd 0 4 ++ "-" ++ String_slice yyyymmdd 4 6
       ++ "-" ++ String_slice yyyymmdd 6 8.

Definition parseDateInput (dateStr : string) : string :=
  remove_char "-" dateStr.

Definition formatDateLabel (yyyymmdd : string) : string :=
  if negb (String.length yyyymmdd =? 8)%nat then yyyymmdd
  else String_slice yyyymmdd 0 4 ++ "-" ++ String_slice yyyymmdd 4 6
       ++ "-" ++ String_slice yyyymmdd 6 8.

Definition formatDateRange (from to : string) : string :=
  if ((String.length from =? 8) && (String.length to =? 8))%nat
  then String_slice from 0 4 ++ "-" ++ String_slice from 4 6 ++ "-"
       ++ String_slice_from from 6 ++ " to "
       ++ String_slice to 0 4 ++ "-" ++ String_slice to 4 6 ++ "-"
       ++ String_slice_from to 6
  else from ++ " to " ++ to.

Local Close Scope string_scope.

(* ================================================================= *)
(** ** Manifest: results summary *)

(** The results-summary fields that [generateManifest] derives from the
    scores (the identification, query, dataset and compliance fields of the
    manifest need the digest, the clock and string formatting and are not
    modelled). *)
Record ResultsSummary : Type := mkSummary {
  reactionsAnalyzed : nat;
  signalsDetected : nat;
  strongSignalsDetected : nat
}.

(** [arr.filter(test).length]. *)
Definition count_where {A : Type} (test : A -> bool) (l : list A) : nat :=
  length (List.filter test l).

Definition generateManifest_summary (signals : list DisproportionalityScore)
    : ResultsSummary :=
  {| reactionsAnalyzed := length signals;
     signalsDetected :=
       count_where (fun s => isSignal s || isStrongSignal s) signals;
     strongSignalsDetected := count_where (fun s => isStrongSignal s) signals
  |}.

(* ================================================================= *)
(** * The same code in binary64 arithmetic *)

(** A JavaScript [number] is an IEEE 754 binary64 value, and ECMAScript
    defines [+], [-], [*], [/] and [Math.sqrt] as the exact result rounded
    to the nearest binary64 value, ties to even.  Module [B64] follows that
    definition: a number is [NaN], an infinity or a finite real, and every
    operation rounds its exact result with [round].  The functions whose
    properties depend on rounding or overflow are embedded a second time
    here, under the names they have in the source.

    Limits of this model: the two zeros are identified ([-0] is [0]; they
    are [===], and the code divides by a zero only after an overflow or an
    underflow), and [NaN] carries no payload.  [Math.exp], [Math.log],
    [Math.log2] and [Math.pow] (which is also [**]) are
    implementation-approximated in ECMAScript, so they are a parameter
    [MathLib] of the functions that call them. *)
Module B64.

Local Open Scope R_scope.

(** ** Rounding to nearest, ties to even *)

(** The integer part of a real and the nearest integer, ties to even. *)
Definition Zfloor (x : R) : Z := (up x - 1)%Z.

Definition ZnearestE (x : R) : Z :=
  let f := Zfloor x in
  let r := x - IZR f in
  if Rlt_dec r (/ 2) then f
  else if Rlt_dec (/ 2) r then (f + 1)%Z
  else if Z.even f then f else (f + 1)%Z.

(** [bpow e] is 2^e; [mag x] is the exponent [e] with
    2^(e-1) <= |x| < 2^e. *)
Definition bpow (e : Z) : R := powerRZ 2 e.

Definition mag (x : R) : Z := (Zfloor (ln (Rabs x) / ln 2) + 1)%Z.

(** The exponent of the last place of a binary64 number near [x]: 53
    significant bits, and 2^-1074 for the subnormal numbers. *)
Definition cexp (x : R) : Z := Z.max (mag x - 53) (-1074).

(** [x] rounded to a multiple of 2^(cexp x), the exponent being unbounded
    above. *)
Definition rne (x : R) : R :=
  IZR (ZnearestE (x * bpow (- cexp x))) * bpow (cexp x).

(** The reals that binary64 represents (up to the overflow threshold,
    which [round] handles). *)
Definition format (x : R) : Prop :=
  exists m e : Z, x = IZR m * bpow e /\ (Z.abs m < 2 ^ 53)%Z /\ (-1074 <= e)%Z.

(** ** Numbers and their operations *)

Inductive number : Type :=
  | NaN
  | Infinity (negative : bool)
  | Finite (x : R).

(** The binary64 value of an exact result: an infinity when the rounded
    magnitude reaches 2^1024. *)
Definition round (x : R) : number :=
  let y := rne x in
  if bpow 1024 <=? Rabs y then Infinity (y <? 0) else Finite y.

Definition neg (u : number) : number :=
  match u with
  | NaN => NaN
  | Infinity s => Infinity (negb s)
  | Finite x => Finite (- x)
  end.

Definition add (u v : number) : number :=
  match u, v with
  | NaN, _ | _, NaN => NaN
  | Infinity s, Infinity s' => if Bool.eqb s s' then Infinity s else NaN
  | Infinity s, Finite _ | Finite _, Infinity s => Infinity s
  | Finite x, Finite y => round (x + y)
  end.

Definition sub (u v : number) : number := add u (neg v).

Definition mul (u v : number) : number :=
  match u, v with
  | NaN, _ | _, NaN => NaN
  | Infinity s, Infinity s' => Infinity (xorb s s')
  | Infinity s, Finite y | Finite y, Infinity s =>
      if y === 0 then NaN else Infinity (xorb s (y <? 0))
  | Finite x, Finite y => round (x * y)
  end.

Definition div (u v : number) : number :=
  match u, v with
  | NaN, _ | _, NaN => NaN
  | Infinity _, Infinity _ => NaN
  | Infinity s, Finite y => Infinity (xorb s (y <? 0))
  | Finite _, Infinity _ => Finite 0
  | Finite x, Finite y =>
      if y === 0 then (if x === 0 then NaN else Infinity (x <? 0))
      else round (x / y)
  end.

Definition Math_sqrt (u : number) : number :=
  match u with
  | NaN => NaN
  | Infinity s => if s then NaN else Infinity false
  | Finite x => if x <? 0 then NaN else round (sqrt x)
  end.

Definition Math_abs (u : number) : number :=
  match u with
  | NaN => NaN
  | Infinity _ => Infinity false
  | Finite x => Finite (Rabs x)
  end.

Definition Math_max (u v : number) : number :=
  match u, v with
  | NaN, _ | _, NaN => NaN
  | Infinity false, _ | _, Infinity false => Infinity false
  | Infinity true, w | w, Infinity true => w
  | Finite x, Finite y => Finite (Rmax x y)
  end.

(** [===], [<] and [<=]: false as soon as an operand is [NaN]. *)
Definition equal (u v : number) : bool :=
  match u, v with
  | Finite x, Finite y => x === y
  | Infinity s, Infinity s' => Bool.eqb s s'
  | _, _ => false
  end.

Definition less (u v : number) : bool :=
  match u, v with
  | NaN, _ | _, NaN => false
  | Infinity s, Infinity s' => s && negb s'
  | Infinity s, Finite _ => s
  | Finite _, Infinity s => negb s
  | Finite x, Finite y => x <? y
  end.

Definition less_eq (u v : number) : bool :=
  match u, v with
  | NaN, _ | _, NaN => false
  | Infinity s, Infinity s' => s || negb s'
  | Infinity s, Finite _ => s
  | Finite _, Infinity s => negb s
  | Finite x, Finite y => x <=? y
  end.

(** A decimal literal of the source denotes the nearest binary64 value;
    integers of moderate size and 0.5 are written [Finite _] since they are
    representable.  [count k] is the integer [k] as a number, and
    [of_nat k] an array length. *)
Definition literal (x : R) : number := round x.
Definition count (k : Z) : number := Finite (IZR k).
Definition of_nat (k : nat) : number := count (Z.of_nat k).
Definition Math_LN2 : number := literal (ln 2).

Declare Scope num_scope.
Delimit Scope num_scope with num.
Bind Scope num_scope with number.
Infix "+" := add : num_scope.
Infix "-" := sub : num_scope.
Infix "*" := mul : num_scope.
Infix "/" := div : num_scope.
Notation "- x" := (neg x) : num_scope.
Infix "===" := equal (at level 70, no associativity) : num_scope.
Infix "<?" := less (at level 70, no associativity) : num_scope.
Infix "<=?" := less_eq (at level 70, no associativity) : num_scope.
Notation "x >? y" := (less y x) (at level 70, no associativity) : num_scope.

(** The functions of [Math] that ECMAScript leaves
    implementation-approximated. *)
Record MathLib : Type := mkMathLib {
  Math_exp : number -> number;
  Math_log : number -> number;
  Math_log2 : number -> number;
  Math_pow : number -> number -> number
}.

(** A computation that records, in call order, the arguments handed to
    [Math.sqrt], [Math.log] and [Math.log2]. *)
Definition calc (A : Type) : Type := (A * list number)%type.
Definition ret {A : Type} (x : A) : calc A := (x, []).
Definition bind {A B : Type} (m : calc A) (k : A -> calc B) : calc B :=
  let r := k (fst m) in (fst r, snd m ++ snd r).
Notation "x <- m ;; k" := (bind m (fun x => k))
  (at level 100, m at next level, right associativity) : num_scope.
Definition logged (f : number -> number) (u : number) : calc number :=
  (f u, [u]).

(** ** The calculators *)

Record ContingencyTable : Type := mkTable {
  a : number; b : number; c : number; d : number; n : number
}.

Record Interval : Type := mkInterval { lower : number; upper : number }.

Local Open Scope num_scope.

Definition computePRR (t : ContingencyTable) : number :=
  let '(a, b, c, d) := (a t, b t, c t, d t) in
  if (a + b === Finite 0) || (c + d === Finite 0) || (c === Finite 0)
  then Finite 0
  else a / (a + b) / (c / (c + d)).

Definition computeROR (t : ContingencyTable) : number :=
  let '(a, b, c, d) := (a t, b t, c t, d t) in
  if (b === Finite 0) || (c === Finite 0) then Finite 0
  else (a * d) / (b * c).

Section Calculators.
Variable M : MathLib.

Definition normalCDF (x : number) : number :=
  if x <? Finite (-8) then Finite 0
  else if x >? Finite 8 then Finite 1
  else
    let a1 := literal 0.254829592 in
    let a2 := - literal 0.284496736 in
    let a3 := literal 1.421413741 in
    let a4 := - literal 1.453152027 in
    let a5 := literal 1.061405429 in
    let p := literal 0.3275911 in
    let sign := if x <? Finite 0 then Finite (-1) else Finite 1 in
    let absX := Math_abs x in
    let t := Finite 1 / (Finite 1 + p * absX) in
    let y :=
      Finite 1
      - ((((a5 * t + a4) * t + a3) * t + a2) * t + a1)
        * t * Math_exp M ((- absX * absX) / Finite 2) in
    Finite 0.5 * (Finite 1 + sign * y).

Definition chi2PValue1df (chi2 : number) : calc number :=
  if chi2 <=? Finite 0 then ret (Finite 1)
  else
    z <- logged Math_sqrt chi2 ;;
    ret (Finite 2 * (Finite 1 - normalCDF z)).

Definition computeChi2 (t : ContingencyTable) : number :=
  let '(a, b, c, d) := (a t, b t, c t, d t) in
  let n := a + b + c + d in
  let denom := (a + b) * (c + d) * (a + c) * (b + d) in
  if denom === Finite 0 then Finite 0
  else
    let num := Math_pow M (a * d - b * c) (Finite 2) * n in
    num / denom.

Definition computeROR_CI (t : ContingencyTable) : calc Interval :=
  let '(a, b, c, d) := (a t, b t, c t, d t) in
  if (a === Finite 0) || (b === Finite 0) || (c === Finite 0)
     || (d === Finite 0)
  then ret (mkInterval (Finite 0) (Finite 0))
  else
    lnROR <- logged (Math_log M) ((a * d) / (b * c)) ;;
    se <- logged Math_sqrt
            (Finite 1 / a + Finite 1 / b + Finite 1 / c + Finite 1 / d) ;;
    ret (mkInterval (Math_exp M (lnROR - literal 1.96 * se))
                    (Math_exp M (lnROR + literal 1.96 * se))).

Definition computeIC (t : ContingencyTable) : calc number :=
  let '(a, b, c) := (a t, b t, c t) in
  let n := a + b + c + d t in
  if (a === Finite 0) || (a + b === Finite 0) || (a + c === Finite 0)
  then ret (Finite 0)
  else
    let expected := ((a + b) * (a + c)) / n in
    if expected === Finite 0 then ret (Finite 0)
    else logged (Math_log2 M) (a / expected).

Definition computeIC025 (t : ContingencyTable) : calc number :=
  ic <- computeIC t ;;
  let a := a t in
  if a <=? Finite 0 then ret (Finite 0)
  else
    s <- logged Math_sqrt (Math_max a (Finite 0.5)) ;;
    let se := Finite 1 / (Math_LN2 * s) in
    ret (ic - literal 1.96 * se).

Definition computeIC975 (t : ContingencyTable) : calc number :=
  ic <- computeIC t ;;
  let a := a t in
  if a <=? Finite 0 then ret (Finite 0)
  else
    s <- logged Math_sqrt (Math_max a (Finite 0.5)) ;;
    let se := Finite 1 / (Math_LN2 * s) in
    ret (ic + literal 1.96 * se).

(** ** Rolling z-score *)

(** [arr.reduce((s, v) => s + v, 0)] and
    [arr.reduce((s, v) => s + (v - mean) ** 2, 0)]. *)
Definition sum (l : list number) : number :=
  fold_left (fun s v => s + v) l (Finite 0).

Definition sumsq (mean : number) (l : list number) : number :=
  fold_left (fun s v => s + Math_pow M (v - mean) (Finite 2)) l (Finite 0).

Definition rollingZScore (data : list number) (window : Z)
    : list (option number) :=
  let halfW := (window / 2)%Z in
  imap (fun i val =>
    let start := Z.max 0 (Z.of_nat i - halfW) in
    let end_ := Z.min (Z.of_nat (length data) - 1) (Z.of_nat i + halfW) in
    let slice := Array_slice data start (end_ + 1) in
    if (length slice <? 3)%nat then None
    else
      let mean := sum slice / of_nat (length slice) in
      let variance := sumsq mean slice / of_nat (length slice) in
      let std := Math_sqrt variance in
      if std === Finite 0 then Some (Finite 0)
      else Some ((val - mean) / std)) data.

(** *** Vocabulary: the window of the specification and its statistics *)

(** Mean and population standard deviation of a list of numbers, as the
    code computes them: sums accumulated from the left, each operation
    rounded. *)
Definition mean_of (l : list number) : number := sum l / of_nat (length l).
Definition pop_std (l : list number) : number :=
  Math_sqrt (sumsq (mean_of l) l / of_nat (length l)).

Definition zscore_of (pts : list number) (val : number) : option number :=
  if (length pts <? 3)%nat then None
  else if pop_std pts === Finite 0 then Some (Finite 0)
  else Some ((val - mean_of pts) / pop_std pts).

End Calculators.

Local Close Scope num_scope.


(** ** Vocabulary: finiteness and bounds *)

Definition finite (u : number) : Prop := exists x, u = Finite x.
Definition strictly_positive (u : number) : Prop :=
  exists x, u = Finite x /\ 0 < x.

(** A run whose result is finite and whose arguments to [Math.sqrt],
    [Math.log] and [Math.log2] were all strictly positive. *)
Definition guarded (m : calc number) : Prop :=
  finite (fst m) /\ Forall strictly_positive (snd m).
Definition guarded_interval (m : calc Interval) : Prop :=
  finite (lower (fst m)) /\ finite (upper (fst m))
  /\ Forall strictly_positive (snd m).

(** Finite with magnitude at most 2^k; finite between 2^j and 2^k; finite
    between 0 and 2^k. *)
Definition bounded (k : Z) (u : number) : Prop :=
  exists x, u = Finite x /\ Rabs x <= bpow k.
Definition ranged (j k : Z) (u : number) : Prop :=
  exists x, u = Finite x /\ bpow j <= x <= bpow k.
Definition nonneg (k : Z) (u : number) : Prop :=
  exists x, u = Finite x /\ 0 <= x <= bpow k.

(** What is assumed of the math library: on the arguments the calculators
    produce from counts, a result no larger than the exact one can be.
    The square of a number of magnitude at most 2^k is at most 2^(2k); the
    logarithms of a number between 2^-k and 2^k lie between -k and k; the
    exponential of a number of magnitude at most 2^j is at most
    2^(2^(j+1)).  Every library whose results are one of the two binary64
    neighbours of the exact value satisfies this. *)
Record sane (M : MathLib) : Prop := mkSane {
  sane_pow : forall u k, (0 <= k <= 500)%Z -> bounded k u ->
    bounded (2 * k) (Math_pow M u (Finite 2));
  sane_log : forall u k, (0 <= k <= 1000)%Z -> ranged (- k) k u ->
    exists y, Math_log M u = Finite y /\ Rabs y <= IZR k;
  sane_log2 : forall u k, (0 <= k <= 1000)%Z -> ranged (- k) k u ->
    exists y, Math_log2 M u = Finite y /\ Rabs y <= IZR k;
  sane_exp : forall u j, (0 <= j <= 8)%Z -> bounded j u ->
    bounded (2 ^ (j + 1)) (Math_exp M u)
}.

(** A correctly rounded math library, the best a [MathLib] can be.  Of
    [Math.pow] only the squares, which are all the code asks for, are given
    a value. *)
Definition libm : MathLib := {|
  Math_exp := fun u =>
    match u with
    | NaN => NaN
    | Infinity s => if s then Finite 0 else Infinity false
    | Finite x => round (exp x)
    end;
  Math_log := fun u =>
    match u with
    | NaN => NaN
    | Infinity s => if s then NaN else Infinity false
    | Finite x =>
        if x <? 0 then NaN else if x === 0 then Infinity true
        else round (ln x)
    end;
  Math_log2 := fun u =>
    match u with
    | NaN => NaN
    | Infinity s => if s then NaN else Infinity false
    | Finite x =>
        if x <? 0 then NaN else if x === 0 then Infinity true
        else round (ln x / ln 2)
    end;
  Math_pow := fun u v => if equal v (Finite 2) then mul u u else NaN
|}.

Definition ten_to_80 : Z :=
  100000000000000000026609864708367276537402401181200809098131977453489758916313088.

End B64.

(* ================================================================= *)
(** ** Vocabulary of the specification *)

Local Open Scope R_scope.

(** A table of counts: the four cells are non-negative. *)
Definition counts (t : ContingencyTable) : Prop :=
  0 <= a t /\ 0 <= b t /\ 0 <= c t /\ 0 <= d t.

(** The four marginal totals of a table are nonzero. *)
Definition nonzero_marginals (t : ContingencyTable) : Prop :=
  a t + b t <> 0 /\ c t + d t <> 0 /\ a t + c t <> 0 /\ b t + d t <> 0.

(** A calculator run that stays finite (no [NaN], no infinity, nothing
    thrown) and hands only strictly positive arguments to [Math.sqrt],
    [Math.log] and [Math.log2]. *)
Definition guarded {A : Type} (m : calc A) : Prop :=
  is_Some m /\ Forall (fun x => 0 < x) (calls m).

(** The same table with another [n] field. *)
Definition with_n (t : ContingencyTable) (n' : R) : ContingencyTable :=
  mkTable (a t) (b t) (c t) (d t) n'.

(** The table of the known-answer example. *)
Definition example_table : ContingencyTable :=
  mkTable 150 4850 3000 992000 1000000.

(** A score of the example table that carries the raw p-value [pv] and no
    corrected one. *)
Definition score_with_pvalue (pv : R) : DisproportionalityScore :=
  mkScore "NAUSEA" 150 example_table 9.95 1153 pv 10 8 12 3 2 4
    true true None.

(** Two scores that agree on every field except possibly [fdrPValue]. *)
Definition same_but_fdr (s s' : DisproportionalityScore) : Prop :=
  reaction s' = reaction s /\ count s' = count s /\ table s' = table s
  /\ prr s' = prr s /\ prrChi2 s' = prrChi2 s /\ prrPValue s' = prrPValue s
  /\ ror s' = ror s /\ rorLower95 s' = rorLower95 s
  /\ rorUpper95 s' = rorUpper95 s
  /\ ic s' = ic s /\ ic025 s' = ic025 s /\ ic975 s' = ic975 s
  /\ isSignal s' = isSignal s /\ isStrongSignal s' = isStrongSignal s.

(** Arranging scores in ascending order of their raw p-value: the sort of
    the corrector, applied to the scores themselves. *)
Definition by_pvalue (l : list DisproportionalityScore)
    : list DisproportionalityScore :=
  Array_sort (fun s s' => prrPValue s - prrPValue s') l.

(** A list of scores is in ascending order of raw p-value. *)
Definition ascending_pvalue (l : list DisproportionalityScore) : Prop :=
  StronglySorted (fun s s' => prrPValue s <= prrPValue s') l.

(** A sequence of optional numbers in which every entry is present and the
    numbers never decrease. *)
Definition nondecreasing (l : list (option R)) : Prop :=
  exists vs : list R, l = Some <$> vs /\ Sorted Rle vs.

(** The value of [cumMin] when the walk, started at [rank] with [cumMin]
    equal to [c], has handled the ranks down to position [k] (rank
    [k + 1]) of the sorted array. *)
Fixpoint cum_min (indexed : list Indexed) (m rank : nat) (c : R) (k : nat)
    : R :=
  match rank with
  | O => c
  | S r =>
      if (k <=? r)%nat then
        match indexed !! r with
        | None => c
        | Some item =>
            cum_min indexed m r (Rmin c (p item * INR m / INR rank)) k
        end
      else c
  end.

(** Mean and population standard deviation of a list of numbers. *)
Definition mean_of (l : list R) : R := sum l / INR (length l).
Definition pop_std (l : list R) : R :=
  sqrt (sumsq (mean_of l) l / INR (length l)).

(** The rolling z-score of the specification at a point [val] whose window
    holds the points [pts]. *)
Definition zscore_of (pts : list R) (val : R) : option R :=
  if (length pts <? 3)%nat then None
  else if pop_std pts === 0 then Some 0
  else Some ((val - mean_of pts) / pop_std pts).

(** Invariant of the CUSUM loop: the recorded indices are increasing and
    lie between the first index of the loop and the current one. *)
Definition cusum_inv (lo i : nat) (st : Cusum) : Prop :=
  StronglySorted lt (changepoints st)
  /\ Forall (fun j => (lo <= j < i)%nat) (changepoints st).

(** The [window] points of a series that end at index [i]. *)
Definition trailing_window (data : list R) (window : Z) (i : nat) : list R :=
  take (Z.to_nat window) (drop (i + 1 - Z.to_nat window) data).

(** The year of a point. *)
Definition year_of (d : TrendPoint.t) : string :=
  String_slice (TrendPoint.time d) 0 4.

(* ================================================================= *)
(** * Properties *)

(** ** Evaluating guards and partial operations *)

Lemma bind_Some {A B : Type} (x : A) (l : list R) (k : A -> calc B) :
  bind (Some (x, l)) k =
    match k x with
    | None => None
    | Some (y, l2) => Some (y, l ++ l2)
    end.
Proof. reflexivity. Qed.

Lemma num_eqb_true (x y : R) : x = y -> (x === y) = true.
Proof. intros H. unfold num_eqb. destruct (Req_dec_T x y); congruence. Qed.

Lemma num_eqb_false (x y : R) : x <> y -> (x === y) = false.
Proof. intros H. unfold num_eqb. destruct (Req_dec_T x y); congruence. Qed.

Lemma num_leb_true (x y : R) : x <= y -> (x <=? y) = true.
Proof. intros H. unfold num_leb. destruct (Rle_dec x y); tauto. Qed.

Lemma num_leb_false (x y : R) : y < x -> (x <=? y) = false.
Proof. intros H. unfold num_leb. destruct (Rle_dec x y); [lra | reflexivity]. Qed.

Lemma num_ltb_true (x y : R) : x < y -> (x <? y) = true.
Proof. intros H. unfold num_ltb. destruct (Rlt_dec x y); tauto. Qed.

Lemma num_ltb_false (x y : R) : y <= x -> (x <? y) = false.
Proof. intros H. unfold num_ltb. destruct (Rlt_dec x y); [lra | reflexivity]. Qed.

Lemma fdiv_ok (x y : R) : y <> 0 -> fdiv x y = Some (x / y, []).
Proof. intros H. unfold fdiv. now rewrite num_eqb_false. Qed.

Lemma Math_sqrt_ok (x : R) : 0 <= x -> Math_sqrt x = Some (sqrt x, [x]).
Proof. intros H. unfold Math_sqrt. now rewrite num_ltb_false. Qed.

Lemma Math_log_ok (x : R) : 0 < x -> Math_log x = Some (ln x, [x]).
Proof. intros H. unfold Math_log. now rewrite num_leb_false. Qed.

Lemma Math_log2_ok (x : R) : 0 < x -> Math_log2 x = Some (ln x / ln 2, [x]).
Proof. intros H. unfold Math_log2. now rewrite num_leb_false. Qed.

(** Settles every guard of the goal whose outcome linear arithmetic over the
    hypotheses decides. *)
Ltac guards :=
  repeat match goal with
  | |- context [num_eqb ?x ?y] =>
      first [ rewrite (num_eqb_false x y) by lra
            | rewrite (num_eqb_true x y) by lra ]
  | |- context [num_leb ?x ?y] =>
      first [ rewrite (num_leb_false x y) by lra
            | rewrite (num_leb_true x y) by lra ]
  | |- context [num_ltb ?x ?y] =>
      first [ rewrite (num_ltb_false x y) by lra
            | rewrite (num_ltb_true x y) by lra ]
  end.

(** ** The calculators in closed form, outside their degenerate branches *)

Lemma computePRR_eq (t : ContingencyTable) :
  a t + b t <> 0 -> c t + d t <> 0 -> c t <> 0 ->
  computePRR t = Some (a t / (a t + b t) / (c t / (c t + d t)), []).
Proof.
  intros Hab Hcd Hc. unfold computePRR. cbn.
  assert (Hq : c t / (c t + d t) <> 0).
  { intros H. apply Hc.
    apply (Rmult_eq_compat_r (c t + d t)) in H.
    unfold Rdiv in H. rewrite Rmult_assoc, Rinv_l in H by assumption. lra. }
  rewrite !num_eqb_false by assumption. cbn.
  rewrite (fdiv_ok _ _ Hab), (fdiv_ok _ _ Hcd). cbn.
  now rewrite (fdiv_ok _ _ Hq).
Qed.

Lemma computePRR_degenerate (t : ContingencyTable) :
  a t + b t = 0 \/ c t + d t = 0 \/ c t = 0 -> computePRR t = Some (0, []).
Proof.
  intros H. unfold computePRR. cbn.
  destruct H as [H | [H | H]]; rewrite (num_eqb_true _ _ H); cbn;
    rewrite ?orb_true_r; reflexivity.
Qed.

Lemma computeChi2_eq (t : ContingencyTable) :
  (a t + b t) * (c t + d t) * (a t + c t) * (b t + d t) <> 0 ->
  computeChi2 t =
    Some ((a t * d t - b t * c t) ^ 2 * (a t + b t + c t + d t)
          / ((a t + b t) * (c t + d t) * (a t + c t) * (b t + d t)), []).
Proof.
  intros H. unfold computeChi2. cbn.
  rewrite num_eqb_false by assumption. now rewrite fdiv_ok.
Qed.

Lemma computeChi2_degenerate (t : ContingencyTable) :
  (a t + b t) * (c t + d t) * (a t + c t) * (b t + d t) = 0 ->
  computeChi2 t = Some (0, []).
Proof.
  intros H. unfold computeChi2. cbn. now rewrite num_eqb_true.
Qed.

Lemma computeROR_eq (t : ContingencyTable) :
  b t <> 0 -> c t <> 0 ->
  computeROR t = Some (a t * d t / (b t * c t), []).
Proof.
  intros Hb Hc. unfold computeROR. cbn.
  rewrite !num_eqb_false by assumption. cbn.
  rewrite fdiv_ok; [reflexivity | now apply Rmult_integral_contrapositive].
Qed.

Lemma computeROR_degenerate (t : ContingencyTable) :
  b t = 0 \/ c t = 0 -> computeROR t = Some (0, []).
Proof.
  intros H. unfold computeROR. cbn.
  destruct H as [H | H]; rewrite (num_eqb_true _ _ H); cbn;
    rewrite ?orb_true_r; reflexivity.
Qed.

Lemma computeROR_CI_eq (t : ContingencyTable) :
  0 < a t -> 0 < b t -> 0 < c t -> 0 < d t ->
  let q := a t * d t / (b t * c t) in
  let v := 1 / a t + 1 / b t + 1 / c t + 1 / d t in
  computeROR_CI t =
    Some (mkInterval (exp (ln q - 1.96 * sqrt v)) (exp (ln q + 1.96 * sqrt v)),
          [q; v])
  /\ 0 < q /\ 0 < v.
Proof.
  intros Ha Hb Hc Hd q v.
  assert (Hq : 0 < q).
  { apply Rdiv_lt_0_compat; now apply Rmult_lt_0_compat. }
  assert (Hv : 0 < v).
  { assert (0 < 1 / a t) by (apply Rdiv_lt_0_compat; lra).
    assert (0 < 1 / b t) by (apply Rdiv_lt_0_compat; lra).
    assert (0 < 1 / c t) by (apply Rdiv_lt_0_compat; lra).
    assert (0 < 1 / d t) by (apply Rdiv_lt_0_compat; lra).
    unfold v. lra. }
  split; [| tauto].
  unfold computeROR_CI. cbn. guards. cbn.
  rewrite (fdiv_ok (a t * d t)) by (apply Rmult_integral_contrapositive; lra).
  cbn. fold q. rewrite (Math_log_ok q Hq). cbn.
  rewrite !fdiv_ok by lra. cbn. fold v.
  rewrite (Math_sqrt_ok v) by lra. reflexivity.
Qed.

Lemma computeROR_CI_degenerate (t : ContingencyTable) :
  a t = 0 \/ b t = 0 \/ c t = 0 \/ d t = 0 ->
  computeROR_CI t = Some (mkInterval 0 0, []).
Proof.
  intros H. unfold computeROR_CI. cbn.
  destruct H as [H | [H | [H | H]]]; rewrite (num_eqb_true _ _ H); cbn;
    rewrite ?orb_true_r; reflexivity.
Qed.

Lemma computeIC_eq (t : ContingencyTable) :
  counts t -> a t <> 0 ->
  let expected := (a t + b t) * (a t + c t) / (a t + b t + c t + d t) in
  computeIC t = Some (ln (a t / expected) / ln 2, [a t / expected])
  /\ 0 < a t / expected.
Proof.
  intros (Ha & Hb & Hc & Hd) Ha0 expected.
  assert (He : 0 < expected).
  { apply Rdiv_lt_0_compat; [apply Rmult_lt_0_compat |]; lra. }
  assert (Hq : 0 < a t / expected) by (apply Rdiv_lt_0_compat; lra).
  split; [| assumption].
  unfold computeIC. cbn. guards. cbn.
  rewrite fdiv_ok by lra. cbn. fold expected. guards.
  rewrite fdiv_ok by lra. cbn.
  now rewrite (Math_log2_ok _ Hq).
Qed.

Lemma computeIC_degenerate (t : ContingencyTable) :
  a t = 0 \/ a t + b t = 0 \/ a t + c t = 0 -> computeIC t = Some (0, []).
Proof.
  intros H. unfold computeIC. cbn.
  destruct H as [H | [H | H]]; rewrite (num_eqb_true _ _ H); cbn;
    rewrite ?orb_true_r; reflexivity.
Qed.

Lemma ln2_pos : 0 < ln 2.
Proof. rewrite <- ln_1. apply ln_increasing; lra. Qed.

(** The standard error shared by [computeIC025] and [computeIC975]. *)
Lemma ic_se_ok (x : R) :
  0 < x ->
  0 < Rmax x 0.5 /\ 0 < sqrt (Rmax x 0.5) /\
  Math_LN2 * sqrt (Rmax x 0.5) <> 0.
Proof.
  intros Hx.
  assert (H1 : 0 < Rmax x 0.5).
  { apply Rlt_le_trans with 0.5; [lra | apply Rmax_r]. }
  assert (H2 : 0 < sqrt (Rmax x 0.5)) by now apply sqrt_lt_R0.
  repeat split; try assumption.
  apply Rmult_integral_contrapositive. unfold Math_LN2.
  pose proof ln2_pos. lra.
Qed.

Lemma computeIC025_eq (t : ContingencyTable) (v : R) (l : list R) :
  computeIC t = Some (v, l) -> 0 < a t ->
  computeIC025 t =
    Some (v - 1.96 * (1 / (Math_LN2 * sqrt (Rmax (a t) 0.5))),
          l ++ [Rmax (a t) 0.5]).
Proof.
  intros Hic Ha. destruct (ic_se_ok _ Ha) as (H1 & H2 & H3).
  unfold computeIC025. rewrite Hic. cbn. guards.
  rewrite Math_sqrt_ok by lra. cbn.
  rewrite fdiv_ok by assumption. reflexivity.
Qed.

Lemma computeIC975_eq (t : ContingencyTable) (v : R) (l : list R) :
  computeIC t = Some (v, l) -> 0 < a t ->
  computeIC975 t =
    Some (v + 1.96 * (1 / (Math_LN2 * sqrt (Rmax (a t) 0.5))),
          l ++ [Rmax (a t) 0.5]).
Proof.
  intros Hic Ha. destruct (ic_se_ok _ Ha) as (H1 & H2 & H3).
  unfold computeIC975. rewrite Hic. cbn. guards.
  rewrite Math_sqrt_ok by lra. cbn.
  rewrite fdiv_ok by assumption. reflexivity.
Qed.

(** [normalCDF] never divides by zero: its denominator is at least 1. *)
Lemma normalCDF_total (x : R) : exists v, normalCDF x = Some (v, []).
Proof.
  unfold normalCDF.
  destruct (x <? -8); [now eexists |].
  destruct (x >? 8); [now eexists |].
  cbv zeta. rewrite fdiv_ok.
  - cbn. now eexists.
  - pose proof (Rabs_pos x). nra.
Qed.

Lemma chi2PValue1df_degenerate (chi2 : R) :
  chi2 <= 0 -> chi2PValue1df chi2 = Some (1, []).
Proof. intros H. unfold chi2PValue1df. now rewrite num_leb_true. Qed.

Lemma chi2PValue1df_total (chi2 : R) :
  0 < chi2 -> exists v, chi2PValue1df chi2 = Some (v, [chi2]).
Proof.
  intros H. unfold chi2PValue1df. rewrite num_leb_false by assumption.
  rewrite Math_sqrt_ok by lra. cbn.
  destruct (normalCDF_total (sqrt chi2)) as [v ->]. cbn. now eexists.
Qed.

(* ================================================================= *)
(** ** Metric calculators *)

Lemma guarded_nolog {A : Type} (v : A) : guarded (Some (v, [])).
Proof. split; [now eexists | constructor]. Qed.

Lemma nonzero_marginals_denom (t : ContingencyTable) :
  nonzero_marginals t ->
  (a t + b t) * (c t + d t) * (a t + c t) * (b t + d t) <> 0.
Proof.
  intros (H1 & H2 & H3 & H4).
  repeat apply Rmult_integral_contrapositive_currified; assumption.
Qed.

(** C1 (as amended).  For every table of counts whose four marginal totals
    are nonzero, [computeChi2] returns
    (ad - bc)^2 * N / ((a+b)(c+d)(a+c)(b+d)) and [computeIC] returns
    log2 (a / expected) with expected = (a+b)(a+c) / N (0 when a = 0), where
    N is recomputed as a + b + c + d; the supplied [n] field is never read,
    so changing it changes neither result. *)
Theorem chi2_ic_use_recomputed_total (t : ContingencyTable) :
  counts t -> nonzero_marginals t ->
  let N := a t + b t + c t + d t in
  let expected := (a t + b t) * (a t + c t) / N in
  value (computeChi2 t)
    = Some ((a t * d t - b t * c t) ^ 2 * N
            / ((a t + b t) * (c t + d t) * (a t + c t) * (b t + d t)))
  /\ value (computeIC t)
    = Some (if a t === 0 then 0 else ln (a t / expected) / ln 2)
  /\ forall n' : R,
       computeChi2 (with_n t n') = computeChi2 t
       /\ computeIC (with_n t n') = computeIC t.
Proof.
  intros Hc Hm N expected. split; [| split].
  - now rewrite (computeChi2_eq t (nonzero_marginals_denom t Hm)).
  - destruct (Req_dec_T (a t) 0) as [H0 | H0].
    + rewrite (num_eqb_true _ _ H0).
      rewrite computeIC_degenerate by now left. reflexivity.
    + rewrite (num_eqb_false _ _ H0).
      destruct (computeIC_eq t Hc H0) as [-> _]. reflexivity.
  - intros n'. split; reflexivity.
Qed.

Lemma chi2_ic_use_recomputed_total_witness :
  let t := mkTable 1 2 3 4 100 in
  value (computeChi2 t) = Some ((1 * 4 - 2 * 3) ^ 2 * (1 + 2 + 3 + 4)
                                / ((1 + 2) * (3 + 4) * (1 + 3) * (2 + 4))).
Proof.
  intros t.
  refine (proj1 (chi2_ic_use_recomputed_total t _ _)).
  - unfold counts; cbn; lra.
  - unfold nonzero_marginals; cbn; lra.
Defined.

(** C1 (as stated) fails: on the table {a:1, b:2, c:3, d:4, n:100}, whose
    marginal totals are nonzero and whose [n] is not a+b+c+d, neither
    [computeChi2] nor [computeIC] follows the supplied [n]. *)
Lemma supplied_n_not_used :
  let t := mkTable 1 2 3 4 100 in
  counts t /\ nonzero_marginals t /\ n t <> a t + b t + c t + d t
  /\ value (computeChi2 t)
     <> Some ((a t * d t - b t * c t) ^ 2 * n t
              / ((a t + b t) * (c t + d t) * (a t + c t) * (b t + d t)))
  /\ value (computeIC t)
     <> Some (ln (a t / ((a t + b t) * (a t + c t) / n t)) / ln 2).
Proof.
  intros t.
  assert (Hc : counts t) by (unfold counts; cbn; lra).
  assert (Hm : nonzero_marginals t) by (unfold nonzero_marginals; cbn; lra).
  split; [assumption |]. split; [assumption |]. split; [cbn; lra |].
  split.
  - rewrite (computeChi2_eq t (nonzero_marginals_denom t Hm)). cbn.
    intros H. injection H. lra.
  - destruct (computeIC_eq t Hc) as [-> _]; [cbn; lra |]. cbn.
    intros H. injection H as H. pose proof ln2_pos as H2.
    apply (Rmult_eq_reg_r (/ ln 2)) in H;
      [| apply Rinv_neq_0_compat; lra].
    apply ln_inv in H; lra.
Qed.

(** [guarded] for the calculators, one at a time. *)

Lemma computePRR_guarded (t : ContingencyTable) : guarded (computePRR t).
Proof.
  destruct (Req_dec_T (a t + b t) 0) as [H1 | H1];
    [rewrite computePRR_degenerate by tauto; apply guarded_nolog |].
  destruct (Req_dec_T (c t + d t) 0) as [H2 | H2];
    [rewrite computePRR_degenerate by tauto; apply guarded_nolog |].
  destruct (Req_dec_T (c t) 0) as [H3 | H3];
    [rewrite computePRR_degenerate by tauto; apply guarded_nolog |].
  rewrite computePRR_eq by assumption. apply guarded_nolog.
Qed.

Lemma computeChi2_guarded (t : ContingencyTable) : guarded (computeChi2 t).
Proof.
  destruct
    (Req_dec_T ((a t + b t) * (c t + d t) * (a t + c t) * (b t + d t)) 0)
    as [H | H].
  - rewrite computeChi2_degenerate by assumption. apply guarded_nolog.
  - rewrite computeChi2_eq by assumption. apply guarded_nolog.
Qed.

Lemma chi2PValue1df_guarded (chi2 : R) : guarded (chi2PValue1df chi2).
Proof.
  destruct (Rle_dec chi2 0) as [H | H].
  - rewrite chi2PValue1df_degenerate by assumption. apply guarded_nolog.
  - destruct (chi2PValue1df_total chi2) as [v ->]; [lra |].
    split; [now eexists |]. cbn. repeat constructor. lra.
Qed.

Lemma computeROR_guarded (t : ContingencyTable) : guarded (computeROR t).
Proof.
  destruct (Req_dec_T (b t) 0) as [H1 | H1];
    [rewrite computeROR_degenerate by tauto; apply guarded_nolog |].
  destruct (Req_dec_T (c t) 0) as [H2 | H2];
    [rewrite computeROR_degenerate by tauto; apply guarded_nolog |].
  rewrite computeROR_eq by assumption. apply guarded_nolog.
Qed.

Lemma computeROR_CI_guarded (t : ContingencyTable) :
  counts t -> guarded (computeROR_CI t).
Proof.
  intros (Ha & Hb & Hc & Hd).
  destruct (Req_dec_T (a t) 0) as [H1 | H1];
    [rewrite computeROR_CI_degenerate by tauto; apply guarded_nolog |].
  destruct (Req_dec_T (b t) 0) as [H2 | H2];
    [rewrite computeROR_CI_degenerate by tauto; apply guarded_nolog |].
  destruct (Req_dec_T (c t) 0) as [H3 | H3];
    [rewrite computeROR_CI_degenerate by tauto; apply guarded_nolog |].
  destruct (Req_dec_T (d t) 0) as [H4 | H4];
    [rewrite computeROR_CI_degenerate by tauto; apply guarded_nolog |].
  destruct (computeROR_CI_eq t) as (-> & Hq & Hv); try lra.
  split; [now eexists |]. cbn. repeat constructor; assumption.
Qed.

Lemma computeIC_guarded (t : ContingencyTable) :
  counts t -> guarded (computeIC t).
Proof.
  intros Hc.
  destruct (Req_dec_T (a t) 0) as [H1 | H1];
    [rewrite computeIC_degenerate by tauto; apply guarded_nolog |].
  destruct (computeIC_eq t Hc H1) as (-> & Hq).
  split; [now eexists |]. cbn. repeat constructor; assumption.
Qed.

Lemma computeIC025_guarded (t : ContingencyTable) :
  counts t -> guarded (computeIC025 t).
Proof.
  intros Hc. destruct (computeIC_guarded t Hc) as [[[v l] Hv] Hl].
  rewrite Hv in Hl. cbn in Hl.
  destruct (Rle_dec (a t) 0) as [H | H].
  - unfold computeIC025. rewrite Hv. cbn. rewrite num_leb_true by assumption.
    cbn. rewrite app_nil_r. split; [now eexists | exact Hl].
  - rewrite (computeIC025_eq t v l Hv) by lra.
    split; [now eexists |]. cbn. apply Forall_app. split; [exact Hl |].
    repeat constructor. apply ic_se_ok. lra.
Qed.

Lemma computeIC975_guarded (t : ContingencyTable) :
  counts t -> guarded (computeIC975 t).
Proof.
  intros Hc. destruct (computeIC_guarded t Hc) as [[[v l] Hv] Hl].
  rewrite Hv in Hl. cbn in Hl.
  destruct (Rle_dec (a t) 0) as [H | H].
  - unfold computeIC975. rewrite Hv. cbn. rewrite num_leb_true by assumption.
    cbn. rewrite app_nil_r. split; [now eexists | exact Hl].
  - rewrite (computeIC975_eq t v l Hv) by lra.
    split; [now eexists |]. cbn. apply Forall_app. split; [exact Hl |].
    repeat constructor. apply ic_se_ok. lra.
Qed.

(* ================================================================= *)
(** ** Score assembler *)

#[local] Arguments computePRR : simpl never.
#[local] Arguments computeChi2 : simpl never.
#[local] Arguments chi2PValue1df : simpl never.
#[local] Arguments computeROR : simpl never.
#[local] Arguments computeROR_CI : simpl never.
#[local] Arguments computeIC : simpl never.
#[local] Arguments computeIC025 : simpl never.
#[local] Arguments computeIC975 : simpl never.

(** On a table with four positive cells no calculator is degenerate, and
    the assembled score is made of the closed forms. *)
Lemma computeDisproportionality_positive
    (r : string) (cnt : R) (t : ContingencyTable) :
  0 < a t -> 0 < b t -> 0 < c t -> 0 < d t ->
  let PRR := a t / (a t + b t) / (c t / (c t + d t)) in
  let CHI := (a t * d t - b t * c t) ^ 2 * (a t + b t + c t + d t)
             / ((a t + b t) * (c t + d t) * (a t + c t) * (b t + d t)) in
  let q := a t * d t / (b t * c t) in
  let se := sqrt (1 / a t + 1 / b t + 1 / c t + 1 / d t) in
  let IC := ln (a t / ((a t + b t) * (a t + c t)
                       / (a t + b t + c t + d t))) / ln 2 in
  let se' := 1 / (Math_LN2 * sqrt (Rmax (a t) 0.5)) in
  exists (pv : R) (log : list R),
    computeDisproportionality r cnt t =
      Some ({| reaction := r; count := cnt; table := t;
               prr := PRR; prrChi2 := CHI; prrPValue := pv;
               ror := q;
               rorLower95 := exp (ln q - 1.96 * se);
               rorUpper95 := exp (ln q + 1.96 * se);
               ic := IC; ic025 := IC - 1.96 * se'; ic975 := IC + 1.96 * se';
               isSignal := (PRR >=? 2) && (CHI >=? 4) && (a t >=? 3);
               isStrongSignal :=
                 (exp (ln q - 1.96 * se) >? 1) && (IC - 1.96 * se' >? 0);
               fdrPValue := None |}, log).
Proof.
  intros Ha Hb Hc Hd PRR CHI q se IC se'.
  assert (Hcnt : counts t) by (unfold counts; lra).
  assert (Hm : nonzero_marginals t) by (unfold nonzero_marginals; lra).
  unfold computeDisproportionality.
  rewrite computePRR_eq by lra. rewrite bind_Some. cbv beta.
  rewrite (computeChi2_eq t (nonzero_marginals_denom t Hm)).
  rewrite bind_Some. cbv beta. fold PRR CHI.
  destruct (chi2PValue1df_guarded CHI) as [[[pv l] ->] _].
  rewrite bind_Some. cbv beta.
  rewrite computeROR_eq by lra. rewrite bind_Some. cbv beta.
  destruct (computeROR_CI_eq t Ha Hb Hc Hd) as (-> & _).
  rewrite bind_Some. cbv beta.
  destruct (computeIC_eq t Hcnt) as (Hic & _); [lra |].
  rewrite Hic, bind_Some. cbv beta.
  rewrite (computeIC025_eq t _ _ Hic Ha), bind_Some. cbv beta.
  rewrite (computeIC975_eq t _ _ Hic Ha), bind_Some.
  unfold ret. cbv beta iota zeta. now do 2 eexists.
Qed.

Lemma exp1_lt_ln (x : R) : 3 < x -> 1 < ln x.
Proof.
  intros H. rewrite <- (ln_exp 1) at 1.
  pose proof exp_le_3. apply ln_increasing; [apply exp_pos | lra].
Qed.

Lemma example_score :
  exists (s : DisproportionalityScore) (log : list R),
    computeDisproportionality "NAUSEA" 150 example_table = Some (s, log)
    /\ prr s = 9.95 /\ isSignal s = true /\ isStrongSignal s = true.
Proof.
  destruct (computeDisproportionality_positive "NAUSEA" 150 example_table)
    as (pv & log & ->); try (cbn; lra).
  do 2 eexists. split; [reflexivity |]. cbn.
  assert (Hprr : 150 / (150 + 4850) / (3000 / (3000 + 992000)) = 9.95)
    by lra.
  split; [exact Hprr |]. split.
  - rewrite Hprr. guards. reflexivity.
  - set (q := 150 * 992000 / (4850 * 3000)).
    set (v := 1 / 150 + 1 / 4850 + 1 / 3000 + 1 / 992000).
    set (q2 := 150 / ((150 + 4850) * (150 + 3000)
                      / (150 + 4850 + 3000 + 992000))).
    assert (Hq : 1 < ln q) by (apply exp1_lt_ln; unfold q; lra).
    assert (Hq2 : 1 < ln q2) by (apply exp1_lt_ln; unfold q2; lra).
    assert (Hv : sqrt v < 0.5).
    { rewrite <- (sqrt_square 0.5) by lra.
      apply sqrt_lt_1; unfold v; lra. }
    assert (Hmax : Rmax 150 0.5 = 150) by (apply Rmax_left; lra).
    assert (Hs : 2 < sqrt 150).
    { rewrite <- (sqrt_square 2) by lra. apply sqrt_lt_1; lra. }
    rewrite Hmax. pose proof ln2_pos as H2. unfold Math_LN2.
    rewrite num_ltb_true.
    + rewrite num_ltb_true; [reflexivity |].
      replace (ln q2 / ln 2 - 1.96 * (1 / (ln 2 * sqrt 150)))
        with ((ln q2 * sqrt 150 - 1.96) / (ln 2 * sqrt 150))
        by (field; lra).
      apply Rdiv_lt_0_compat; nra.
    + rewrite <- exp_0. apply exp_increasing. lra.
Qed.

(** C2 (as amended).  For the table {a:150, b:4850, c:3000, d:992000,
    n:1000000}, [computeDisproportionality] returns a score with
    prr = 9.95, isSignal = true and isStrongSignal = true. *)
Theorem known_answer_example :
  let r := value (computeDisproportionality "NAUSEA" 150 example_table) in
  prr <$> r = Some 9.95
  /\ isSignal <$> r = Some true
  /\ isStrongSignal <$> r = Some true.
Proof.
  destruct example_score as (s & log & Hs & H1 & H2 & H3).
  intros r. subst r. rewrite Hs. cbn. now rewrite H1, H2, H3.
Qed.

(** C2 (as stated) fails: the PRR of the example table is not 10. *)
Lemma known_answer_prr_is_not_10 :
  prr <$> value (computeDisproportionality "NAUSEA" 150 example_table)
  <> Some 10.
Proof.
  destruct example_score as (s & log & -> & Hprr & _).
  cbn. rewrite Hprr. intros H. injection H. lra.
Qed.

(* ================================================================= *)
(** ** The raw p-value of an assembled score is a probability *)

(** The polynomial of the normal-CDF approximation, times [t], stays in
    [0, 1] on [0, 1]: with f its value, 1 - f(t) = (1 - t) g(t) + 1e-9 for a
    polynomial g that is non-negative there. *)
Lemma normalCDF_poly_bounds (t : R) :
  0 <= t <= 1 ->
  0 <= ((((1.061405429 * t + -1.453152027) * t + 1.421413741) * t
          + -0.284496736) * t + 0.254829592) * t <= 1.
Proof.
  intros [H0 H1].
  assert (Hq : 0.9 <= (1.061405429 * t + -1.453152027) * t + 1.421413741).
  { pose proof (pow2_ge_0 (t - 0.6845)). nra. }
  assert (Hh : 0 <= ((1.061405429 * t + -1.453152027) * t + 1.421413741)
                    * t * t + -0.284496736 * t + 0.254829592).
  { pose proof (pow2_ge_0 (t - 0.158)).
    assert (0.9 * (t * t)
            <= ((1.061405429 * t + -1.453152027) * t + 1.421413741)
               * (t * t))
      by (apply Rmult_le_compat_r; nra).
    nra. }
  split.
  - replace (((((1.061405429 * t + -1.453152027) * t + 1.421413741) * t
                + -0.284496736) * t + 0.254829592) * t)
      with ((((1.061405429 * t + -1.453152027) * t + 1.421413741) * t * t
              + -0.284496736 * t + 0.254829592) * t) by ring.
    now apply Rmult_le_pos.
  - set (g := 0.999999999 + 0.745170407 * t
              + (1.029667143 + -0.391746598 * t) * (t * t)
              + 1.061405429 * (t * t * (t * t))).
    assert (Hg : 0 <= g).
    { assert (0 <= (1.029667143 + -0.391746598 * t) * (t * t))
        by (apply Rmult_le_pos; nra).
      assert (0 <= t * t * (t * t)) by (apply Rmult_le_pos; nra).
      unfold g. nra. }
    assert (Hfac :
      1 - ((((1.061405429 * t + -1.453152027) * t + 1.421413741) * t
             + -0.284496736) * t + 0.254829592) * t
      = (1 - t) * g + 0.000000001) by (unfold g; nra).
    assert (0 <= (1 - t) * g) by (apply Rmult_le_pos; lra).
    lra.
Qed.

Lemma chi2PValue1df_range (chi2 : R) :
  exists (v : R) (l : list R),
    chi2PValue1df chi2 = Some (v, l) /\ 0 <= v <= 1.
Proof.
  destruct (Rle_dec chi2 0) as [Hle | Hgt].
  - rewrite chi2PValue1df_degenerate by assumption.
    do 2 eexists. split; [reflexivity | lra].
  - assert (Hs : 0 < sqrt chi2) by (apply sqrt_lt_R0; lra).
    unfold chi2PValue1df. rewrite num_leb_false by lra.
    rewrite Math_sqrt_ok by lra. rewrite bind_Some. cbv beta.
    set (s := sqrt chi2) in *. unfold normalCDF.
    rewrite (num_ltb_false s (-8)) by lra.
    destruct (Rlt_dec 8 s) as [H8 | H8].
    + rewrite (num_ltb_true 8 s) by assumption. cbn.
      do 2 eexists. split; [reflexivity | lra].
    + rewrite (num_ltb_false 8 s) by lra. cbv zeta.
      rewrite (num_ltb_false s 0) by lra.
      rewrite (Rabs_pos_eq s) by lra.
      rewrite fdiv_ok by nra. rewrite !bind_Some. cbv beta. unfold ret.
      do 2 eexists. split; [reflexivity |].
      set (t := 1 / (1 + 0.3275911 * s)).
      set (E := exp (- s * s / 2)).
      assert (Ht : 0 <= t <= 1).
      { unfold t. split.
        - apply Rlt_le, Rdiv_lt_0_compat; nra.
        - apply (Rmult_le_reg_r (1 + 0.3275911 * s)); [nra |].
          unfold Rdiv. rewrite Rmult_assoc, Rinv_l by nra. nra. }
      assert (HE : 0 < E <= 1).
      { unfold E. split; [apply exp_pos |].
        rewrite <- exp_0. left. apply exp_increasing. nra. }
      pose proof (normalCDF_poly_bounds t Ht) as [Hf0 Hf1].
      set (f := ((((1.061405429 * t + -1.453152027) * t + 1.421413741) * t
                   + -0.284496736) * t + 0.254829592) * t) in *.
      assert (0 <= f * E) by (apply Rmult_le_pos; lra).
      assert (f * E <= 1) by nra.
      lra.
Qed.

Lemma bind_inv {A B : Type} (m : calc A) (k : A -> calc B)
    (y : B) (l : list R) :
  bind m k = Some (y, l) ->
  exists x l1 l2, m = Some (x, l1) /\ k x = Some (y, l2) /\ l = l1 ++ l2.
Proof.
  unfold bind. destruct m as [[x l1] |]; [| discriminate].
  destruct (k x) as [[y' l2] |] eqn:Hk; [| discriminate].
  intros H. injection H as <- <-. now exists x, l1, l2.
Qed.

(** Every score assembled by [computeDisproportionality] carries a raw
    p-value between 0 and 1. *)
Lemma assembled_pvalue_range
    (r : string) (cnt : R) (t : ContingencyTable)
    (s : DisproportionalityScore) (log : list R) :
  computeDisproportionality r cnt t = Some (s, log) ->
  0 <= prrPValue s <= 1.
Proof.
  unfold computeDisproportionality. intros H.
  apply bind_inv in H as (vprr & ? & ? & _ & H & _).
  apply bind_inv in H as (vchi & ? & ? & _ & H & _).
  apply bind_inv in H as (pv & ? & ? & Hpv & H & _).
  apply bind_inv in H as (vror & ? & ? & _ & H & _).
  apply bind_inv in H as (ci & ? & ? & _ & H & _).
  apply bind_inv in H as (vic & ? & ? & _ & H & _).
  apply bind_inv in H as (v025 & ? & ? & _ & H & _).
  apply bind_inv in H as (v975 & ? & ? & _ & H & _).
  unfold ret in H. injection H as <- _. cbn.
  destruct (chi2PValue1df_range vchi) as (v & l & Hv & Hrange).
  rewrite Hv in Hpv. now injection Hpv as <- _.
Qed.

(* ================================================================= *)
(** ** Sorting *)

Section Sorting.
Context {A : Type} (cmp : A -> A -> R).

Lemma sort_insert_perm (x : A) (l : list A) :
  Permutation (sort_insert cmp x l) (x :: l).
Proof.
  induction l as [| y l IH]; cbn; [reflexivity |].
  destruct (cmp x y >? 0); [| reflexivity].
  rewrite IH. apply perm_swap.
Qed.

Lemma Array_sort_perm (l : list A) : Permutation (Array_sort cmp l) l.
Proof.
  induction l as [| x l IH]; cbn; [reflexivity |].
  rewrite sort_insert_perm. now apply perm_skip.
Qed.

Lemma Array_sort_length (l : list A) :
  length (Array_sort cmp l) = length l.
Proof. apply Permutation_length, Array_sort_perm. Qed.

(** Sorting looks at the elements through the comparator only. *)
Lemma sort_insert_map {B : Type} (cmp' : B -> B -> R) (f : A -> B) :
  (forall x y, cmp' (f x) (f y) = cmp x y) ->
  forall x l,
    sort_insert cmp' (f x) (f <$> l) = f <$> sort_insert cmp x l.
Proof.
  intros Hf x l. induction l as [| y l IH]; cbn; [reflexivity |].
  rewrite Hf. destruct (cmp x y >? 0); cbn; [now rewrite IH | reflexivity].
Qed.

Lemma Array_sort_map {B : Type} (cmp' : B -> B -> R) (f : A -> B) :
  (forall x y, cmp' (f x) (f y) = cmp x y) ->
  forall l, Array_sort cmp' (f <$> l) = f <$> Array_sort cmp l.
Proof.
  intros Hf l. induction l as [| x l IH]; cbn; [reflexivity |].
  rewrite IH. now apply sort_insert_map.
Qed.

(** With a comparator that subtracts keys the result is in ascending
    order of the key. *)
Variable key : A -> R.
Hypothesis cmp_key : forall x y, cmp x y = key x - key y.

Lemma sort_insert_sorted (x : A) (l : list A) :
  StronglySorted (fun u v => key u <= key v) l ->
  StronglySorted (fun u v => key u <= key v) (sort_insert cmp x l).
Proof.
  induction 1 as [| y l Hl IH Hy]; cbn; [repeat constructor |].
  unfold num_ltb. rewrite cmp_key.
  destruct (Rlt_dec 0 (key x - key y)) as [Hlt | Hge].
  - constructor; [exact IH |].
    eapply Permutation_Forall; [symmetry; apply sort_insert_perm |].
    constructor; [lra | exact Hy].
  - constructor; [now constructor |].
    constructor; [lra |].
    eapply Forall_impl; [exact Hy |]. cbn. intros z Hz. lra.
Qed.

Lemma Array_sort_sorted (l : list A) :
  StronglySorted (fun u v => key u <= key v) (Array_sort cmp l).
Proof.
  induction l as [| x l IH]; cbn; [constructor |].
  now apply sort_insert_sorted.
Qed.
End Sorting.

(* ================================================================= *)
(** ** Batch FDR corrector *)

Section Walk.
Variables (indexed : list Indexed) (m : nat).

Lemma cum_min_top (rank : nat) (c : R) (k : nat) :
  (rank <= k)%nat -> cum_min indexed m rank c k = c.
Proof.
  intros H. destruct rank as [| r]; cbn; [reflexivity |].
  destruct (Nat.leb_spec k r); [lia | reflexivity].
Qed.

Lemma cum_min_step (rank : nat) (c : R) (k : nat) (item : Indexed) :
  (rank <= length indexed)%nat -> (k < rank)%nat ->
  indexed !! k = Some item ->
  cum_min indexed m rank c k
    = Rmin (cum_min indexed m rank c (S k)) (p item * INR m / INR (S k)).
Proof.
  revert c. induction rank as [| r IH]; intros c Hlen Hk Hit; [lia |].
  cbn [cum_min]. destruct (Nat.leb_spec k r) as [_ |]; [| lia].
  destruct (indexed !! r) as [it |] eqn:Hr;
    [| apply lookup_ge_None in Hr; lia].
  destruct (Nat.leb_spec (S k) r) as [Hlt | Hge].
  - apply IH; [lia | lia | assumption].
  - assert (k = r) by lia. subst k.
    rewrite cum_min_top by lia.
    rewrite Hr in Hit. now injection Hit as ->.
Qed.

(** The running minimum never decreases along the sorted order. *)
Lemma cum_min_mono (rank : nat) (c : R) (k k' : nat) :
  (rank <= length indexed)%nat -> (k <= k')%nat ->
  cum_min indexed m rank c k <= cum_min indexed m rank c k'.
Proof.
  intros Hlen. induction 1 as [| k' Hle IH]; [lra |].
  eapply Rle_trans; [exact IH |].
  destruct (Nat.lt_ge_cases k' rank) as [Hlt | Hge].
  - destruct (indexed !! k') as [it |] eqn:Hit;
      [| apply lookup_ge_None in Hit; lia].
    rewrite (cum_min_step rank c k' it) by assumption. apply Rmin_l.
  - rewrite !cum_min_top by lia. lra.
Qed.

(** What the walk leaves in [adjusted]. *)
Lemma bh_walk_spec (rank : nat) (c : R) (adjusted : list (option R)) :
  (rank <= length indexed)%nat ->
  NoDup (idx <$> indexed) ->
  (forall item, item ∈ indexed -> (idx item < length adjusted)%nat) ->
  exists adj' : list (option R),
    bh_walk indexed m rank c adjusted = Some adj'
    /\ length adj' = length adjusted
    /\ (forall i, i ∉ idx <$> take rank indexed ->
          adj' !! i = adjusted !! i)
    /\ (forall k item, (k < rank)%nat -> indexed !! k = Some item ->
          adj' !! idx item
            = Some (Some (Rmin (cum_min indexed m rank c k) 1))).
Proof.
  intros Hlen Hnd Hidx. revert c adjusted Hidx.
  induction rank as [| r IH]; intros c adjusted Hidx.
  - exists adjusted. cbn. repeat split; intros; (reflexivity || lia).
  - cbn [bh_walk].
    destruct (indexed !! r) as [item |] eqn:Hr;
      [| apply lookup_ge_None in Hr; lia].
    set (c' := Rmin c (p item * INR m / INR (S r))).
    destruct (IH ltac:(lia) c' (<[idx item := Some (Rmin c' 1)]> adjusted))
      as (adj' & Hrun & Hl & Hframe & Hval).
    { intros it Hit. rewrite length_insert. now apply Hidx. }
    exists adj'. split; [exact Hrun |].
    rewrite length_insert in Hl. split; [exact Hl |].
    assert (Hfresh : idx item ∉ idx <$> take r indexed).
    { rewrite <- (take_drop_middle indexed r item Hr) in Hnd.
      rewrite fmap_app in Hnd. cbn in Hnd.
      apply NoDup_app in Hnd as (_ & Hnd & _).
      intros Hin. apply (Hnd _ Hin). now left. }
    split.
    + intros i Hi. rewrite (take_S_r _ _ _ Hr), fmap_app in Hi. cbn in Hi.
      rewrite Hframe by (intros Hin; apply Hi, elem_of_app; now left).
      apply list_lookup_insert_ne. intros Heq. subst i.
      apply Hi, elem_of_app. right. now left.
    + intros k it Hk Hit. cbn [cum_min].
      destruct (Nat.leb_spec k r) as [_ |]; [| lia]. rewrite Hr.
      fold c'. destruct (Nat.eq_dec k r) as [-> | Hne].
      * rewrite Hr in Hit. injection Hit as <-.
        rewrite cum_min_top by lia. rewrite (Hframe _ Hfresh).
        apply list_lookup_insert_eq. apply Hidx.
        eapply list_elem_of_lookup_2. exact Hr.
      * apply Hval; [lia | assumption].
Qed.
End Walk.

(** The sortable array before it is sorted, and after. *)
Lemma indexed_idx (scores : list DisproportionalityScore) :
  idx <$> imap (fun i s => mkIndexed i (prrPValue s)) scores
  = seq 0 (length scores).
Proof.
  apply list_eq. intros i. rewrite list_lookup_fmap, list_lookup_imap.
  destruct (scores !! i) as [s |] eqn:Hi; cbn.
  - apply lookup_lt_Some in Hi. now rewrite lookup_seq_lt.
  - apply lookup_ge_None in Hi. now rewrite lookup_seq_ge.
Qed.

Lemma sorted_idx_perm (scores : list DisproportionalityScore) :
  Permutation
    (idx <$> Array_sort (fun x y => p x - p y)
               (imap (fun i s => mkIndexed i (prrPValue s)) scores))
    (seq 0 (length scores)).
Proof.
  rewrite <- indexed_idx. apply fmap_Permutation, Array_sort_perm.
Qed.

(** The corrector in one equation: it always returns, the result is the
    input with [fdrPValue] read from [adjusted], and [adjusted] holds, at
    the original index of the item of rank [k + 1], the running minimum
    capped at 1. *)
Lemma applyBenjaminiHochberg_spec (scores : list DisproportionalityScore) :
  let m := length scores in
  let indexed :=
    Array_sort (fun x y => p x - p y)
      (imap (fun i s => mkIndexed i (prrPValue s)) scores) in
  exists adjusted : list (option R),
    applyBenjaminiHochberg scores
      = Some (imap (fun i s => with_fdr s (slot adjusted i)) scores)
    /\ forall k item, indexed !! k = Some item ->
         slot adjusted (idx item)
           = Some (Rmin (cum_min indexed m m 1 k) 1).
Proof.
  intros m indexed. unfold applyBenjaminiHochberg.
  destruct (Nat.eqb_spec (length scores) 0) as [H0 | H0].
  - apply length_zero_iff_nil in H0. subst scores. exists []. split.
    + reflexivity.
    + intros k item Hk. unfold indexed in Hk. cbn in Hk.
      now rewrite lookup_nil in Hk.
  - fold m indexed.
    assert (Hlen : length indexed = m).
    { unfold indexed. now rewrite Array_sort_length, length_imap. }
    destruct (bh_walk_spec indexed m m 1 (replicate m None))
      as (adj & -> & _ & _ & Hval).
    + lia.
    + unfold indexed, m. rewrite sorted_idx_perm. apply NoDup_seq.
    + intros item Hin. rewrite length_replicate.
      assert (Hi : idx item ∈ seq 0 (length scores)).
      { rewrite <- (sorted_idx_perm scores).
        now apply list_elem_of_fmap_2. }
      apply elem_of_seq in Hi. lia.
    + exists adj. split; [reflexivity |].
      intros k item Hk. unfold slot.
      rewrite (Hval k item); [reflexivity | | exact Hk].
      apply lookup_lt_Some in Hk. lia.
Qed.

(** Every original index is the index of some rank. *)
Lemma every_index_ranked (scores : list DisproportionalityScore) (i : nat) :
  (i < length scores)%nat ->
  exists k item,
    Array_sort (fun x y => p x - p y)
      (imap (fun i s => mkIndexed i (prrPValue s)) scores) !! k = Some item
    /\ idx item = i.
Proof.
  intros Hi.
  assert (Hin : i ∈ seq 0 (length scores)) by (apply elem_of_seq; lia).
  rewrite <- (sorted_idx_perm scores) in Hin.
  apply list_elem_of_fmap in Hin as (item & -> & Hin).
  apply list_elem_of_lookup_1 in Hin as (k & Hk). eauto.
Qed.

Lemma with_fdr_same (s : DisproportionalityScore) (v : option R) :
  same_but_fdr s (with_fdr s v).
Proof. repeat split. Qed.

(** C4.  For every batch of scores, [applyBenjaminiHochberg] returns a
    collection of the same length and in the same order as the input: the
    element at each index has [fdrPValue] populated and every other field
    (reaction, count, table, all metrics, both classification booleans)
    equal to the field of the input element at that index; applied to an
    empty batch it returns an empty collection. *)
Theorem applyBenjaminiHochberg_frame (scores : list DisproportionalityScore) :
  exists out : list DisproportionalityScore,
    applyBenjaminiHochberg scores = Some out
    /\ length out = length scores
    /\ (forall i s, scores !! i = Some s ->
          exists s', out !! i = Some s'
                     /\ is_Some (fdrPValue s') /\ same_but_fdr s s')
    /\ (scores = [] -> out = []).
Proof.
  destruct (applyBenjaminiHochberg_spec scores) as (adj & -> & Hval).
  eexists. split; [reflexivity |]. split; [apply length_imap |]. split.
  - intros i s Hi. rewrite list_lookup_imap, Hi. cbn.
    eexists. split; [reflexivity |]. split; [| apply with_fdr_same].
    destruct (every_index_ranked scores i) as (k & item & Hk & <-).
    { now apply lookup_lt_Some in Hi. }
    cbn. rewrite (Hval k item Hk). now eexists.
  - now intros ->.
Qed.

(** A batch of one score: the walk makes a single step, with m = 1 and
    rank = 1, and the cap at 1 remains. *)
Lemma applyBenjaminiHochberg_single (s : DisproportionalityScore) :
  applyBenjaminiHochberg [s]
  = Some [with_fdr s (Some (Rmin (prrPValue s) 1))].
Proof.
  unfold applyBenjaminiHochberg. cbn.
  replace (Rmin (Rmin 1 (prrPValue s * 1 / 1)) 1) with (Rmin (prrPValue s) 1);
    [reflexivity |].
  replace (prrPValue s * 1 / 1) with (prrPValue s) by field.
  unfold Rmin. repeat destruct (Rle_dec _ _); lra.
Qed.

(** C7.  Applying [applyBenjaminiHochberg] to a batch of exactly one score
    yields one element whose [fdrPValue] equals that score's [prrPValue],
    the other fields being copied: with m = 1 and rank = 1 the adjusted
    p-value is the raw one, and the cap at 1 does not act on the p-value of
    a score that [computeDisproportionality] has assembled, which is at
    most 1. *)
Theorem single_score_fdr_is_raw
    (r : string) (cnt : R) (t : ContingencyTable)
    (s : DisproportionalityScore) (log : list R) :
  computeDisproportionality r cnt t = Some (s, log) ->
  applyBenjaminiHochberg [s] = Some [with_fdr s (Some (prrPValue s))].
Proof.
  intros H. rewrite applyBenjaminiHochberg_single.
  destruct (assembled_pvalue_range r cnt t s log H) as [_ Hle].
  now rewrite Rmin_left.
Qed.

Lemma single_score_fdr_is_raw_witness :
  exists (s : DisproportionalityScore) (log : list R),
    computeDisproportionality "NAUSEA" 150 example_table = Some (s, log)
    /\ applyBenjaminiHochberg [s] = Some [with_fdr s (Some (prrPValue s))].
Proof.
  destruct example_score as (s & log & H & _).
  exists s, log. split; [exact H |].
  exact (single_score_fdr_is_raw "NAUSEA" 150 example_table s log H).
Defined.

(** A monotone function tabulated over consecutive positions. *)
Lemma Sorted_tabulate (f : nat -> R) (j n : nat) :
  (forall k, f k <= f (S k)) -> Sorted Rle (f <$> seq j n).
Proof.
  intros Hf. revert j. induction n as [| n IH]; intros j; cbn.
  - constructor.
  - constructor; [apply IH |].
    destruct n; cbn; constructor. apply Hf.
Qed.

(** The corrector and the arrangement by p-value use the same order: both
    sort the same positions by the same key. *)
Lemma arrangement_ranks
    (scores : list DisproportionalityScore) (adjusted : list (option R)) :
  let ranked :=
    Array_sort (fun x y => prrPValue x.2 - prrPValue y.2)
      (imap pair scores) in
  by_pvalue (imap (fun i s => with_fdr s (slot adjusted i)) scores)
    = (fun x => with_fdr x.2 (slot adjusted x.1)) <$> ranked
  /\ Array_sort (fun x y => p x - p y)
       (imap (fun i s => mkIndexed i (prrPValue s)) scores)
    = (fun x => mkIndexed x.1 (prrPValue x.2)) <$> ranked.
Proof.
  intros ranked. unfold by_pvalue, ranked. split.
  - rewrite <- (Array_sort_map _ (fun s s' => prrPValue s - prrPValue s')
                  (fun x => with_fdr x.2 (slot adjusted x.1)))
      by reflexivity.
    f_equal. rewrite fmap_imap. now apply imap_ext.
  - rewrite <- (Array_sort_map _ (fun x y => p x - p y)
                  (fun x => mkIndexed x.1 (prrPValue x.2)))
      by reflexivity.
    f_equal. rewrite fmap_imap. now apply imap_ext.
Qed.

(** The corrected values, read in ascending order of raw p-value. *)
Lemma fdr_in_pvalue_order (scores : list DisproportionalityScore) :
  let m := length scores in
  let indexed :=
    Array_sort (fun x y => p x - p y)
      (imap (fun i s => mkIndexed i (prrPValue s)) scores) in
  exists out : list DisproportionalityScore,
    applyBenjaminiHochberg scores = Some out
    /\ fdrPValue <$> by_pvalue out
       = Some <$> ((fun k => Rmin (cum_min indexed m m 1 k) 1) <$> seq 0 m).
Proof.
  intros m indexed.
  destruct (applyBenjaminiHochberg_spec scores) as (adj & -> & Hval).
  fold m indexed in Hval.
  eexists. split; [reflexivity |].
  destruct (arrangement_ranks scores adj) as [-> Hidx].
  fold indexed in Hidx.
  assert (Hlen : length indexed = m).
  { unfold indexed. now rewrite Array_sort_length, length_imap. }
  apply list_eq. intros k.
  rewrite !list_lookup_fmap.
  destruct (Nat.lt_ge_cases k m) as [Hlt | Hge].
  - rewrite lookup_seq_lt by assumption. cbn.
    destruct (indexed !! k) as [item |] eqn:Hk;
      [| apply lookup_ge_None in Hk; lia].
    rewrite <- (Hval k item Hk).
    rewrite Hidx, list_lookup_fmap in Hk.
    destruct (_ !! k) as [x |]; [| discriminate].
    cbn in Hk. injection Hk as <-. reflexivity.
  - rewrite lookup_seq_ge by assumption. cbn.
    rewrite Hidx, length_fmap in Hlen.
    rewrite (proj2 (lookup_ge_None _ k)) by lia. reflexivity.
Qed.

Lemma StronglySorted_lookup {A : Type} (rel : A -> A -> Prop) (l : list A)
    (i j : nat) (x y : A) :
  StronglySorted rel l -> (i < j)%nat ->
  l !! i = Some x -> l !! j = Some y -> rel x y.
Proof.
  intros Hs. revert i j. induction Hs as [| z l Hs IH Hz]; intros i j Hij Hi Hj.
  - now rewrite lookup_nil in Hi.
  - destruct j as [| j]; [lia |]. cbn in Hj.
    destruct i as [| i]; cbn in Hi.
    + injection Hi as <-.
      rewrite Forall_forall in Hz. apply Hz.
      eapply list_elem_of_lookup_2. exact Hj.
    + apply (IH i j); [lia | assumption | assumption].
Qed.

Section Ties.
Variables (indexed : list Indexed) (m : nat).
Hypothesis indexed_sorted :
  StronglySorted (fun u v => p u <= p v) indexed.
Hypothesis indexed_nonneg : forall item, item ∈ indexed -> 0 <= p item.

(** Among items with the same non-negative p-value the raw adjusted
    value [p * m / rank] is largest at the smallest rank, so the running
    minimum is the same at all of them. *)
Lemma cum_min_tie (c : R) (k k' : nat) (item item' : Indexed) :
  (k' <= k)%nat -> (k < length indexed)%nat ->
  indexed !! k = Some item -> indexed !! k' = Some item' ->
  p item <= p item' ->
  cum_min indexed m (length indexed) c k'
    = cum_min indexed m (length indexed) c k.
Proof.
  intros Hle Hk Hit Hit' Hp.
  assert (Hgen : forall gap j, (j + gap = k)%nat -> (k' <= j)%nat ->
            cum_min indexed m (length indexed) c j
              = cum_min indexed m (length indexed) c k).
  { induction gap as [| gap IH]; intros j Hj Hle'.
    - replace j with k by lia. reflexivity.
    - destruct (indexed !! j) as [itj |] eqn:Hitj;
        [| apply lookup_ge_None in Hitj; lia].
      rewrite (cum_min_step indexed m _ c j itj) by (assumption || lia).
      rewrite (IH (S j)) by lia. apply Rmin_left.
      rewrite (cum_min_step indexed m _ c k item) by (assumption || lia).
      eapply Rle_trans; [apply Rmin_r |].
      assert (Hpj : p item' <= p itj).
      { destruct (Nat.eq_dec k' j) as [-> | Hne].
        - rewrite Hit' in Hitj. injection Hitj as ->. lra.
        - apply (StronglySorted_lookup (fun u v => p u <= p v)
                   indexed k' j); auto. lia. }
      assert (H0 : 0 <= p item).
      { apply indexed_nonneg. eapply list_elem_of_lookup_2. exact Hit. }
      assert (Hm : 0 <= INR m) by apply pos_INR.
      assert (Hsj : 0 < INR (S j)) by (apply lt_0_INR; lia).
      assert (Hsk : INR (S j) <= INR (S k)) by (apply le_INR; lia).
      apply Rle_trans with (p item * INR m / INR (S j)).
      + apply Rmult_le_compat_l; [nra |].
        apply Rinv_le_contravar; assumption.
      + apply Rmult_le_compat_r; [| nra].
        left. now apply Rinv_0_lt_compat. }
  apply (Hgen (k - k')%nat); lia.
Qed.

(** The corrected value is monotone in the p-value, ties included. *)
Lemma capped_cum_min_monotone (k k' : nat) (item item' : Indexed) :
  indexed !! k = Some item -> indexed !! k' = Some item' ->
  p item <= p item' ->
  Rmin (cum_min indexed m (length indexed) 1 k) 1
    <= Rmin (cum_min indexed m (length indexed) 1 k') 1.
Proof.
  intros Hit Hit' Hp. apply Rle_min_compat_r.
  destruct (Nat.le_gt_cases k k') as [Hle | Hgt].
  - apply cum_min_mono; [reflexivity | assumption].
  - right. symmetry.
    apply (cum_min_tie 1 k k' item item'); try assumption; [lia |].
    now apply lookup_lt_Some in Hit.
Qed.
End Ties.

(** Each item of the sorted array carries the p-value of the score at its
    original index. *)
Lemma sorted_item_origin
    (scores : list DisproportionalityScore) (item : Indexed) :
  item ∈ Array_sort (fun x y => p x - p y)
           (imap (fun i s => mkIndexed i (prrPValue s)) scores) ->
  exists s, scores !! idx item = Some s /\ p item = prrPValue s.
Proof.
  rewrite Array_sort_perm. intros Hin.
  apply elem_of_lookup_imap_1 in Hin as (i & s & -> & Hi). eauto.
Qed.

(** Each output score sits at some rank; its raw p-value is the key of that
    rank and its corrected p-value the capped running minimum there. *)
Lemma output_rank (scores : list DisproportionalityScore) :
  let m := length scores in
  let indexed :=
    Array_sort (fun x y => p x - p y)
      (imap (fun i s => mkIndexed i (prrPValue s)) scores) in
  exists out : list DisproportionalityScore,
    applyBenjaminiHochberg scores = Some out
    /\ forall x, x ∈ out ->
         exists k item,
           indexed !! k = Some item /\ p item = prrPValue x
           /\ fdrPValue x = Some (Rmin (cum_min indexed m m 1 k) 1).
Proof.
  intros m indexed.
  destruct (applyBenjaminiHochberg_spec scores) as (adj & -> & Hval).
  fold m indexed in Hval. eexists. split; [reflexivity |].
  intros x Hx. apply elem_of_lookup_imap_1 in Hx as (i & s & -> & Hi).
  destruct (every_index_ranked scores i) as (k & item & Hk & Hidx).
  { now apply lookup_lt_Some in Hi. }
  fold indexed in Hk. exists k, item. split; [exact Hk |]. cbn. split.
  - destruct (sorted_item_origin scores item) as (s' & Hs' & ->).
    { eapply list_elem_of_lookup_2. exact Hk. }
    rewrite Hidx, Hi in Hs'. now injection Hs' as <-.
  - rewrite <- Hidx. now apply Hval.
Qed.

(** From a pairwise comparison to a whole arrangement. *)
Lemma nondecreasing_of_pairwise
    (good : DisproportionalityScore -> Prop)
    (arr : list DisproportionalityScore) :
  (forall x y, good x -> good y -> prrPValue x <= prrPValue y ->
     exists u v, fdrPValue x = Some u /\ fdrPValue y = Some v /\ u <= v) ->
  Forall good arr -> ascending_pvalue arr ->
  nondecreasing (fdrPValue <$> arr).
Proof.
  intros Hpair Hgood Hasc.
  induction Hasc as [| x arr Hasc IH Hx]; [exists []; split; constructor |].
  apply Forall_cons in Hgood as [Hgx Hgood].
  destruct (IH Hgood) as (vs & Hvs & Hsorted).
  destruct (Hpair x x Hgx Hgx ltac:(lra)) as (u & _ & Hu & _ & _).
  exists (u :: vs). cbn. rewrite Hvs, Hu. split; [reflexivity |].
  constructor; [exact Hsorted |].
  destruct arr as [| y arr]; destruct vs as [| v vs]; try discriminate;
    constructor.
  cbn in Hvs. injection Hvs as Hy _.
  apply Forall_cons in Hx as [Hxy _]. apply Forall_cons in Hgood as [Hgy _].
  destruct (Hpair x y Hgx Hgy Hxy) as (u' & v' & Hu' & Hv' & Hle).
  congruence.
Qed.

(** C3.  For every batch of scores, [applyBenjaminiHochberg] returns, and
    when the output scores are arranged in ascending order of their raw
    p-value (by the sort the corrector itself uses, which keeps ties in
    their original order) the sequence of [fdrPValue] values is
    non-decreasing.  When no raw p-value is negative, scores with equal raw
    p-values receive equal corrected values, so the same holds for every
    arrangement of the output in ascending order of raw p-value. *)
Theorem fdr_nondecreasing_in_pvalue_order
    (scores : list DisproportionalityScore) :
  exists out : list DisproportionalityScore,
    applyBenjaminiHochberg scores = Some out
    /\ Permutation (by_pvalue out) out
    /\ ascending_pvalue (by_pvalue out)
    /\ nondecreasing (fdrPValue <$> by_pvalue out)
    /\ ((forall s, s ∈ scores -> 0 <= prrPValue s) ->
        forall arr : list DisproportionalityScore,
          Permutation arr out -> ascending_pvalue arr ->
          nondecreasing (fdrPValue <$> arr)).
Proof.
  set (m := length scores).
  set (indexed :=
         Array_sort (fun x y => p x - p y)
           (imap (fun i s => mkIndexed i (prrPValue s)) scores)).
  assert (Hlen : length indexed = m).
  { unfold indexed. now rewrite Array_sort_length, length_imap. }
  destruct (fdr_in_pvalue_order scores) as (out & Hout & Hseq).
  fold m indexed in Hseq.
  exists out. split; [exact Hout |].
  split; [apply Array_sort_perm |].
  split; [now apply (Array_sort_sorted _ prrPValue) |].
  split.
  - eexists. split; [exact Hseq |].
    apply Sorted_tabulate. intros k.
    apply Rle_min_compat_r, cum_min_mono; lia.
  - intros Hnn arr Hperm Hasc.
    destruct (output_rank scores) as (out' & Hout' & Hrank).
    fold m indexed in Hrank.
    rewrite Hout in Hout'. injection Hout' as <-.
    apply (nondecreasing_of_pairwise (fun x => x ∈ out)); [| | exact Hasc].
    + intros x y Hx Hy Hxy.
      destruct (Hrank x Hx) as (k & item & Hk & Hpx & ->).
      destruct (Hrank y Hy) as (k' & item' & Hk' & Hpy & ->).
      do 2 eexists. split; [reflexivity |]. split; [reflexivity |].
      pose proof (capped_cum_min_monotone indexed m) as Hmono.
      rewrite Hlen in Hmono.
      apply Hmono with item item'; try assumption; [| | lra].
      * now apply (Array_sort_sorted _ p).
      * intros it Hit.
        destruct (sorted_item_origin scores it Hit) as (s & Hs & ->).
        apply Hnn. eapply list_elem_of_lookup_2. exact Hs.
    + apply Forall_forall. intros x Hx. now rewrite <- Hperm.
Qed.

(** A batch of three, by hand: sorted p-values 0.01, 0.03, 0.04 give the raw
    adjusted values 0.03, 0.045, 0.04, and the walk from the last rank
    leaves the running minima 0.03, 0.04, 0.04. *)
Example bh_three :
  let batch :=
    [score_with_pvalue 0.04; score_with_pvalue 0.01; score_with_pvalue 0.03] in
  applyBenjaminiHochberg batch
  = Some [with_fdr (score_with_pvalue 0.04) (Some 0.04);
          with_fdr (score_with_pvalue 0.01) (Some 0.03);
          with_fdr (score_with_pvalue 0.03) (Some 0.04)].
Proof.
  unfold applyBenjaminiHochberg. cbn. guards. cbn. guards. cbn.
  repeat match goal with
  | |- context [Rmin ?x ?y] =>
      first [ rewrite (Rmin_left x y) by lra
            | rewrite (Rmin_right x y) by lra ]
  end.
  repeat f_equal; lra.
Qed.

(** Why the second part of C3 asks for non-negative p-values: with the two
    raw p-values -1 and -1 the corrected values are -2 and -1, so tied
    scores differ and only the order kept by the stable sort is
    non-decreasing. *)
Example bh_negative_tie :
  applyBenjaminiHochberg [score_with_pvalue (-1); score_with_pvalue (-1)]
  = Some [with_fdr (score_with_pvalue (-1)) (Some (-2));
          with_fdr (score_with_pvalue (-1)) (Some (-1))].
Proof.
  unfold applyBenjaminiHochberg. cbn. guards. cbn.
  repeat match goal with
  | |- context [Rmin ?x ?y] =>
      first [ rewrite (Rmin_left x y) by lra
            | rewrite (Rmin_right x y) by lra ]
  end.
  repeat f_equal; lra.
Qed.

(* ================================================================= *)
(** ** Time series: changepoints *)

Lemma StronglySorted_snoc (l : list nat) (x : nat) :
  StronglySorted lt l -> Forall (fun y => (y < x)%nat) l ->
  StronglySorted lt (l ++ [x]).
Proof.
  induction 1 as [| y l Hl IH Hy]; intros Hx; cbn.
  - repeat constructor.
  - apply Forall_cons in Hx as [Hyx Hx].
    constructor; [now apply IH |].
    apply Forall_app. split; [exact Hy | now repeat constructor].
Qed.

Section Cusum.
Variables (data : list R) (mean std h : R).

Lemma cusum_step_inv (lo i : nat) (st : Cusum) :
  (lo <= i)%nat -> cusum_inv lo i st ->
  cusum_inv lo (S i) (cusum_step data mean std h st i).
Proof.
  intros Hlo [Hs Hb]. unfold cusum_step.
  destruct (_ || _); cbn; split.
  - apply StronglySorted_snoc; [exact Hs |].
    eapply Forall_impl; [exact Hb |]. cbn. intros; lia.
  - apply Forall_app. split.
    + eapply Forall_impl; [exact Hb |]. cbn. intros; lia.
    + repeat constructor; lia.
  - exact Hs.
  - eapply Forall_impl; [exact Hb |]. cbn. intros; lia.
Qed.

Lemma cusum_loop_inv (lo : nat) (count i : nat) (st : Cusum) :
  (lo <= i)%nat -> cusum_inv lo i st ->
  cusum_inv lo (i + count)
    (fold_left (cusum_step data mean std h) (seq i count) st).
Proof.
  revert i st. induction count as [| count IH]; intros i st Hlo Hinv; cbn.
  - now rewrite Nat.add_0_r.
  - replace (i + S count)%nat with (S i + count)%nat by lia.
    apply IH; [lia |]. now apply cusum_step_inv.
Qed.
End Cusum.

(** C9.  For every input series with fewer than 10 points,
    [detectChangepoints] returns an empty list of changepoint indices (it
    returns; nothing is thrown), whatever the threshold. *)
Theorem detectChangepoints_short_series
    (data : list R) (threshold : option R) :
  (length data < 10)%nat -> detectChangepoints data threshold = [].
Proof.
  intros H. unfold detectChangepoints.
  destruct (Nat.ltb_spec (length data) 10); [reflexivity | lia].
Qed.

Lemma detectChangepoints_short_series_witness :
  detectChangepoints [3; 1; 4; 1; 5; 9; 2; 6; 5] None = []
  /\ detectChangepoints [] (Some 1) = [].
Proof.
  split.
  - apply (detectChangepoints_short_series [3; 1; 4; 1; 5; 9; 2; 6; 5] None).
    cbn. lia.
  - apply (detectChangepoints_short_series [] (Some 1)). cbn. lia.
Defined.

(** C10.  For every input series and every threshold, the list returned by
    [detectChangepoints] is strictly increasing, and every index in it is at
    least 1 and at most [data.length - 1]; in particular index 0 never
    appears and no index is repeated. *)
Theorem detectChangepoints_indices (data : list R) (threshold : option R) :
  let cps := detectChangepoints data threshold in
  StronglySorted lt cps
  /\ Forall (fun i => (1 <= i <= length data - 1)%nat) cps
  /\ (0%nat ∉ cps)
  /\ NoDup cps.
Proof.
  intros cps.
  assert (H : StronglySorted lt cps
              /\ Forall (fun i => (1 <= i <= length data - 1)%nat) cps).
  { unfold cps, detectChangepoints.
    destruct (Nat.ltb_spec (length data) 10) as [Hlt | Hge];
      [split; constructor |].
    match goal with
    | |- context [fold_left (cusum_step data ?mean ?std ?h) _ ?st] =>
        destruct (cusum_loop_inv data mean std h 1 (length data - 1) 1 st)
          as [Hs Hb]
    end.
    - lia.
    - split; constructor.
    - split; [exact Hs |].
      eapply Forall_impl; [exact Hb |]. cbn. intros; lia. }
  destruct H as [Hs Hb]. repeat split; try assumption.
  - intros H0. rewrite Forall_forall in Hb. apply Hb in H0. lia.
  - clear Hb. induction Hs as [| x l Hs IH Hx]; constructor; [| exact IH].
    intros Hin. rewrite Forall_forall in Hx. apply Hx in Hin. lia.
Qed.

(** One iteration of the CUSUM loop, once its two sums are known. *)
Lemma cusum_step_quiet (data : list R) (mean std h : R) (st : Cusum)
    (i : nat) (sp sn : R) :
  Rmax 0 (sPos st + (nth i data 0 - mean) - std * 0.5) = sp ->
  Rmin 0 (sNeg st + (nth i data 0 - mean) + std * 0.5) = sn ->
  sp <= h -> - h <= sn ->
  cusum_step data mean std h st i = mkCusum sp sn (changepoints st).
Proof.
  intros Hp Hn H1 H2. unfold cusum_step. rewrite Hp, Hn.
  now rewrite num_ltb_false, num_ltb_false.
Qed.

Lemma cusum_step_fire (data : list R) (mean std h : R) (st : Cusum)
    (i : nat) (sp sn : R) :
  Rmax 0 (sPos st + (nth i data 0 - mean) - std * 0.5) = sp ->
  Rmin 0 (sNeg st + (nth i data 0 - mean) + std * 0.5) = sn ->
  h < sp \/ sn < - h ->
  cusum_step data mean std h st i = mkCusum 0 0 (changepoints st ++ [i]).
Proof.
  intros Hp Hn H. unfold cusum_step. rewrite Hp, Hn.
  destruct H as [H | H]; rewrite (num_ltb_true _ _ H); cbn;
    rewrite ?orb_true_r; reflexivity.
Qed.

Lemma cusum_loop_cons (data : list R) (mean std h : R) (st : Cusum)
    (i : nat) (l : list nat) :
  fold_left (cusum_step data mean std h) (i :: l) st
  = fold_left (cusum_step data mean std h) l
      (cusum_step data mean std h st i).
Proof. reflexivity. Qed.

Ltac cusum_sums :=
  cbn [nth sPos sNeg];
  first [ rewrite Rmax_left by lra | rewrite Rmax_right by lra
        | rewrite Rmin_left by lra | rewrite Rmin_right by lra ];
  lra.

(** A run of the CUSUM loop, by hand: five points at 0 and five at 10 have
    mean 5 and standard deviation 5; with the threshold 6 the lower sum
    passes -6 at index 3 and, after the reset, the upper sum passes 6 at
    index 7. *)
Example changepoints_step_series :
  detectChangepoints [0; 0; 0; 0; 0; 10; 10; 10; 10; 10] (Some 6)
  = [3; 7]%nat.
Proof.
  set (data := [0; 0; 0; 0; 0; 10; 10; 10; 10; 10]).
  assert (Hmean : sum data / INR (length data) = 5)
    by (unfold sum; cbn; lra).
  assert (Hstd : sqrt (sumsq 5 data / INR (length data)) = 5).
  { rewrite <- (sqrt_square 5) at 2 by lra. f_equal. unfold sumsq. cbn. lra. }
  unfold detectChangepoints.
  change (length data <? 10)%nat with false. cbv iota.
  rewrite Hmean, Hstd.
  change (seq 1 (length data - 1)) with [1; 2; 3; 4; 5; 6; 7; 8; 9]%nat.
  unfold data.
  rewrite cusum_loop_cons, (cusum_step_quiet _ _ _ _ _ _ 0 (-2.5));
    [| cusum_sums | cusum_sums | lra | lra].
  rewrite cusum_loop_cons, (cusum_step_quiet _ _ _ _ _ _ 0 (-5));
    [| cusum_sums | cusum_sums | lra | lra].
  rewrite cusum_loop_cons, (cusum_step_fire _ _ _ _ _ _ 0 (-7.5));
    [| cusum_sums | cusum_sums | lra].
  rewrite cusum_loop_cons, (cusum_step_quiet _ _ _ _ _ _ 0 (-2.5));
    [| cusum_sums | cusum_sums | lra | lra].
  rewrite cusum_loop_cons, (cusum_step_quiet _ _ _ _ _ _ 2.5 0);
    [| cusum_sums | cusum_sums | lra | lra].
  rewrite cusum_loop_cons, (cusum_step_quiet _ _ _ _ _ _ 5 0);
    [| cusum_sums | cusum_sums | lra | lra].
  rewrite cusum_loop_cons, (cusum_step_fire _ _ _ _ _ _ 7.5 0);
    [| cusum_sums | cusum_sums | lra].
  rewrite cusum_loop_cons, (cusum_step_quiet _ _ _ _ _ _ 2.5 0);
    [| cusum_sums | cusum_sums | lra | lra].
  rewrite cusum_loop_cons, (cusum_step_quiet _ _ _ _ _ _ 5 0);
    [| cusum_sums | cusum_sums | lra | lra].
  reflexivity.
Qed.

(* ================================================================= *)
(** ** Time series: rolling z-score *)

(** What [rollingZScore] computes at an index, with the slice it takes. *)
Lemma rollingZScore_lookup (data : list R) (window : Z) (i : nat) :
  let halfW := (window / 2)%Z in
  let start := Z.max 0 (Z.of_nat i - halfW) in
  let end_ := Z.min (Z.of_nat (length data) - 1) (Z.of_nat i + halfW) in
  rollingZScore data window !! i
  = zscore_of (Array_slice data start (end_ + 1)) <$> data !! i.
Proof.
  intros halfW start end_. unfold rollingZScore.
  rewrite list_lookup_imap. reflexivity.
Qed.

(* ================================================================= *)
(** * Further properties of the code *)

(* ================================================================= *)
(** ** Sums and means *)

Lemma sum_from (l : list R) (acc : R) :
  fold_left (fun s v => s + v) l acc = acc + sum l.
Proof.
  unfold sum. revert acc. induction l as [| x l IH]; intros acc; cbn.
  - lra.
  - rewrite IH, (IH (0 + x)). lra.
Qed.

Lemma sum_cons (x : R) (l : list R) : sum (x :: l) = x + sum l.
Proof. unfold sum at 1. cbn [fold_left]. rewrite sum_from. lra. Qed.

Lemma sum_app (l k : list R) : sum (l ++ k) = sum l + sum k.
Proof.
  induction l as [| x l IH]; cbn [app].
  - change (sum []) with 0. lra.
  - rewrite !sum_cons, IH. lra.
Qed.

(* ================================================================= *)
(** ** Time series: moving average *)

(** The loop of [movingAverage] adds up the points of a slice. *)
Lemma movingAverage_loop (data : list R) (start len : nat) (acc : R) :
  (start + len <= length data)%nat ->
  fold_left (fun acc j => acc + nth (Z.to_nat j) data 0)
    (seqZ (Z.of_nat start) (Z.of_nat len)) acc
  = acc + sum (take len (drop start data)).
Proof.
  induction len as [| len IH]; intros Hlen.
  - rewrite seqZ_nil by lia. rewrite take_0. cbn [fold_left].
    change (sum []) with 0. lra.
  - rewrite seqZ_S, fold_left_app, IH by lia. cbn [fold_left].
    destruct (lookup_lt_is_Some_2 (drop start data) len) as [x Hx].
    { rewrite length_drop. lia. }
    rewrite (take_S_r _ _ _ Hx), sum_app, sum_cons.
    rewrite lookup_drop in Hx.
    replace (Z.to_nat (Z.of_nat start + Z.of_nat len)) with (start + len)%nat
      by lia.
    rewrite (nth_lookup_Some _ _ _ _ Hx). change (sum []) with 0. lra.
Qed.

Lemma movingAverage_lookup (data : list R) (window : Z) (i : nat) :
  (i < length data)%nat ->
  movingAverage data window !! i
  = Some
      (if (Z.of_nat i <? window - 1)%Z then None
       else
         Some (value
                 (fdiv
                    (fold_left (fun acc j => acc + nth (Z.to_nat j) data 0)
                       (seqZ (Z.of_nat i - window + 1) window) 0)
                    (IZR window)))).
Proof.
  intros Hi. unfold movingAverage. rewrite list_lookup_imap.
  destruct (lookup_lt_is_Some_2 data i Hi) as [x ->]. reflexivity.
Qed.

Lemma movingAverage_at (data : list R) (window : Z) :
  (1 <= window)%Z ->
  length (movingAverage data window) = length data
  /\ forall i : nat, (i < length data)%nat ->
       ((Z.of_nat i < window - 1)%Z ->
          movingAverage data window !! i = Some None)
       /\ ((window - 1 <= Z.of_nat i)%Z ->
          length (trailing_window data window i) = Z.to_nat window
          /\ movingAverage data window !! i
             = Some (Some (Some (mean_of (trailing_window data window i))))).
Proof.
  intros Hw. split; [apply length_imap |].
  intros i Hi. rewrite (movingAverage_lookup data window i Hi). split.
  - intros Hlt. now destruct (Z.ltb_spec (Z.of_nat i) (window - 1)); [| lia].
  - intros Hge. destruct (Z.ltb_spec (Z.of_nat i) (window - 1)); [lia |].
    assert (Hlen : length (trailing_window data window i) = Z.to_nat window).
    { unfold trailing_window. rewrite length_take, length_drop. lia. }
    split; [exact Hlen |].
    replace (Z.of_nat i - window + 1)%Z
      with (Z.of_nat (i + 1 - Z.to_nat window)) by lia.
    replace window with (Z.of_nat (Z.to_nat window)) at 2 by lia.
    rewrite movingAverage_loop by lia.
    rewrite fdiv_ok by (apply not_0_IZR; lia). cbn.
    unfold mean_of. rewrite Hlen, INR_IZR_INZ, Z2Nat.id by lia.
    unfold trailing_window. do 3 f_equal. lra.
Qed.

(** X1.  With a window of at least one point, [movingAverage] returns an
    array as long as the series, undefined before index [window - 1] and
    afterwards the mean of the [window] points that end at the index. *)
Theorem movingAverage_trailing_mean (data : list R) (window : Z) :
  (1 <= window)%Z ->
  length (movingAverage data window) = length data
  /\ forall i : nat, (i < length data)%nat ->
       ((Z.of_nat i < window - 1)%Z ->
          movingAverage data window !! i = Some None)
       /\ ((window - 1 <= Z.of_nat i)%Z ->
          length (trailing_window data window i) = Z.to_nat window
          /\ movingAverage data window !! i
             = Some (Some (Some (mean_of (trailing_window data window i))))).
Proof. exact (movingAverage_at data window). Qed.

Lemma movingAverage_trailing_mean_witness :
  movingAverage [1; 2; 3; 4; 5] 3 !! 2%nat
  = Some (Some (Some (mean_of (trailing_window [1; 2; 3; 4; 5] 3 2)))).
Proof.
  refine (proj2 (proj2 (proj2 (movingAverage_trailing_mean
                                 [1; 2; 3; 4; 5] 3 _) 2%nat _) _)).
  - lia.
  - cbn. lia.
  - cbn. lia.
Defined.

(** X2.  With a window of zero or less no entry of [movingAverage] is
    undefined: the loop adds nothing, so a zero window gives a non-finite
    number (0 / 0) at every index and a negative window gives 0 at every
    index. *)
Theorem movingAverage_degenerate_window
    (data : list R) (window : Z) (i : nat) :
  (window <= 0)%Z -> (i < length data)%nat ->
  movingAverage data window !! i
  = Some (Some (if (window =? 0)%Z then None else Some 0)).
Proof.
  intros Hw Hi. rewrite (movingAverage_lookup data window i Hi).
  destruct (Z.ltb_spec (Z.of_nat i) (window - 1)); [lia |].
  rewrite seqZ_nil by assumption. cbn [fold_left].
  destruct (Z.eqb_spec window 0) as [-> | Hne].
  - unfold fdiv. now rewrite num_eqb_true.
  - rewrite fdiv_ok by (apply not_0_IZR; assumption).
    cbn. do 3 f_equal. unfold Rdiv. apply Rmult_0_l.
Qed.

Lemma movingAverage_degenerate_window_witness :
  movingAverage [1; 2; 3] 0 !! 1%nat = Some (Some None)
  /\ movingAverage [1; 2; 3] (-2) !! 1%nat = Some (Some (Some 0)).
Proof.
  split.
  - apply (movingAverage_degenerate_window [1; 2; 3] 0 1); cbn; lia.
  - apply (movingAverage_degenerate_window [1; 2; 3] (-2) 1); cbn; lia.
Defined.

(* ================================================================= *)
(** ** Time series: spikes *)

Lemma detectSpikes_lookup (data : list TrendPoint.t)
    (window : option Z) (threshold : option R) (i : nat) (pt : TrendPoint.t) :
  data !! i = Some pt ->
  let counts := TrendPoint.count <$> data in
  let zScores :=
    rollingZScore counts
      (Z.min (default 12%Z window * 2) (Z.of_nat (length data))) in
  exists q : TrendWithStats.t,
    detectSpikes data window threshold !! i = Some q
    /\ TrendWithStats.time q = TrendPoint.time pt
    /\ TrendWithStats.count q = TrendPoint.count pt
    /\ TrendWithStats.label q = TrendPoint.label pt
    /\ zScores !! i = Some (TrendWithStats.zScore q)
    /\ TrendWithStats.isSpike q
       = match TrendWithStats.zScore q with
         | None => false
         | Some z => Rabs z >? default 2 threshold
         end.
Proof.
  intros Hi counts zScores. unfold detectSpikes.
  rewrite list_lookup_imap, Hi. cbn. eexists. split; [reflexivity |].
  cbn. repeat split. fold counts zScores.
  destruct (lookup_lt_is_Some_2 zScores i) as [z Hz].
  { unfold zScores, rollingZScore, counts.
    rewrite length_imap, length_fmap. now apply lookup_lt_Some in Hi. }
  unfold elem. now rewrite Hz.
Qed.

(** X6.  [detectSpikes] returns one annotated point per input point, in the
    same order and with the same time, count and label, and flags a point
    exactly when its z-score is defined and exceeds the threshold (2.0 when
    none is passed) in absolute value. *)
Theorem detectSpikes_frame (data : list TrendPoint.t)
    (window : option Z) (threshold : option R) :
  length (detectSpikes data window threshold) = length data
  /\ forall (i : nat) (pt : TrendPoint.t), data !! i = Some pt ->
       exists q : TrendWithStats.t,
         detectSpikes data window threshold !! i = Some q
         /\ TrendWithStats.time q = TrendPoint.time pt
         /\ TrendWithStats.count q = TrendPoint.count pt
         /\ TrendWithStats.label q = TrendPoint.label pt
         /\ (TrendWithStats.isSpike q = true <->
             exists z : R,
               TrendWithStats.zScore q = Some z
               /\ default 2 threshold < Rabs z).
Proof.
  split; [apply length_imap |].
  intros i pt Hi.
  destruct (detectSpikes_lookup data window threshold i pt Hi)
    as (q & Hq & Ht & Hc & Hl & _ & Hs).
  exists q. repeat split; try assumption.
  - rewrite Hs. destruct (TrendWithStats.zScore q) as [z |]; [| discriminate].
    unfold num_ltb. destruct (Rlt_dec _ _); [eauto | discriminate].
  - intros (z & Hz & Hlt). rewrite Hs, Hz. now apply num_ltb_true.
Qed.

Lemma Array_slice_length {A : Type} (l : list A) (start end_ : Z) :
  (length (Array_slice l start end_) <= length l)%nat.
Proof.
  unfold Array_slice. rewrite length_take, length_drop. lia.
Qed.

(** X7.  On a series of fewer than three points [detectSpikes] flags
    nothing: every z-score is undefined and no point is a spike, whatever
    the window and the threshold. *)
Theorem detectSpikes_short_series (data : list TrendPoint.t)
    (window : option Z) (threshold : option R) :
  (length data < 3)%nat ->
  Forall (fun q => TrendWithStats.zScore q = None
                   /\ TrendWithStats.isSpike q = false)
    (detectSpikes data window threshold).
Proof.
  intros Hlen. apply Forall_forall. intros q Hq.
  apply list_elem_of_lookup_1 in Hq as [i Hq].
  assert (Hi : (i < length data)%nat).
  { apply lookup_lt_Some in Hq. unfold detectSpikes in Hq.
    now rewrite length_imap in Hq. }
  destruct (lookup_lt_is_Some_2 data i Hi) as [pt Hpt].
  destruct (detectSpikes_lookup data window threshold i pt Hpt)
    as (q' & Hq' & _ & _ & _ & Hz & Hs).
  rewrite Hq in Hq'. injection Hq' as <-.
  rewrite rollingZScore_lookup, list_lookup_fmap, Hpt in Hz. cbn in Hz.
  injection Hz as Hz. unfold zscore_of in Hz.
  match type of Hz with
  | context [length (Array_slice ?l ?x ?y)] =>
      pose proof (Array_slice_length l x y) as Hle
  end.
  pose proof (length_fmap TrendPoint.count data) as Hfm.
  match type of Hz with
  | context [(?n <? 3)%nat] => destruct (Nat.ltb_spec n 3) as [_ | Hge]
  end; [| lia].
  rewrite Hs, <- Hz. now split.
Qed.

Lemma detectSpikes_short_series_witness :
  Forall (fun q => TrendWithStats.zScore q = None
                   /\ TrendWithStats.isSpike q = false)
    (detectSpikes [TrendPoint.mk "20240115" 5 "2024-01-15";
                   TrendPoint.mk "20240120" 900 "2024-01-20"] None None).
Proof.
  apply (detectSpikes_short_series
           [TrendPoint.mk "20240115" 5 "2024-01-15";
            TrendPoint.mk "20240120" 900 "2024-01-20"] None None).
  cbn. lia.
Defined.

(* ================================================================= *)
(** ** Time series: changepoints with a negative threshold *)

Lemma cusum_negative_loop (data : list R) (mean std h : R) (count : nat) :
  h < 0 ->
  fold_left (cusum_step data mean std h) (seq 1 count) (mkCusum 0 0 [])
  = mkCusum 0 0 (seq 1 count).
Proof.
  intros Hh. induction count as [| count IH]; [reflexivity |].
  rewrite seq_S, fold_left_app, IH. cbn [fold_left].
  erewrite cusum_step_fire; [reflexivity | reflexivity | reflexivity |].
  left. eapply Rlt_le_trans; [exact Hh | apply Rmax_l].
Qed.

(** X10.  With a negative threshold [detectChangepoints] reports every
    index from 1 to [data.length - 1] of a series of at least 10 points,
    whatever the values are. *)
Theorem detectChangepoints_negative_threshold (data : list R) (h : R) :
  (10 <= length data)%nat -> h < 0 ->
  detectChangepoints data (Some h) = seq 1 (length data - 1).
Proof.
  intros Hlen Hh. unfold detectChangepoints.
  destruct (Nat.ltb_spec (length data) 10); [lia |].
  now rewrite cusum_negative_loop.
Qed.

Lemma detectChangepoints_negative_threshold_witness :
  detectChangepoints [1; 1; 1; 1; 1; 1; 1; 1; 1; 1] (Some (-1))
  = [1; 2; 3; 4; 5; 6; 7; 8; 9]%nat.
Proof.
  apply (detectChangepoints_negative_threshold
           [1; 1; 1; 1; 1; 1; 1; 1; 1; 1] (-1)).
  - cbn. lia.
  - lra.
Defined.

(* ================================================================= *)
(** ** Batch FDR corrector: range, idempotence *)

(** X12.  Every corrected p-value returned by [applyBenjaminiHochberg] is
    present and at most 1, whatever the raw p-values are. *)
Theorem fdr_at_most_one (scores : list DisproportionalityScore) :
  exists out : list DisproportionalityScore,
    applyBenjaminiHochberg scores = Some out
    /\ Forall (fun s => exists v : R, fdrPValue s = Some v /\ v <= 1) out.
Proof.
  destruct (output_rank scores) as (out & Hout & Hrank).
  exists out. split; [exact Hout |].
  apply Forall_forall. intros x Hx.
  destruct (Hrank x Hx) as (k & item & _ & _ & ->).
  eexists. split; [reflexivity | apply Rmin_r].
Qed.

(** The corrector reads the batch only through its length and its raw
    p-values. *)
Lemma applyBenjaminiHochberg_rerun
    (scores : list DisproportionalityScore) (vs : list (option R)) :
  applyBenjaminiHochberg (imap (fun i s => with_fdr s (slot vs i)) scores)
  = applyBenjaminiHochberg scores.
Proof.
  unfold applyBenjaminiHochberg. rewrite length_imap.
  destruct (length scores =? 0)%nat eqn:H0.
  - apply Nat.eqb_eq, length_zero_iff_nil in H0. now subst scores.
  - assert (Hidx :
      imap (fun i s => mkIndexed i (prrPValue s))
        (imap (fun i s => with_fdr s (slot vs i)) scores)
      = imap (fun i s => mkIndexed i (prrPValue s)) scores).
    { apply list_eq. intros i. rewrite !list_lookup_imap.
      now destruct (scores !! i). }
    rewrite Hidx. destruct (bh_walk _ _ _ _ _) as [adj |]; [| reflexivity].
    f_equal. apply list_eq. intros i. rewrite !list_lookup_imap.
    now destruct (scores !! i).
Qed.

(** X14.  [applyBenjaminiHochberg] is idempotent: correcting a batch that
    was already corrected returns it unchanged, since the raw p-values are
    kept and [fdrPValue] is overwritten. *)
Theorem applyBenjaminiHochberg_idempotent
    (scores : list DisproportionalityScore) :
  exists out : list DisproportionalityScore,
    applyBenjaminiHochberg scores = Some out
    /\ applyBenjaminiHochberg out = Some out.
Proof.
  destruct (applyBenjaminiHochberg_spec scores) as (adj & Hout & _).
  eexists. split; [exact Hout |].
  now rewrite applyBenjaminiHochberg_rerun.
Qed.

(* ================================================================= *)
(** ** Calculators and assembler: range of the p-value, degenerate tables *)

(** X15.  [chi2PValue1df] returns a probability for every statistic: it
    never fails and its result lies between 0 and 1. *)
Theorem chi2PValue1df_is_probability (chi2 : R) :
  exists (v : R) (l : list R),
    chi2PValue1df chi2 = Some (v, l) /\ 0 <= v <= 1.
Proof. exact (chi2PValue1df_range chi2). Qed.

(** The assembler on a table of counts: every calculator returns, and the
    score collects their values. *)
Lemma assemble_counts (r : string) (cnt : R) (t : ContingencyTable) :
  counts t ->
  exists (s : DisproportionalityScore) (log : list R),
    computeDisproportionality r cnt t = Some (s, log)
    /\ reaction s = r /\ count s = cnt /\ table s = t
    /\ fdrPValue s = None
    /\ value (computePRR t) = Some (prr s)
    /\ value (computeChi2 t) = Some (prrChi2 s)
    /\ value (chi2PValue1df (prrChi2 s)) = Some (prrPValue s)
    /\ value (computeROR t) = Some (ror s)
    /\ value (computeROR_CI t)
       = Some (mkInterval (rorLower95 s) (rorUpper95 s))
    /\ value (computeIC t) = Some (ic s)
    /\ value (computeIC025 t) = Some (ic025 s)
    /\ value (computeIC975 t) = Some (ic975 s)
    /\ isSignal s = (prr s >=? 2) && (prrChi2 s >=? 4) && (a t >=? 3)
    /\ isStrongSignal s = (rorLower95 s >? 1) && (ic025 s >? 0).
Proof.
  intros Hc. unfold computeDisproportionality.
  destruct (computePRR_guarded t) as [[[vprr l1] H1] _].
  destruct (computeChi2_guarded t) as [[[vchi l2] H2] _].
  destruct (chi2PValue1df_guarded vchi) as [[[pv l3] H3] _].
  destruct (computeROR_guarded t) as [[[vror l4] H4] _].
  destruct (computeROR_CI_guarded t Hc) as [[[[lo up] l5] H5] _].
  destruct (computeIC_guarded t Hc) as [[[vic l6] H6] _].
  destruct (computeIC025_guarded t Hc) as [[[v025 l7] H7] _].
  destruct (computeIC975_guarded t Hc) as [[[v975 l8] H8] _].
  rewrite H1, bind_Some. cbv beta. rewrite H2, bind_Some. cbv beta.
  rewrite H3, bind_Some. cbv beta. rewrite H4, bind_Some. cbv beta.
  rewrite H5, bind_Some. cbv beta. rewrite H6, bind_Some. cbv beta.
  rewrite H7, bind_Some. cbv beta. rewrite H8, bind_Some. cbv beta.
  unfold ret. cbv beta iota zeta.
  do 2 eexists. split; [reflexivity |]. cbn [reaction count table fdrPValue
    prr prrChi2 prrPValue ror rorLower95 rorUpper95 ic ic025 ic975 isSignal
    isStrongSignal lower upper value fmap option_fmap option_map fst].
  rewrite H3. repeat split.
Qed.

(** X17.  Degenerate tables are never classified.  On a table of counts,
    a table with c = 0, a + b = 0 or c + d = 0 (PRR sentinel 0), or with
    fewer than 3 cases, is not a signal; a table with any cell equal to 0
    (interval sentinel {0, 0}) is not a strong signal. *)
Theorem degenerate_tables_not_flagged
    (r : string) (cnt : R) (t : ContingencyTable) :
  counts t ->
  exists (s : DisproportionalityScore) (log : list R),
    computeDisproportionality r cnt t = Some (s, log)
    /\ (c t = 0 \/ a t + b t = 0 \/ c t + d t = 0 \/ a t < 3 ->
        isSignal s = false)
    /\ (a t = 0 \/ b t = 0 \/ c t = 0 \/ d t = 0 ->
        isStrongSignal s = false).
Proof.
  intros Hc.
  destruct (assemble_counts r cnt t Hc)
    as (s & log & Hs & _ & _ & _ & _ & Hprr & _ & _ & _ & Hci & _ & _ & _
        & Hsig & Hstrong).
  exists s, log. split; [exact Hs |]. split.
  - intros H. rewrite Hsig.
    destruct (Rlt_dec (a t) 3) as [H3 | H3].
    + rewrite (num_leb_false 3 (a t)) by assumption.
      now rewrite andb_false_r.
    + rewrite computePRR_degenerate in Hprr by tauto.
      cbn in Hprr. injection Hprr as <-.
      now rewrite (num_leb_false 2 0) by lra.
  - intros H. rewrite Hstrong.
    rewrite computeROR_CI_degenerate in Hci by tauto.
    cbn in Hci. injection Hci as <- _.
    now rewrite (num_ltb_false 1 0) by lra.
Qed.

Lemma degenerate_tables_not_flagged_witness :
  exists (s : DisproportionalityScore) (log : list R),
    computeDisproportionality "RASH" 40 (mkTable 40 60 0 900 1000)
    = Some (s, log)
    /\ (0 = 0 \/ 40 + 60 = 0 \/ 0 + 900 = 0 \/ 40 < 3 -> isSignal s = false)
    /\ (40 = 0 \/ 60 = 0 \/ 0 = 0 \/ 900 = 0 -> isStrongSignal s = false).
Proof.
  apply (degenerate_tables_not_flagged "RASH" 40 (mkTable 40 60 0 900 1000)).
  unfold counts; cbn; lra.
Defined.

(* ================================================================= *)
(** ** Maps *)

Section MapLaws.
Context {V : Type}.
Implicit Types (m : list (string * V)) (k : string) (v : V).

Lemma Map_has_get m k : Map_has m k = true <-> is_Some (Map_get m k).
Proof.
  unfold Map_has, Map_get. induction m as [| [k0 v0] m IH]; cbn.
  - split; [discriminate | intros [? ?]; discriminate].
  - destruct (String.eqb k0 k); cbn; [| exact IH].
    split; [now eexists | reflexivity].
Qed.

Lemma Map_has_keys m k : Map_has m k = true <-> k ∈ fst <$> m.
Proof.
  unfold Map_has. induction m as [| [k0 v0] m IH]; cbn.
  - split; [discriminate | intros H; inversion H].
  - rewrite elem_of_cons, <- IH. destruct (String.eqb_spec k0 k); cbn.
    + split; [now left | reflexivity].
    + split; [now right | intros [? | ?]; congruence].
Qed.

Lemma Map_get_replace_eq m k v :
  Map_has m k = true ->
  Map_get ((fun kv => if String.eqb kv.1 k then (k, v) else kv) <$> m) k
  = Some v.
Proof.
  unfold Map_has, Map_get. induction m as [| [k0 v0] m IH]; cbn;
    [discriminate |].
  destruct (String.eqb k0 k) eqn:E; cbn.
  - now rewrite String.eqb_refl.
  - rewrite E. exact IH.
Qed.

Lemma Map_get_replace_ne m k k' v :
  k' <> k ->
  Map_get ((fun kv => if String.eqb kv.1 k then (k, v) else kv) <$> m) k'
  = Map_get m k'.
Proof.
  intros Hne. unfold Map_get. induction m as [| [k0 v0] m IH]; cbn;
    [reflexivity |].
  destruct (String.eqb_spec k0 k) as [-> | Hk]; cbn.
  - destruct (String.eqb_spec k k'); [congruence | exact IH].
  - destruct (String.eqb k0 k'); [reflexivity | exact IH].
Qed.

Lemma Map_get_app_new m k k' v :
  Map_get (m ++ [(k, v)]) k'
  = match Map_get m k' with
    | Some w => Some w
    | None => if String.eqb k k' then Some v else None
    end.
Proof.
  unfold Map_get. induction m as [| [k0 v0] m IH]; cbn.
  - now destruct (String.eqb k k').
  - destruct (String.eqb k0 k'); [reflexivity | exact IH].
Qed.

Lemma Map_get_set_eq m k v : Map_get (Map_set m k v) k = Some v.
Proof.
  unfold Map_set. destruct (Map_has m k) eqn:Hh.
  - now apply Map_get_replace_eq.
  - rewrite Map_get_app_new, String.eqb_refl.
    destruct (Map_get m k) eqn:Hg; [| reflexivity].
    assert (Map_has m k = true)
      by (apply Map_has_get; rewrite Hg; now eexists).
    congruence.
Qed.

Lemma Map_get_set_ne m k k' v :
  k' <> k -> Map_get (Map_set m k v) k' = Map_get m k'.
Proof.
  intros Hne. unfold Map_set. destruct (Map_has m k).
  - now apply Map_get_replace_ne.
  - rewrite Map_get_app_new.
    destruct (Map_get m k'); [reflexivity |].
    destruct (String.eqb_spec k k'); [congruence | reflexivity].
Qed.

Lemma Map_set_keys m k v :
  fst <$> Map_set m k v
  = if Map_has m k then fst <$> m else (fst <$> m) ++ [k].
Proof.
  unfold Map_set. destruct (Map_has m k).
  - rewrite <- list_fmap_compose. apply list_fmap_ext.
    intros i [k0 v0] _. cbn.
    destruct (String.eqb_spec k0 k) as [-> |]; reflexivity.
  - now rewrite fmap_app.
Qed.
End MapLaws.

(* ================================================================= *)
(** ** Year-over-year regrouping *)

Lemma Array_find_none_month (mo : Z) (l : list MonthCount.t) :
  Array_find (fun e => month_eqb (MonthCount.month e) (Some mo)) l = None ->
  Some mo ∉ MonthCount.month <$> l.
Proof.
  induction l as [| e l IH]; cbn; [intros _ H; inversion H |].
  destruct (month_eqb (MonthCount.month e) (Some mo)) eqn:E; [discriminate |].
  intros H Hin. apply elem_of_cons in Hin as [Heq | Hin].
  - rewrite <- Heq in E. cbn in E. now rewrite Z.eqb_refl in E.
  - now apply IH.
Qed.

Lemma add_to_found_months (test : MonthCount.t -> bool) (x : R)
    (l : list MonthCount.t) :
  omap MonthCount.month (add_to_found test x l) = omap MonthCount.month l.
Proof.
  induction l as [| e l IH]; cbn [add_to_found]; [reflexivity |].
  destruct (test e); cbn; [reflexivity |].
  now rewrite IH.
Qed.

Section YearOverYearFacts.
Variable parseInt : string -> option Z.

Local Abbreviation step := (yearOverYear_step parseInt).

(** What one point does to the map. *)
Lemma yearOverYear_step_spec (m : list (string * list MonthCount.t))
    (d : TrendPoint.t) :
  let entries := default [] (Map_get m (year_of d)) in
  let month := parseInt (String_slice (TrendPoint.time d) 4 6) in
  let test := fun e => month_eqb (MonthCount.month e) month in
  exists entries' : list MonthCount.t,
    Map_get (step m d) (year_of d) = Some entries'
    /\ (forall y, y <> year_of d -> Map_get (step m d) y = Map_get m y)
    /\ fst <$> step m d
       = (if Map_has m (year_of d) then fst <$> m
          else (fst <$> m) ++ [year_of d])
    /\ ((exists e, Array_find test entries = Some e
                   /\ entries' = add_to_found test (TrendPoint.count d) entries)
        \/ (Array_find test entries = None
            /\ entries'
               = entries ++ [MonthCount.mk month (TrendPoint.count d)])).
Proof.
  intros entries month test. unfold yearOverYear_step.
  fold (year_of d) month. unfold entries.
  destruct (Map_has m (year_of d)) eqn:Hh; cbn [negb].
  - destruct (proj1 (Map_has_get m (year_of d)) Hh) as [es Hes].
    rewrite Hes. cbn [default]. fold test.
    destruct (Array_find test es) as [e |] eqn:Hf.
    + eexists. split; [apply Map_get_set_eq |].
      split; [intros y Hy; now apply Map_get_set_ne |].
      split; [now rewrite Map_set_keys, Hh |].
      left. now exists e.
    + eexists. split; [apply Map_get_set_eq |].
      split; [intros y Hy; now apply Map_get_set_ne |].
      split; [now rewrite Map_set_keys, Hh |].
      now right.
  - assert (Hnone : Map_get m (year_of d) = None).
    { destruct (Map_get m (year_of d)) eqn:Hg; [| reflexivity].
      assert (Map_has m (year_of d) = true)
        by (apply Map_has_get; rewrite Hg; now eexists).
      congruence. }
    rewrite Hnone, Map_get_set_eq. cbn [default Array_find].
    assert (Hh' : Map_has (Map_set m (year_of d) []) (year_of d) = true).
    { apply Map_has_get. rewrite Map_get_set_eq. now eexists. }
    eexists. split; [apply Map_get_set_eq |].
    split; [intros y Hy; now rewrite !Map_get_set_ne |].
    split; [now rewrite Map_set_keys, Hh', Map_set_keys, Hh |].
    now right.
Qed.

(** Invariant of the regrouping: every year is a key once, holds at least
    one entry, and holds every parsed month once. *)
Lemma yearOverYear_fold_inv (data : list TrendPoint.t)
    (m : list (string * list MonthCount.t)) :
  NoDup (fst <$> m) ->
  (forall y es, Map_get m y = Some es ->
     es <> [] /\ NoDup (omap MonthCount.month es)) ->
  let m' := fold_left step data m in
  NoDup (fst <$> m')
  /\ (forall y, y ∈ fst <$> m' <->
                y ∈ fst <$> m \/ y ∈ year_of <$> data)
  /\ (forall y es, Map_get m' y = Some es ->
        es <> [] /\ NoDup (omap MonthCount.month es)).
Proof.
  revert m. induction data as [| d data IH]; intros m Hnd Hes;
    cbn [fold_left].
  - split; [exact Hnd |]. split; [| exact Hes].
    intros y. rewrite fmap_nil. split; [now left |].
    intros [H | H]; [exact H | inversion H].
  - destruct (yearOverYear_step_spec m d)
      as (es' & Hget & Hother & Hkeys & Hes').
    destruct (IH (step m d)) as (IH1 & IH2 & IH3).
    + rewrite Hkeys. destruct (Map_has m (year_of d)) eqn:Hh; [exact Hnd |].
      apply NoDup_app. split; [exact Hnd |]. split; [| apply NoDup_singleton].
      intros y Hy Hy'. apply list_elem_of_singleton in Hy'. subst y.
      apply Map_has_keys in Hy. congruence.
    + intros y es Hy.
      destruct (String.eqb_spec y (year_of d)) as [-> | Hne].
      * rewrite Hget in Hy. injection Hy as <-.
        assert (Hold : NoDup (omap MonthCount.month
                                (default [] (Map_get m (year_of d))))).
        { destruct (Map_get m (year_of d)) as [es0 |] eqn:Hg;
            cbn [default from_option Datatypes.id];
            [now apply (Hes (year_of d)) | constructor]. }
        destruct Hes' as [(e & Hf & ->) | (Hf & ->)].
        -- split; [| now rewrite add_to_found_months].
           destruct (default [] (Map_get m (year_of d))) as [| e0 l];
             [discriminate |].
           cbn [add_to_found]. now destruct (month_eqb _ _).
        -- split; [now destruct (default [] (Map_get m (year_of d))) |].
           rewrite omap_app. cbn [omap list_omap MonthCount.month].
           destruct (parseInt (String_slice (TrendPoint.time d) 4 6))
             as [mo |] eqn:Hmo; [| now rewrite app_nil_r].
           apply NoDup_app. split; [exact Hold |].
           split; [| apply NoDup_singleton].
           intros z Hz Hz'. apply list_elem_of_singleton in Hz'. subst z.
           apply (Array_find_none_month mo _ Hf).
           apply list_elem_of_omap in Hz as (e & He & Hm).
           rewrite <- Hm. now apply list_elem_of_fmap_2.
      * rewrite Hother in Hy by assumption. now apply (Hes y).
    + split; [exact IH1 |]. split; [| exact IH3].
      intros y. rewrite IH2, Hkeys, fmap_cons, elem_of_cons.
      destruct (Map_has m (year_of d)) eqn:Hh.
      * apply Map_has_keys in Hh. split; [tauto |].
        intros [H | [-> | H]]; tauto.
      * rewrite elem_of_app, list_elem_of_singleton. tauto.
Qed.

(** X24.  In the map returned by [yearOverYear] the keys are exactly the
    years that occur in the input, each once; every year holds at least one
    month entry; and within a year no parsed month occurs twice (points of
    the same month are merged). *)
Theorem yearOverYear_years_and_months (data : list TrendPoint.t) :
  let m := yearOverYear parseInt data in
  NoDup (fst <$> m)
  /\ (forall y, y ∈ fst <$> m <-> y ∈ year_of <$> data)
  /\ (forall y es, Map_get m y = Some es ->
        es <> [] /\ NoDup (omap MonthCount.month es)).
Proof.
  destruct (yearOverYear_fold_inv data []) as (H1 & H2 & H3).
  - constructor.
  - intros y es H. discriminate.
  - split; [exact H1 |]. split; [| exact H3].
    intros y. rewrite (H2 y). split; [| tauto].
    intros [H | H]; [inversion H | exact H].
Qed.
End YearOverYearFacts.

(* ================================================================= *)
(** ** Date strings *)

Local Open Scope string_scope.

Ltac no_dash H :=
  repeat match goal with
  | |- context [Ascii.eqb ?x "-"%char] =>
      rewrite (proj2 (Ascii.eqb_neq x "-"%char))
        by (intros ->; apply H; cbn; tauto)
  end.

Lemma date_round_trip_forward (s : string) :
  String.length s = 8%nat ->
  ~ In "-"%char (list_ascii_of_string s) ->
  String.length (formatDateForInput s) = 10%nat
  /\ parseDateInput (formatDateForInput s) = s.
Proof.
  intros Hlen Hdash.
  destruct s as [| c0 [| c1 [| c2 [| c3 [| c4 [| c5 [| c6 [| c7 [| c8 s]]]]]]]]];
    try discriminate Hlen.
  split; [reflexivity |].
  change (formatDateForInput _)
    with (String c0 (String c1 (String c2 (String c3 (String "-"
           (String c4 (String c5 (String "-"
             (String c6 (String c7 "")))))))))).
  unfold parseDateInput. cbn [remove_char]. cbn in Hdash.
  no_dash Hdash. reflexivity.
Qed.

Lemma date_round_trip_backward (y m dd : string) :
  String.length y = 4%nat -> String.length m = 2%nat ->
  String.length dd = 2%nat ->
  ~ In "-"%char (list_ascii_of_string (y ++ m ++ dd)) ->
  parseDateInput (y ++ "-" ++ m ++ "-" ++ dd) = y ++ m ++ dd
  /\ formatDateForInput (parseDateInput (y ++ "-" ++ m ++ "-" ++ dd))
     = y ++ "-" ++ m ++ "-" ++ dd.
Proof.
  intros Hy Hm Hd Hdash.
  destruct y as [| y0 [| y1 [| y2 [| y3 [| y4 y]]]]]; try discriminate Hy.
  destruct m as [| m0 [| m1 [| m2 m]]]; try discriminate Hm.
  destruct dd as [| d0 [| d1 [| d2 dd]]]; try discriminate Hd.
  cbn [append] in *. cbn in Hdash.
  assert (Hparse :
    parseDateInput
      (String y0 (String y1 (String y2 (String y3 (String "-"
         (String m0 (String m1 (String "-" (String d0 (String d1 ""))))))))))
    = String y0 (String y1 (String y2 (String y3
        (String m0 (String m1 (String d0 (String d1 ""))))))))
    by (unfold parseDateInput; cbn [remove_char]; no_dash Hdash;
        reflexivity).
  split; [exact Hparse |]. rewrite Hparse. reflexivity.
Qed.

(** X25.  The two date conversions undo each other.  For an 8-character
    date without hyphens, [formatDateForInput] gives 10 characters from
    which [parseDateInput] returns the date; and a text made of 4, 2 and 2
    hyphen-free characters joined by hyphens is returned by
    [formatDateForInput] after [parseDateInput]. *)
Theorem date_conversions_round_trip (s y m dd : string) :
  String.length s = 8%nat ->
  ~ In "-"%char (list_ascii_of_string s) ->
  String.length y = 4%nat -> String.length m = 2%nat ->
  String.length dd = 2%nat ->
  ~ In "-"%char (list_ascii_of_string (y ++ m ++ dd)) ->
  String.length (formatDateForInput s) = 10%nat
  /\ parseDateInput (formatDateForInput s) = s
  /\ formatDateForInput (parseDateInput (y ++ "-" ++ m ++ "-" ++ dd))
     = y ++ "-" ++ m ++ "-" ++ dd.
Proof.
  intros Hs Hsd Hy Hm Hd Hd'.
  destruct (date_round_trip_forward s Hs Hsd) as [H1 H2].
  destruct (date_round_trip_backward y m dd Hy Hm Hd Hd') as [_ H3].
  now repeat split.
Qed.

Lemma date_conversions_round_trip_witness :
  String.length (formatDateForInput "20240115") = 10%nat
  /\ parseDateInput (formatDateForInput "20240115") = "20240115"
  /\ formatDateForInput (parseDateInput ("2023" ++ "-" ++ "12" ++ "-" ++ "31"))
     = "2023" ++ "-" ++ "12" ++ "-" ++ "31".
Proof.
  apply (date_conversions_round_trip "20240115" "2023" "12" "31");
    try reflexivity; cbn; intuition discriminate.
Defined.

(** X26.  The date formatters agree on 8-character dates and differ on
    every other text: for 8 characters [formatDateLabel] equals
    [formatDateForInput], and [formatDateRange] of two such dates is the two
    formatted dates joined by " to "; for another length
    [formatDateForInput] gives the empty string, [formatDateLabel] gives the
    text back, and [formatDateRange] joins the two texts unformatted as soon
    as one of them is not 8 characters long. *)
Theorem date_formatters_agree (from to : string) :
  (String.length from = 8%nat ->
     formatDateLabel from = formatDateForInput from)
  /\ (String.length from <> 8%nat ->
     formatDateForInput from = "" /\ formatDateLabel from = from)
  /\ (String.length from = 8%nat -> String.length to = 8%nat ->
     formatDateRange from to
     = formatDateForInput from ++ " to " ++ formatDateForInput to)
  /\ (String.length from <> 8%nat \/ String.length to <> 8%nat ->
     formatDateRange from to = from ++ " to " ++ to).
Proof.
  unfold formatDateLabel, formatDateForInput, formatDateRange.
  repeat split.
  - intros H. now rewrite H.
  - apply Nat.eqb_neq in H. now rewrite H.
  - apply Nat.eqb_neq in H. now rewrite H.
  - intros Hf Ht.
    destruct from as [| f0 [| f1 [| f2 [| f3 [| f4 [| f5 [| f6 [| f7 [| f8 from]]]]]]]]];
      try discriminate Hf.
    destruct to as [| t0 [| t1 [| t2 [| t3 [| t4 [| t5 [| t6 [| t7 [| t8 to]]]]]]]]];
      try discriminate Ht.
    reflexivity.
  - intros [H | H]; apply Nat.eqb_neq in H; rewrite H;
      [reflexivity | now rewrite andb_false_r].
Qed.

Local Close Scope string_scope.

(* ================================================================= *)
(** ** Manifest: results summary *)

Lemma count_where_le {A : Type} (test : A -> bool) (l : list A) :
  (count_where test l <= length l)%nat.
Proof.
  unfold count_where. induction l as [| x l IH]; cbn; [lia |].
  destruct (test x); cbn; lia.
Qed.

Lemma count_where_mono {A : Type} (f g : A -> bool) (l : list A) :
  (forall x, f x = true -> g x = true) ->
  (count_where f l <= count_where g l)%nat.
Proof.
  intros Hfg. unfold count_where.
  induction l as [| x l IH]; cbn; [lia |].
  destruct (f x) eqn:Hf.
  - rewrite (Hfg x Hf). cbn. lia.
  - destruct (g x); cbn; lia.
Qed.

Lemma count_where_imap {A : Type} (test : A -> bool) (h : nat -> A -> A)
    (l : list A) :
  (forall i x, test (h i x) = test x) ->
  count_where test (imap h l) = count_where test l.
Proof.
  unfold count_where. revert h.
  induction l as [| x l IH]; intros h Hh; [reflexivity |].
  cbn [imap List.filter]. rewrite Hh.
  specialize (IH (h ∘ S) (fun i y => Hh (S i) y)).
  destruct (test x); cbn [length]; now rewrite IH.
Qed.

Lemma count_where_split {A : Type} (f g : A -> bool) (l : list A) :
  (count_where (fun x => f x || g x) l
   = count_where g l + count_where (fun x => f x && negb (g x)) l)%nat.
Proof.
  unfold count_where. induction l as [| x l IH]; [reflexivity |].
  cbn [List.filter]. destruct (f x), (g x); cbn [orb andb negb length];
    rewrite IH; lia.
Qed.

(** X27.  The counts of the manifest's results summary are ordered: strong
    signals are at most the detected signals, which are at most the
    reactions analysed; and the detected signals are the strong ones plus
    the scores flagged [isSignal] only. *)
Theorem manifest_counts_ordered (signals : list DisproportionalityScore) :
  let r := generateManifest_summary signals in
  (strongSignalsDetected r <= signalsDetected r <= reactionsAnalyzed r)%nat
  /\ signalsDetected r
     = (strongSignalsDetected r
        + count_where (fun s => isSignal s && negb (isStrongSignal s))
            signals)%nat.
Proof.
  cbn. repeat split.
  - apply count_where_mono. intros s ->. apply orb_true_r.
  - apply count_where_le.
  - apply (count_where_split isSignal isStrongSignal).
Qed.

(** X28.  The batch correction does not change the results summary: the
    manifest computed from the output of [applyBenjaminiHochberg] has the
    same three counts as the one computed from its input. *)
Theorem manifest_summary_after_correction
    (scores : list DisproportionalityScore) :
  exists out, applyBenjaminiHochberg scores = Some out
    /\ generateManifest_summary out = generateManifest_summary scores.
Proof.
  destruct (applyBenjaminiHochberg_spec scores) as (adj & Hout & _).
  eexists. split; [exact Hout |].
  unfold generateManifest_summary. f_equal.
  - apply length_imap.
  - now apply count_where_imap.
  - now apply count_where_imap.
Qed.

(* ================================================================= *)
(** * Properties in binary64 arithmetic *)

Import B64.

(* ================================================================= *)
(** ** Rounding to nearest *)

#[local] Arguments bpow : simpl never.
#[local] Arguments rne : simpl never.

(** *** Integer parts *)
Lemma Zfloor_spec x : IZR (Zfloor x) <= x < IZR (Zfloor x) + 1.
Proof.
  unfold Zfloor. rewrite minus_IZR. destruct (archimed x). lra.
Qed.

Lemma Zfloor_unique x k : IZR k <= x < IZR k + 1 -> Zfloor x = k.
Proof.
  intros [H1 H2]. destruct (Zfloor_spec x) as [H3 H4].
  assert (Ha : IZR k < IZR (Zfloor x + 1)) by (rewrite plus_IZR; lra).
  assert (Hb : IZR (Zfloor x) < IZR (k + 1)) by (rewrite plus_IZR; lra).
  apply lt_IZR in Ha, Hb. lia.
Qed.

Lemma Zfloor_IZR k : Zfloor (IZR k) = k.
Proof. apply Zfloor_unique. lra. Qed.

Lemma Zfloor_le x y : x <= y -> (Zfloor x <= Zfloor y)%Z.
Proof.
  intros H. destruct (Zfloor_spec x), (Zfloor_spec y).
  assert (Ha : IZR (Zfloor x) < IZR (Zfloor y + 1)) by (rewrite plus_IZR; lra).
  apply lt_IZR in Ha. lia.
Qed.

Lemma ZnearestE_cases x :
  ZnearestE x = Zfloor x \/ ZnearestE x = (Zfloor x + 1)%Z.
Proof.
  unfold ZnearestE. repeat destruct (Rlt_dec _ _); auto.
  destruct (Z.even _); auto.
Qed.

Lemma ZnearestE_IZR k : ZnearestE (IZR k) = k.
Proof.
  unfold ZnearestE. rewrite Zfloor_IZR.
  destruct (Rlt_dec _ _) as [_ | H]; [reflexivity | exfalso; lra].
Qed.

Lemma ZnearestE_le x y : x <= y -> (ZnearestE x <= ZnearestE y)%Z.
Proof.
  intros H. pose proof (Zfloor_le x y H) as Hf.
  destruct (Z.eq_dec (Zfloor x) (Zfloor y)) as [E | E].
  - unfold ZnearestE. rewrite <- E.
    destruct (Rlt_dec (x - _) _), (Rlt_dec (y - _) _); try lia; try lra;
      repeat destruct (Rlt_dec _ _); try lia; try lra;
      destruct (Z.even _); lia.
  - destruct (ZnearestE_cases x) as [-> | ->],
      (ZnearestE_cases y) as [-> | ->]; lia.
Qed.

Lemma ZnearestE_opp x : ZnearestE (- x) = (- ZnearestE x)%Z.
Proof.
  destruct (Zfloor_spec x) as [H1 H2].
  destruct (Req_dec x (IZR (Zfloor x))) as [E | E].
  - remember (Zfloor x) as f eqn:Hf. rewrite E.
    now rewrite <- opp_IZR, !ZnearestE_IZR.
  - assert (Hf : Zfloor (- x) = (- Zfloor x - 1)%Z).
    { apply Zfloor_unique. rewrite minus_IZR, opp_IZR. lra. }
    unfold ZnearestE. rewrite Hf, minus_IZR, opp_IZR.
    repeat destruct (Rlt_dec _ _); try lia; try lra.
    replace (- Zfloor x - 1)%Z with (- (Zfloor x + 1))%Z by lia.
    rewrite Z.even_opp, Z.even_add. cbn.
    destruct (Z.even (Zfloor x)); cbn; lia.
Qed.


(** *** Powers of two and magnitudes *)
Lemma bpow_gt_0 e : 0 < bpow e.
Proof. apply powerRZ_lt. lra. Qed.

Lemma bpow_plus e1 e2 : bpow (e1 + e2) = bpow e1 * bpow e2.
Proof. apply powerRZ_add. lra. Qed.

Lemma bpow_opp e : bpow (- e) = / bpow e.
Proof. apply powerRZ_neg'. Qed.

Lemma bpow_exp e : bpow e = exp (IZR e * ln 2).
Proof. unfold bpow. rewrite powerRZ_Rpower by lra. reflexivity. Qed.

Lemma bpow_lt e1 e2 : (e1 < e2)%Z -> bpow e1 < bpow e2.
Proof.
  intros H. rewrite !bpow_exp. apply exp_increasing.
  apply Rmult_lt_compat_r; [apply ln2_pos | now apply IZR_lt].
Qed.

Lemma bpow_le e1 e2 : (e1 <= e2)%Z -> bpow e1 <= bpow e2.
Proof.
  intros H. destruct (Z.eq_dec e1 e2) as [-> | E]; [lra |].
  left. apply bpow_lt. lia.
Qed.

Lemma bpow_lt_inv e1 e2 : bpow e1 < bpow e2 -> (e1 < e2)%Z.
Proof.
  intros H. destruct (Z_lt_le_dec e1 e2) as [L | L]; [exact L |].
  apply bpow_le in L. lra.
Qed.

Lemma bpow_IZR e : (0 <= e)%Z -> bpow e = IZR (2 ^ e).
Proof.
  intros H. unfold bpow. rewrite <- (Z2Nat.id e H) at 1.
  rewrite <- pow_powerRZ, pow_IZR. now rewrite Z2Nat.id.
Qed.

Lemma bpow_0 : bpow 0 = 1.
Proof. reflexivity. Qed.

Lemma mag_spec x : x <> 0 -> bpow (mag x - 1) <= Rabs x < bpow (mag x).
Proof.
  intros Hx. assert (Hy : 0 < Rabs x) by now apply Rabs_pos_lt.
  unfold mag. set (l := ln (Rabs x) / ln 2).
  destruct (Zfloor_spec l) as [H1 H2]. pose proof ln2_pos as H0.
  assert (E : Rabs x = exp (l * ln 2)).
  { unfold l. replace (ln (Rabs x) / ln 2 * ln 2) with (ln (Rabs x))
      by (field; lra). now rewrite exp_ln. }
  rewrite !bpow_exp, E. split.
  - replace (Zfloor l + 1 - 1)%Z with (Zfloor l) by lia.
    destruct H1 as [H1 | H1].
    + left. apply exp_increasing. now apply Rmult_lt_compat_r.
    + rewrite H1. lra.
  - apply exp_increasing. rewrite plus_IZR.
    now apply Rmult_lt_compat_r.
Qed.


Lemma mag_le x y : x <> 0 -> Rabs x <= Rabs y -> (mag x <= mag y)%Z.
Proof.
  intros Hx H.
  assert (Hy : y <> 0).
  { intros ->. rewrite Rabs_R0 in H. apply Rabs_pos_lt in Hx. lra. }
  destruct (mag_spec x Hx), (mag_spec y Hy).
  assert (Ha : (mag x - 1 < mag y)%Z) by (apply bpow_lt_inv; lra).
  lia.
Qed.

Lemma mag_opp x : mag (- x) = mag x.
Proof. unfold mag. now rewrite Rabs_Ropp. Qed.

(** *** Rounding is odd, monotone, and the identity on the format *)
Lemma rne_0 : rne 0 = 0.
Proof. unfold rne. rewrite Rmult_0_l, ZnearestE_IZR. lra. Qed.

Lemma rne_opp x : rne (- x) = - rne x.
Proof.
  unfold rne, cexp. rewrite mag_opp.
  rewrite <- Ropp_mult_distr_l, ZnearestE_opp, opp_IZR. lra.
Qed.

Lemma rne_ge_0 x : 0 <= x -> 0 <= rne x.
Proof.
  intros H. unfold rne. apply Rmult_le_pos; [| left; apply bpow_gt_0].
  apply IZR_le. rewrite <- (ZnearestE_IZR 0). apply ZnearestE_le.
  apply Rmult_le_pos; [exact H | left; apply bpow_gt_0].
Qed.

(** Between two binades the rounded values are separated by a power of
    two; inside one binade the nearest integer is monotone. *)
Lemma rne_le_pos x y : 0 < x -> x <= y -> rne x <= rne y.
Proof.
  intros Hx Hxy.
  assert (Hm : (mag x <= mag y)%Z).
  { apply mag_le; [lra |]. rewrite !Rabs_pos_eq; lra. }
  destruct (mag_spec x) as [Hx1 Hx2]; [lra |].
  destruct (mag_spec y) as [Hy1 Hy2]; [lra |].
  rewrite Rabs_pos_eq in Hx1, Hx2, Hy1, Hy2 by lra.
  destruct (Z.eq_dec (cexp x) (cexp y)) as [E | E].
  - unfold rne. rewrite E.
    apply Rmult_le_compat_r; [left; apply bpow_gt_0 |].
    apply IZR_le, ZnearestE_le.
    apply Rmult_le_compat_r; [left; apply bpow_gt_0 | exact Hxy].
  - assert (Hc : (cexp x < cexp y)%Z) by (unfold cexp in *; lia).
    assert (Hcy : cexp y = (mag y - 53)%Z) by (unfold cexp in *; lia).
    assert (Hcx : (mag x - 53 <= cexp x)%Z) by (unfold cexp; lia).
    apply Rle_trans with (bpow (53 + cexp x)).
    + unfold rne. rewrite bpow_plus.
      apply Rmult_le_compat_r; [left; apply bpow_gt_0 |].
      rewrite (bpow_IZR 53) by lia. apply IZR_le.
      rewrite <- (ZnearestE_IZR (2 ^ 53)). apply ZnearestE_le.
      rewrite <- (bpow_IZR 53) by lia.
      apply Rle_trans with (bpow (mag x) * bpow (- cexp x)).
      * apply Rmult_le_compat_r; [left; apply bpow_gt_0 | lra].
      * rewrite <- bpow_plus. apply bpow_le. lia.
    + apply Rle_trans with (bpow (52 + cexp y)); [apply bpow_le; lia |].
      unfold rne. rewrite bpow_plus.
      apply Rmult_le_compat_r; [left; apply bpow_gt_0 |].
      rewrite (bpow_IZR 52) by lia. apply IZR_le.
      rewrite <- (ZnearestE_IZR (2 ^ 52)). apply ZnearestE_le.
      rewrite <- (bpow_IZR 52) by lia.
      apply Rle_trans with (bpow (mag y - 1) * bpow (- cexp y)).
      * rewrite <- bpow_plus. apply bpow_le. lia.
      * apply Rmult_le_compat_r; [left; apply bpow_gt_0 | lra].
Qed.

Lemma rne_le x y : x <= y -> rne x <= rne y.
Proof.
  intros H. destruct (Rlt_le_dec 0 x) as [Hx | Hx].
  - now apply rne_le_pos.
  - destruct (Rlt_le_dec y 0) as [Hy | Hy].
    + apply Ropp_le_cancel. rewrite <- !rne_opp.
      apply rne_le_pos; lra.
    + apply Rle_trans with 0; [| now apply rne_ge_0].
      apply Ropp_le_cancel. rewrite <- rne_opp, Ropp_0.
      apply rne_ge_0. lra.
Qed.

Lemma rne_format x : format x -> rne x = x.
Proof.
  intros (m & e & Hxe & Hm & He).
  destruct (Z.eq_dec m 0%Z) as [-> | Hm0].
  { rewrite Hxe, Rmult_0_l. apply rne_0. }
  assert (Hx : x <> 0).
  { rewrite Hxe. apply Rmult_integral_contrapositive_currified.
    - now apply not_0_IZR.
    - pose proof (bpow_gt_0 e). lra. }
  assert (Hc : (cexp x <= e)%Z).
  { unfold cexp. apply Z.max_lub; [| exact He].
    destruct (mag_spec x Hx) as [H1 _].
    assert (H2 : Rabs x < bpow (53 + e)).
    { rewrite Hxe, Rabs_mult, (Rabs_pos_eq (bpow e))
        by (left; apply bpow_gt_0).
      rewrite bpow_plus. apply Rmult_lt_compat_r; [apply bpow_gt_0 |].
      rewrite (bpow_IZR 53) by lia. rewrite <- abs_IZR. now apply IZR_lt. }
    assert (H3 : (mag x - 1 < 53 + e)%Z) by (apply bpow_lt_inv; lra).
    lia. }
  unfold rne.
  assert (E : x * bpow (- cexp x) = IZR (m * 2 ^ (e - cexp x))).
  { rewrite Hxe at 1. rewrite Rmult_assoc, <- bpow_plus, mult_IZR.
    rewrite <- (bpow_IZR (e - cexp x)) by lia.
    reflexivity. }
  rewrite E, ZnearestE_IZR, <- E.
  rewrite Rmult_assoc, <- bpow_plus.
  replace (- cexp x + cexp x)%Z with 0%Z by lia.
  rewrite bpow_0. lra.
Qed.

Lemma format_opp x : format x -> format (- x).
Proof.
  intros (m & e & -> & Hm & He). exists (- m)%Z, e.
  rewrite opp_IZR. split; [lra | split; [lia | exact He]].
Qed.

Lemma format_bpow e : (-1074 <= e)%Z -> format (bpow e).
Proof.
  intros H. exists 1%Z, e. split; [lra | split; [reflexivity | exact H]].
Qed.

Lemma format_0 : format 0.
Proof. exists 0%Z, 0%Z. split; [lra | split; [reflexivity | lia]]. Qed.

Lemma format_IZR k : (Z.abs k <= 2 ^ 53)%Z -> format (IZR k).
Proof.
  intros H. destruct (Z.eq_dec (Z.abs k) (2 ^ 53)%Z) as [E | E].
  - exists (k / 2)%Z, 1%Z.
    assert (k = 2 ^ 53 \/ k = - 2 ^ 53)%Z as [-> | ->] by lia.
    + split; [| split; [reflexivity | lia]].
      change (2 ^ 53 / 2)%Z with (2 ^ 52)%Z.
      change (bpow 1) with (2 * 1). rewrite Rmult_1_r, <- mult_IZR.
      now apply f_equal.
    + split; [| split; [reflexivity | lia]].
      change (- 2 ^ 53 / 2)%Z with (- 2 ^ 52)%Z.
      change (bpow 1) with (2 * 1). rewrite Rmult_1_r, <- mult_IZR.
      now apply f_equal.
  - exists k, 0%Z. rewrite bpow_0. split; [lra | split; lia].
Qed.

(* ================================================================= *)
(** ** The binary64 value of an exact result *)

Lemma Rabs_le_inv x b : Rabs x <= b -> - b <= x <= b.
Proof. unfold Rabs. destruct (Rcase_abs x); lra. Qed.

Lemma div_between x y lo hi :
  0 < y -> lo * y <= x <= hi * y -> lo <= x / y <= hi.
Proof.
  intros Hy [H1 H2]. assert (Hi : 0 < / y) by now apply Rinv_0_lt_compat.
  replace lo with (lo * y * / y) by (field; lra).
  replace hi with (hi * y * / y) by (field; lra).
  unfold Rdiv. split; apply Rmult_le_compat_r; lra.
Qed.

Lemma bpow_cancel e : bpow e * bpow (- e) = 1.
Proof. rewrite <- bpow_plus, Z.add_opp_diag_r. reflexivity. Qed.

(** An exact result between two representable numbers rounds to a finite
    number between them. *)
Lemma round_between (lo hi x : R) :
  format lo -> format hi -> - bpow 1024 < lo -> hi < bpow 1024 ->
  lo <= x <= hi ->
  exists y, round x = Finite y /\ lo <= y <= hi.
Proof.
  intros Flo Fhi Hlo Hhi [H1 H2].
  apply rne_le in H1, H2. rewrite (rne_format lo Flo) in H1.
  rewrite (rne_format hi Fhi) in H2.
  exists (rne x). split; [| lra].
  unfold round. rewrite num_leb_false; [reflexivity |].
  apply Rabs_def1; lra.
Qed.

Lemma round_format x : format x -> Rabs x < bpow 1024 -> round x = Finite x.
Proof.
  intros F H. unfold round. rewrite (rne_format x F).
  now rewrite num_leb_false.
Qed.

Lemma round_bounded x k : (-1074 <= k <= 1023)%Z -> Rabs x <= bpow k ->
  bounded k (round x).
Proof.
  intros Hk H. pose proof (bpow_lt k 1024 ltac:(lia)) as Hb.
  destruct (round_between (- bpow k) (bpow k) x) as (y & -> & Hy).
  - apply format_opp, format_bpow. lia.
  - apply format_bpow. lia.
  - lra.
  - lra.
  - apply Rabs_le_inv in H. lra.
  - exists y. split; [reflexivity |]. apply Rabs_le. lra.
Qed.

Lemma round_ranged x j k : (-1074 <= j)%Z -> (k <= 1023)%Z ->
  bpow j <= x <= bpow k -> ranged j k (round x).
Proof.
  intros Hj Hk H.
  assert (Hjk : (j <= k)%Z).
  { destruct (Z_le_gt_dec j k) as [L | L]; [exact L |].
    pose proof (bpow_lt k j ltac:(lia)). lra. }
  pose proof (bpow_lt k 1024 ltac:(lia)) as Hb.
  pose proof (bpow_gt_0 j) as H0. pose proof (bpow_gt_0 1024).
  destruct (round_between (bpow j) (bpow k) x) as (y & -> & Hy).
  - apply format_bpow. lia.
  - apply format_bpow. lia.
  - lra.
  - lra.
  - exact H.
  - exists y. now split.
Qed.

Lemma round_overflow x : bpow 1024 <= x -> round x = Infinity false.
Proof.
  intros H. pose proof (bpow_gt_0 1024) as H0.
  apply rne_le in H. rewrite rne_format in H by (apply format_bpow; lia).
  unfold round. rewrite num_leb_true by (rewrite Rabs_pos_eq; lra).
  now rewrite num_ltb_false by lra.
Qed.

Lemma round_nonneg x : 0 <= x ->
  round x = Infinity false \/ exists y, round x = Finite y /\ 0 <= y.
Proof.
  intros H. apply rne_ge_0 in H. unfold round.
  destruct (Rle_dec (bpow 1024) (Rabs (rne x))) as [L | L].
  - left. rewrite num_leb_true by exact L. now rewrite num_ltb_false.
  - right. rewrite num_leb_false by lra. now eexists.
Qed.

(* ================================================================= *)
(** ** Orders, integers and bounds through the operations *)

Lemma round_finite_inv x y : round x = Finite y -> y = rne x.
Proof.
  unfold round. destruct (_ <=? _); [discriminate |].
  now intros [= <-].
Qed.

(** Rounding never reverses an order. *)
Lemma round_le x x' y y' :
  round x = Finite y -> round x' = Finite y' -> x <= x' -> y <= y'.
Proof.
  intros H H' L. apply round_finite_inv in H, H'. subst.
  now apply rne_le.
Qed.

Lemma round_IZR k : (Z.abs k <= 2 ^ 53)%Z -> round (IZR k) = count k.
Proof.
  intros H. apply round_format; [now apply format_IZR |].
  rewrite <- abs_IZR. apply Rle_lt_trans with (bpow 53).
  - rewrite (bpow_IZR 53) by lia. now apply IZR_le.
  - apply bpow_lt. lia.
Qed.

(** Integer arithmetic is exact up to 2^53. *)
Lemma add_count j k : (Z.abs (j + k) <= 2 ^ 53)%Z ->
  add (count j) (count k) = count (j + k).
Proof. intros H. cbn. rewrite <- plus_IZR. now apply round_IZR. Qed.

Lemma equal_count j k : equal (count j) (count k) = (j =? k)%Z.
Proof.
  cbn. destruct (Z.eqb_spec j k) as [-> | H].
  - now apply num_eqb_true.
  - apply num_eqb_false. intros E. now apply eq_IZR in E.
Qed.

(** How bounds by powers of two travel through the operations. *)
Lemma bounded_weaken k k' u : bounded k u -> (k <= k')%Z -> bounded k' u.
Proof.
  intros (x & -> & H) L. exists x. split; [reflexivity |].
  apply bpow_le in L. lra.
Qed.

Lemma ranged_weaken j k j' k' u :
  ranged j k u -> (j' <= j)%Z -> (k <= k')%Z -> ranged j' k' u.
Proof.
  intros (x & -> & H) L1 L2. exists x. split; [reflexivity |].
  apply bpow_le in L1, L2. lra.
Qed.

Lemma ranged_bounded j k u : ranged j k u -> bounded k u.
Proof.
  intros (x & -> & H). exists x. split; [reflexivity |].
  pose proof (bpow_gt_0 j). rewrite Rabs_pos_eq; lra.
Qed.

Lemma ranged_pos j k u : ranged j k u -> exists x, u = Finite x /\ 0 < x.
Proof.
  intros (x & -> & H). exists x. split; [reflexivity |].
  pose proof (bpow_gt_0 j). lra.
Qed.

Lemma count_bounded k : (Z.abs k <= 2 ^ 53)%Z -> bounded 53 (count k).
Proof.
  intros H. exists (IZR k). split; [reflexivity |].
  rewrite <- abs_IZR, (bpow_IZR 53) by lia. now apply IZR_le.
Qed.

Lemma count_ranged k : (1 <= k <= 2 ^ 53)%Z -> ranged 0 53 (count k).
Proof.
  intros H. exists (IZR k). split; [reflexivity |].
  rewrite (bpow_IZR 53), bpow_0 by lia. split; apply IZR_le; lia.
Qed.

Lemma neg_bounded k u : bounded k u -> bounded k (neg u).
Proof.
  intros (x & -> & H). exists (- x). split; [reflexivity |].
  now rewrite Rabs_Ropp.
Qed.

Lemma mul_bounded k1 k2 u v :
  bounded k1 u -> bounded k2 v -> (-1074 <= k1 + k2 <= 1023)%Z ->
  bounded (k1 + k2) (mul u v).
Proof.
  intros (x & -> & Hx) (y & -> & Hy) Hk. cbn. apply round_bounded; [exact Hk |].
  rewrite Rabs_mult, bpow_plus.
  apply Rmult_le_compat; try apply Rabs_pos; assumption.
Qed.

Lemma add_bounded k1 k2 u v :
  bounded k1 u -> bounded k2 v -> (-1074 <= Z.max k1 k2 + 1 <= 1023)%Z ->
  bounded (Z.max k1 k2 + 1) (add u v).
Proof.
  intros (x & -> & Hx) (y & -> & Hy) Hk. cbn. apply round_bounded; [exact Hk |].
  rewrite bpow_plus. change (bpow 1) with (2 * 1).
  pose proof (bpow_le k1 (Z.max k1 k2) ltac:(lia)).
  pose proof (bpow_le k2 (Z.max k1 k2) ltac:(lia)).
  pose proof (Rabs_triang x y). lra.
Qed.

Lemma sub_bounded k1 k2 u v :
  bounded k1 u -> bounded k2 v -> (-1074 <= Z.max k1 k2 + 1 <= 1023)%Z ->
  bounded (Z.max k1 k2 + 1) (sub u v).
Proof. intros Hu Hv. apply add_bounded; [exact Hu | now apply neg_bounded]. Qed.

Lemma mul_ranged j1 k1 j2 k2 u v :
  ranged j1 k1 u -> ranged j2 k2 v -> (-1074 <= j1 + j2)%Z -> (k1 + k2 <= 1023)%Z ->
  ranged (j1 + j2) (k1 + k2) (mul u v).
Proof.
  intros (x & -> & Hx) (y & -> & Hy) Hj Hk. cbn.
  apply round_ranged; [exact Hj | exact Hk |]. rewrite !bpow_plus.
  pose proof (bpow_gt_0 j1). pose proof (bpow_gt_0 j2).
  split; apply Rmult_le_compat; lra.
Qed.

Lemma add_ranged j1 k1 j2 k2 u v :
  ranged j1 k1 u -> ranged j2 k2 v -> (-1074 <= j1)%Z ->
  (Z.max k1 k2 + 1 <= 1023)%Z ->
  ranged j1 (Z.max k1 k2 + 1) (add u v).
Proof.
  intros (x & -> & Hx) (y & -> & Hy) Hj Hk. cbn.
  apply round_ranged; [exact Hj | exact Hk |].
  rewrite bpow_plus. change (bpow 1) with (2 * 1).
  pose proof (bpow_le k1 (Z.max k1 k2) ltac:(lia)).
  pose proof (bpow_le k2 (Z.max k1 k2) ltac:(lia)).
  pose proof (bpow_gt_0 j2). lra.
Qed.

Lemma div_ranged j1 k1 j2 k2 u v :
  ranged j1 k1 u -> ranged j2 k2 v -> (-1074 <= j1 - k2)%Z -> (k1 - j2 <= 1023)%Z ->
  ranged (j1 - k2) (k1 - j2) (div u v).
Proof.
  intros (x & -> & Hx) (y & -> & Hy) Hj Hk. cbn.
  pose proof (bpow_gt_0 j1). pose proof (bpow_gt_0 j2).
  rewrite num_eqb_false by lra.
  apply round_ranged; [exact Hj | exact Hk |].
  unfold Z.sub. rewrite !bpow_plus, !bpow_opp. unfold Rdiv.
  assert (/ bpow k2 <= / y <= / bpow j2).
  { split; apply Rinv_le_contravar; lra. }
  assert (0 < / bpow k2) by (apply Rinv_0_lt_compat; lra).
  split; apply Rmult_le_compat; lra.
Qed.

Lemma div_bounded k j1 j2 u v :
  bounded k u -> ranged j1 j2 v -> (-1074 <= k - j1 <= 1023)%Z ->
  bounded (k - j1) (div u v).
Proof.
  intros (x & -> & Hx) (y & -> & Hy) Hk. cbn.
  pose proof (bpow_gt_0 j1).
  rewrite num_eqb_false by lra.
  apply round_bounded; [exact Hk |].
  unfold Z.sub. rewrite bpow_plus, bpow_opp. unfold Rdiv.
  rewrite Rabs_mult. rewrite (Rabs_pos_eq (/ y))
    by (left; apply Rinv_0_lt_compat; lra).
  assert (/ y <= / bpow j1) by (apply Rinv_le_contravar; lra).
  assert (0 < / y) by (apply Rinv_0_lt_compat; lra).
  apply Rmult_le_compat; try apply Rabs_pos; lra.
Qed.

Lemma sqrt_ranged j k u :
  ranged (2 * j) (2 * k) u -> (-1074 <= j)%Z -> (k <= 1023)%Z ->
  ranged j k (Math_sqrt u).
Proof.
  intros (x & -> & Hx) Hj Hk. cbn.
  pose proof (bpow_gt_0 (2 * j)).
  rewrite num_ltb_false by lra.
  apply round_ranged; [exact Hj | exact Hk |].
  assert (E : forall e, sqrt (bpow (2 * e)) = bpow e).
  { intros e. replace (2 * e)%Z with (e + e)%Z by lia.
    rewrite bpow_plus. apply sqrt_square. left. apply bpow_gt_0. }
  rewrite <- (E j), <- (E k). split; apply sqrt_le_1_alt; lra.
Qed.

(* ================================================================= *)
(** ** PRR on counts *)

Lemma bpow_53 : bpow 53 = IZR (2 ^ 53).
Proof. now apply bpow_IZR. Qed.

(** The share k / s of a count in a total: between 0 and 1, at least 2^-53
    when the count is not zero, and the rounding of the exact quotient. *)
Lemma share_of_counts (k s : Z) :
  (0 <= k <= s)%Z -> (1 <= s <= 2 ^ 53)%Z ->
  exists r, div (count k) (count s) = Finite r
    /\ r = rne (IZR k / IZR s) /\ 0 <= r <= 1
    /\ ((1 <= k)%Z -> bpow (-53) <= r).
Proof.
  intros Hk Hs. cbn.
  assert (H0 : 0 < IZR s) by (apply IZR_lt; lia).
  assert (Hks : IZR k <= IZR s) by (apply IZR_le; lia).
  assert (Hk0 : 0 <= IZR k) by (apply IZR_le; lia).
  rewrite num_eqb_false by lra.
  assert (Hq : 0 <= IZR k / IZR s <= 1) by (apply div_between; lra).
  destruct (round_between 0 1 (IZR k / IZR s)) as (r & Hr & Hr01).
  - apply format_0.
  - apply (format_bpow 0). lia.
  - pose proof (bpow_gt_0 1024). lra.
  - rewrite <- bpow_0. apply bpow_lt. lia.
  - exact Hq.
  - exists r. split; [exact Hr |]. split; [now apply round_finite_inv |].
    split; [exact Hr01 |]. intros Hk1.
    assert (Hlow : bpow (-53) <= IZR k / IZR s).
    { assert (IZR s <= bpow 53) by (rewrite bpow_53; apply IZR_le; lia).
      assert (1 <= IZR k) by (apply IZR_le; lia).
      assert (bpow 53 * bpow (-53) = 1) by exact (bpow_cancel 53). pose proof (bpow_gt_0 (-53)).
      apply (div_between _ _ _ 1); [exact H0 |]. split; [| lra].
      apply Rle_trans with (bpow (-53) * bpow 53); [| lra].
      apply Rmult_le_compat_l; lra. }
    destruct (round_ranged (IZR k / IZR s) (-53) 0) as (r' & Hr' & Hranged);
      [lia | lia | rewrite bpow_0; lra |].
    rewrite Hr in Hr'. injection Hr' as <-. lra.
Qed.

(** [computePRR] on a table of counts: the sentinel 0, or the rounded
    quotient of the two rounded shares. *)
Lemma computePRR_counts (ka kb kc kd : Z) (n1 : number) :
  (0 <= ka)%Z -> (0 <= kb)%Z -> (0 <= kc)%Z -> (0 <= kd)%Z ->
  (ka + kb <= 2 ^ 53)%Z -> (kc + kd <= 2 ^ 53)%Z ->
  let t := mkTable (count ka) (count kb) (count kc) (count kd) n1 in
  if ((ka + kb =? 0) || (kc + kd =? 0) || (kc =? 0))%Z
  then computePRR t = Finite 0
  else exists r q v,
    r = rne (IZR ka / IZR (ka + kb))
    /\ q = rne (IZR kc / IZR (kc + kd))
    /\ 0 <= r <= 1 /\ bpow (-53) <= q <= 1
    /\ computePRR t = Finite v /\ v = rne (r / q) /\ 0 <= v <= bpow 53.
Proof.
  intros Ha Hb Hc Hd Hab Hcd t. unfold computePRR, t. cbn [a b c d].
  rewrite !add_count by lia. change (Finite 0) with (count 0).
  rewrite !equal_count.
  destruct ((ka + kb =? 0) || (kc + kd =? 0) || (kc =? 0))%Z eqn:G;
    [reflexivity |].
  apply Bool.orb_false_iff in G as [G Gc].
  apply Bool.orb_false_iff in G as [Gab Gcd].
  apply Z.eqb_neq in Gab, Gcd, Gc.
  destruct (share_of_counts ka (ka + kb)) as (r & Er & Hr & Hr01 & _);
    [lia | lia |].
  destruct (share_of_counts kc (kc + kd)) as (q & Eq & Hq & Hq01 & Hqlow);
    [lia | lia |].
  specialize (Hqlow ltac:(lia)).
  rewrite Er, Eq. cbn.
  pose proof (bpow_gt_0 (-53)) as H53.
  rewrite num_eqb_false by lra.
  assert (Hrq : 0 <= r / q <= bpow 53).
  { assert (bpow 53 * bpow (-53) = 1) by exact (bpow_cancel 53). pose proof (bpow_gt_0 53).
    apply div_between; [lra |]. split; [lra |].
    apply Rle_trans with (bpow 53 * bpow (-53)); [lra |].
    apply Rmult_le_compat_l; lra. }
  destruct (round_between 0 (bpow 53) (r / q)) as (v & Ev & Hv).
  - apply format_0.
  - apply format_bpow. lia.
  - pose proof (bpow_gt_0 1024). lra.
  - apply bpow_lt. lia.
  - exact Hrq.
  - exists r, q, v. repeat split; try assumption; try lra.
    now apply round_finite_inv.
Qed.



(* ================================================================= *)
(** ** Finiteness of the calculators on counts *)

#[local] Arguments add : simpl never.
#[local] Arguments sub : simpl never.
#[local] Arguments mul : simpl never.
#[local] Arguments div : simpl never.
#[local] Arguments neg : simpl never.
#[local] Arguments Math_sqrt : simpl never.
#[local] Arguments round : simpl never.
#[local] Arguments literal : simpl never.

Lemma bounded_finite k u : bounded k u -> finite u.
Proof. intros (x & -> & _). now exists x. Qed.

Lemma bpow_1 : bpow 1 = 2.
Proof. now rewrite bpow_IZR by lia. Qed.
Lemma bpow_2 : bpow 2 = 4.
Proof. now rewrite bpow_IZR by lia. Qed.
Lemma bpow_3 : bpow 3 = 8.
Proof. now rewrite bpow_IZR by lia. Qed.
Lemma bpow_m1 : bpow (-1) = / 2.
Proof. change (-1)%Z with (- (1))%Z. now rewrite bpow_opp, bpow_1. Qed.
Lemma bpow_m2 : bpow (-2) = / 4.
Proof. change (-2)%Z with (- (2))%Z. now rewrite bpow_opp, bpow_2. Qed.

Lemma ranged_1 : ranged 0 0 (Finite 1).
Proof. exists 1. rewrite bpow_0. split; [reflexivity | lra]. Qed.
Lemma ranged_2 : ranged 1 1 (Finite 2).
Proof. exists 2. rewrite bpow_1. split; [reflexivity | lra]. Qed.
Lemma ranged_half : ranged (-1) (-1) (Finite 0.5).
Proof. exists 0.5. rewrite bpow_m1. split; [reflexivity | lra]. Qed.
Lemma bounded_0 k : bounded k (Finite 0).
Proof.
  exists 0. split; [reflexivity |]. rewrite Rabs_R0. left. apply bpow_gt_0.
Qed.

Lemma literal_ranged x j k : (-1074 <= j)%Z -> (k <= 1023)%Z ->
  bpow j <= x <= bpow k -> ranged j k (literal x).
Proof. apply round_ranged. Qed.

Lemma ranged_196 : ranged 0 1 (literal 1.96).
Proof. apply literal_ranged; [lia | lia |]. rewrite bpow_0, bpow_1. lra. Qed.

(** Propagates [bounded] and [ranged] through an expression, from the
    facts in the context. *)
Ltac bound :=
  first
  [ eassumption
  | lazymatch goal with
    | |- bounded _ (mul _ _) => eapply mul_bounded; [bound | bound | cbn; lia]
    | |- bounded _ (add _ _) => eapply add_bounded; [bound | bound | cbn; lia]
    | |- bounded _ (sub _ _) => eapply sub_bounded; [bound | bound | cbn; lia]
    | |- bounded _ (neg _) => eapply neg_bounded; bound
    | |- bounded _ (div _ _) => eapply div_bounded; [bound | bound | cbn; lia]
    | |- bounded _ (Finite 0) => apply bounded_0
    | |- bounded _ _ => eapply ranged_bounded; bound
    | |- ranged _ _ (mul _ _) =>
        eapply mul_ranged; [bound | bound | cbn; lia | cbn; lia]
    | |- ranged _ _ (add _ _) =>
        eapply add_ranged; [bound | bound | cbn; lia | cbn; lia]
    | |- ranged _ _ (div _ _) =>
        eapply div_ranged; [bound | bound | cbn; lia | cbn; lia]
    | |- ranged _ _ (Finite 1) => apply ranged_1
    | |- ranged _ _ (Finite 2) => apply ranged_2
    | |- ranged _ _ (Finite 0.5) => apply ranged_half
    | |- ranged _ _ (literal 1.96) => apply ranged_196
    end ].

Lemma less_eq_count j k : less_eq (count j) (count k) = (j <=? k)%Z.
Proof.
  cbn. destruct (Z.leb_spec j k) as [H | H].
  - apply num_leb_true. now apply IZR_le.
  - apply num_leb_false. now apply IZR_lt.
Qed.

Lemma mul_0_l u : finite u -> mul (Finite 0) u = Finite 0.
Proof.
  intros (x & ->). unfold mul. rewrite Rmult_0_l.
  apply round_format; [apply format_0 |]. rewrite Rabs_R0. apply bpow_gt_0.
Qed.

Lemma mul_0_r u : finite u -> mul u (Finite 0) = Finite 0.
Proof.
  intros (x & ->). unfold mul. rewrite Rmult_0_r.
  apply round_format; [apply format_0 |]. rewrite Rabs_R0. apply bpow_gt_0.
Qed.

Lemma equal_ranged_0 j k u : ranged j k u -> equal u (Finite 0) = false.
Proof.
  intros (x & -> & H). cbn. apply num_eqb_false.
  pose proof (bpow_gt_0 j). lra.
Qed.

(** A table of counts whose total is at most 2^53. *)
Section OnCounts.
Variable M : MathLib.
Hypothesis HM : sane M.
Variables ka kb kc kd : Z.
Variable nn_ : number.
Hypothesis Ha : (0 <= ka)%Z.
Hypothesis Hb : (0 <= kb)%Z.
Hypothesis Hc : (0 <= kc)%Z.
Hypothesis Hd : (0 <= kd)%Z.
Hypothesis Hn : (ka + kb + kc + kd <= 2 ^ 53)%Z.

Local Abbreviation t := (mkTable (count ka) (count kb) (count kc) (count kd) nn_).

Lemma computeROR_finite : finite (computeROR t).
Proof.
  unfold computeROR. cbn [a b c d]. change (Finite 0) with (count 0).
  rewrite !equal_count.
  destruct (Z.eqb_spec kb 0) as [| Hb0]; [now exists 0 |].
  destruct (Z.eqb_spec kc 0) as [| Hc0]; [now exists 0 |]. cbn [orb].
  pose proof (count_bounded ka ltac:(lia)). pose proof (count_bounded kd ltac:(lia)).
  pose proof (count_ranged kb ltac:(lia)). pose proof (count_ranged kc ltac:(lia)).
  eapply bounded_finite. bound.
Qed.

Lemma computeChi2_finite : finite (computeChi2 M t).
Proof.
  unfold computeChi2. cbn [a b c d].
  rewrite !add_count by lia.
  set (denom := mul _ (count (kb + kd))).
  assert (Hcase :
    denom = Finite 0 \/ ranged 0 212 denom).
  { unfold denom.
    destruct (Z.eq_dec (ka + kb)%Z 0%Z) as [E | E].
    { left. rewrite E. change (count 0) with (Finite 0).
      rewrite !mul_0_l; try reflexivity; now eexists. }
    destruct (Z.eq_dec (kc + kd)%Z 0%Z) as [E' | E'].
    { left. rewrite E'. change (count 0) with (Finite 0).
      rewrite mul_0_r by now eexists.
      rewrite !mul_0_l; try reflexivity; now eexists. }
    pose proof (count_ranged (ka + kb) ltac:(lia)).
    pose proof (count_ranged (kc + kd) ltac:(lia)).
    assert (H12 : ranged (0 + 0) (53 + 53) (mul (count (ka + kb)) (count (kc + kd))))
      by bound.
    destruct (Z.eq_dec (ka + kc)%Z 0%Z) as [E'' | E''].
    { left. rewrite E''. change (count 0) with (Finite 0).
      rewrite mul_0_r by (eapply bounded_finite, ranged_bounded, H12).
      rewrite mul_0_l; [reflexivity | now eexists]. }
    pose proof (count_ranged (ka + kc) ltac:(lia)).
    destruct (Z.eq_dec (kb + kd)%Z 0%Z) as [E3 | E3].
    { left. rewrite E3. change (count 0) with (Finite 0).
      apply mul_0_r. eapply bounded_finite. bound. }
    pose proof (count_ranged (kb + kd) ltac:(lia)).
    right. eapply ranged_weaken; [bound | lia | lia]. }
  destruct Hcase as [-> | Hden].
  - cbn. rewrite num_eqb_true by reflexivity. now exists 0.
  - rewrite (equal_ranged_0 _ _ _ Hden).
    pose proof (count_bounded ka ltac:(lia)). pose proof (count_bounded kd ltac:(lia)).
    pose proof (count_bounded kb ltac:(lia)). pose proof (count_bounded kc ltac:(lia)).
    pose proof (count_bounded (ka + kb + kc + kd) ltac:(lia)).
    assert (Hp : bounded (2 * 107)
              (Math_pow M (sub (mul (count ka) (count kd))
                               (mul (count kb) (count kc))) (Finite 2))).
    { apply (sane_pow M HM); [lia |]. eapply bounded_weaken; [bound | cbn; lia]. }
    eapply bounded_finite. bound.
Qed.

Lemma computePRR_finite : finite (computePRR t).
Proof.
  pose proof (computePRR_counts ka kb kc kd nn_ Ha Hb Hc Hd
                ltac:(lia) ltac:(lia)) as H.
  cbn zeta in H. destruct (_ || _).
  - rewrite H. now exists 0.
  - destruct H as (_ & _ & v & _ & _ & _ & _ & -> & _). now exists v.
Qed.

Lemma log_bounded (f : number -> number) (u : number) (k : Z) :
  (exists y, f u = Finite y /\ Rabs y <= IZR k) -> (0 <= k <= 128)%Z ->
  bounded 7 (f u).
Proof.
  intros (y & -> & Hy) Hk. exists y. split; [reflexivity |].
  rewrite (bpow_IZR 7) by lia. apply Rle_trans with (IZR k); [exact Hy |].
  apply IZR_le. cbn. lia.
Qed.

Lemma computeROR_CI_finite :
  finite (lower (fst (computeROR_CI M t)))
  /\ finite (upper (fst (computeROR_CI M t)))
  /\ Forall strictly_positive (snd (computeROR_CI M t)).
Proof.
  unfold computeROR_CI. cbn [a b c d]. change (Finite 0) with (count 0).
  rewrite !equal_count.
  destruct (Z.eqb_spec ka 0) as [| Ha0];
    [cbn; repeat split; [now exists 0 | now exists 0 | constructor] |].
  destruct (Z.eqb_spec kb 0) as [| Hb0];
    [cbn; repeat split; [now exists 0 | now exists 0 | constructor] |].
  destruct (Z.eqb_spec kc 0) as [| Hc0];
    [cbn; repeat split; [now exists 0 | now exists 0 | constructor] |].
  destruct (Z.eqb_spec kd 0) as [| Hd0];
    [cbn; repeat split; [now exists 0 | now exists 0 | constructor] |].
  cbn [orb].
  pose proof (count_ranged ka ltac:(lia)) as Ra.
  pose proof (count_ranged kb ltac:(lia)) as Rb.
  pose proof (count_ranged kc ltac:(lia)) as Rc.
  pose proof (count_ranged kd ltac:(lia)) as Rd.
  set (q := div (mul (count ka) (count kd)) (mul (count kb) (count kc))).
  set (s := add _ (div (Finite 1) (count kd))).
  assert (Hq : ranged (-106) 106 q) by (eapply ranged_weaken; [unfold q; bound | lia | lia]).
  assert (Hs : ranged (2 * -27) (2 * 2) s)
    by (eapply ranged_weaken; [unfold s; bound | cbn; lia | cbn; lia]).
  pose proof (log_bounded _ _ _ (sane_log M HM q 106 ltac:(lia) Hq) ltac:(lia))
    as Hln.
  pose proof (sqrt_ranged _ _ _ Hs ltac:(lia) ltac:(lia)) as Hse.
  unfold bind, logged, ret. cbn [fst snd lower upper app].
  repeat split.
  - eapply bounded_finite. apply (sane_exp M HM _ 8); [lia |].
    eapply bounded_weaken; [bound | cbn; lia].
  - eapply bounded_finite. apply (sane_exp M HM _ 8); [lia |].
    eapply bounded_weaken; [bound | cbn; lia].
  - repeat constructor; eapply ranged_pos; eassumption.
Qed.

Lemma computeIC_bounded :
  bounded 7 (fst (computeIC M t)) /\ Forall strictly_positive (snd (computeIC M t)).
Proof.
  unfold computeIC. cbn [a b c d]. rewrite !add_count by lia.
  change (Finite 0) with (count 0). rewrite !equal_count.
  destruct (Z.eqb_spec ka 0) as [| Ha0];
    [cbn; split; [apply bounded_0 | constructor] |].
  destruct (Z.eqb_spec (ka + kb) 0) as [| Hab0]; [lia |].
  destruct (Z.eqb_spec (ka + kc) 0) as [| Hac0]; [lia |].
  cbn [orb]. change (count 0) with (Finite 0).
  pose proof (count_ranged ka ltac:(lia)) as Ra.
  pose proof (count_ranged (ka + kb) ltac:(lia)) as Rab.
  pose proof (count_ranged (ka + kc) ltac:(lia)) as Rac.
  pose proof (count_ranged (ka + kb + kc + kd) ltac:(lia)) as Rn.
  set (e := div _ (count (ka + kb + kc + kd))).
  assert (He : ranged (-53) 106 e) by (eapply ranged_weaken; [unfold e; bound | lia | lia]).
  rewrite (equal_ranged_0 _ _ _ He).
  assert (Hq : ranged (-106) 106 (div (count ka) e))
    by (eapply ranged_weaken; [bound | lia | lia]).
  unfold logged. cbn [fst snd]. split.
  - exact (log_bounded _ _ _ (sane_log2 M HM _ 106 ltac:(lia) Hq) ltac:(lia)).
  - repeat constructor. eapply ranged_pos; eassumption.
Qed.

Lemma ln2_bounds : / 2 <= ln 2 <= 1.
Proof.
  split; [left; apply ln_lt_2 |].
  left. rewrite <- (ln_exp 1). apply ln_increasing; [lra |].
  pose proof (exp_ineq1 1 ltac:(lra)). lra.
Qed.

Lemma ranged_LN2 : ranged (-1) 0 Math_LN2.
Proof.
  apply literal_ranged; [lia | lia |]. rewrite bpow_m1, bpow_0.
  apply ln2_bounds.
Qed.

Lemma computeIC_se_bounded (ic : number) (op : number -> number -> number) :
  (1 <= ka)%Z -> bounded 7 ic ->
  (forall u v, bounded 7 u -> bounded 2 v -> bounded 8 (op u v)) ->
  let s := Math_sqrt (Math_max (count ka) (Finite 0.5)) in
  bounded 8 (op ic (mul (literal 1.96) (div (Finite 1) (mul Math_LN2 s))))
  /\ strictly_positive (Math_max (count ka) (Finite 0.5)).
Proof.
  intros Ha1 Hic Hop s.
  assert (Em : Math_max (count ka) (Finite 0.5) = count ka).
  { cbn. unfold count. f_equal. apply Rmax_left.
    apply Rle_trans with 1; [lra | apply IZR_le; lia]. }
  unfold s. rewrite Em.
  pose proof (count_ranged ka ltac:(lia)) as Ra.
  assert (Hs : ranged 0 27 (Math_sqrt (count ka))).
  { apply sqrt_ranged; [| lia | lia]. eapply ranged_weaken; [exact Ra | lia | lia]. }
  pose proof ranged_LN2 as Hl.
  split.
  - apply Hop; [exact Hic |]. eapply bounded_weaken; [bound | cbn; lia].
  - eapply ranged_pos; eassumption.
Qed.

Lemma computeIC025_guarded_binary64 : guarded (computeIC025 M t).
Proof.
  destruct computeIC_bounded as [Hic Hlog].
  unfold computeIC025, guarded, bind. cbn [a]. change (Finite 0) with (count 0).
  rewrite less_eq_count.
  destruct (Z.leb_spec ka 0) as [H0 | H0].
  - cbn. rewrite app_nil_r. split; [now exists 0 | exact Hlog].
  - unfold logged, ret. cbn [fst snd].
    destruct (computeIC_se_bounded (fst (computeIC M t)) sub) as [H1 H2];
      [lia | exact Hic | |].
    { intros u v Hu Hv. eapply bounded_weaken; [bound | cbn; lia]. }
    split; [eapply bounded_finite; exact H1 |].
    apply Forall_app. split; [exact Hlog |].
    repeat constructor. exact H2.
Qed.

Lemma computeIC975_guarded_binary64 : guarded (computeIC975 M t).
Proof.
  destruct computeIC_bounded as [Hic Hlog].
  unfold computeIC975, guarded, bind. cbn [a]. change (Finite 0) with (count 0).
  rewrite less_eq_count.
  destruct (Z.leb_spec ka 0) as [H0 | H0].
  - cbn. rewrite app_nil_r. split; [now exists 0 | exact Hlog].
  - unfold logged, ret. cbn [fst snd].
    destruct (computeIC_se_bounded (fst (computeIC M t)) add) as [H1 H2];
      [lia | exact Hic | |].
    { intros u v Hu Hv. eapply bounded_weaken; [bound | cbn; lia]. }
    split; [eapply bounded_finite; exact H1 |].
    apply Forall_app. split; [exact Hlog |].
    repeat constructor. exact H2.
Qed.

End OnCounts.

Lemma mul_ranged_nonneg j k k' u v :
  ranged j k u -> nonneg k' v -> (-1074 <= k + k' <= 1023)%Z ->
  nonneg (k + k') (mul u v).
Proof.
  intros (x & -> & Hx) (y & -> & Hy) Hk. unfold mul.
  pose proof (bpow_gt_0 j). pose proof (bpow_gt_0 (k + k')).
  destruct (round_between 0 (bpow (k + k')) (x * y)) as (r & -> & Hr).
  - apply format_0.
  - apply format_bpow. lia.
  - pose proof (bpow_gt_0 1024). lra.
  - apply bpow_lt. lia.
  - split; [apply Rmult_le_pos; lra |].
    rewrite bpow_plus. apply Rmult_le_compat; lra.
  - now exists r.
Qed.

Lemma add_ranged_nonneg j k k' u v :
  ranged j k u -> nonneg k' v -> (-1074 <= j)%Z -> (Z.max k k' + 1 <= 1023)%Z ->
  ranged j (Z.max k k' + 1) (add u v).
Proof.
  intros (x & -> & Hx) (y & -> & Hy) Hj Hk. unfold add.
  apply round_ranged; [exact Hj | exact Hk |].
  rewrite bpow_plus, bpow_1.
  pose proof (bpow_le k (Z.max k k') ltac:(lia)).
  pose proof (bpow_le k' (Z.max k k') ltac:(lia)). lra.
Qed.

Section NormalCDF.
Variable M : MathLib.
Hypothesis HM : sane M.

Lemma normalCDF_bounded (z : number) :
  z = Infinity false \/ (exists x, z = Finite x /\ 0 <= x) ->
  bounded 70 (normalCDF M z).
Proof.
  intros [-> | (x & -> & Hx)].
  { cbn. eapply bounded_weaken; [exact (ranged_bounded _ _ _ ranged_1) | lia]. }
  unfold normalCDF. cbn [less Math_abs].
  rewrite (num_ltb_false x (-8)) by lra.
  destruct (Rlt_dec 8 x) as [H8 | H8].
  { rewrite num_ltb_true by exact H8.
    eapply bounded_weaken; [exact (ranged_bounded _ _ _ ranged_1) | lia]. }
  rewrite (num_ltb_false 8 x) by lra.
  rewrite (num_ltb_false x 0) by lra.
  rewrite (Rabs_pos_eq x) by exact Hx.
  assert (Hn : nonneg 3 (Finite x)).
  { exists x. rewrite bpow_3. split; [reflexivity | lra]. }
  assert (Hb : bounded 3 (Finite x)).
  { exists x. rewrite bpow_3, Rabs_pos_eq by exact Hx.
    split; [reflexivity | lra]. }
  assert (Hp : ranged (-2) (-1) (literal 0.3275911)).
  { apply literal_ranged; [lia | lia |]. rewrite bpow_m2, bpow_m1. lra. }
  assert (Ht : ranged (-3) 0
            (div (Finite 1)
               (add (Finite 1) (mul (literal 0.3275911) (Finite x))))).
  { assert (Hd : ranged 0 (Z.max 0 (-1 + 3) + 1)
              (add (Finite 1) (mul (literal 0.3275911) (Finite x)))).
    { apply add_ranged_nonneg; [apply ranged_1 | | lia | cbn; lia].
      eapply mul_ranged_nonneg; [exact Hp | exact Hn | lia]. }
    eapply ranged_weaken; [bound | cbn; lia | cbn; lia]. }
  set (t := div (Finite 1) _) in *.
  assert (B1 : bounded 1 (literal 0.254829592)).
  { apply round_bounded; [lia |]. rewrite bpow_1, Rabs_pos_eq; lra. }
  assert (B2 : bounded 1 (literal 0.284496736)).
  { apply round_bounded; [lia |]. rewrite bpow_1, Rabs_pos_eq; lra. }
  assert (B3 : bounded 1 (literal 1.421413741)).
  { apply round_bounded; [lia |]. rewrite bpow_1, Rabs_pos_eq; lra. }
  assert (B4 : bounded 1 (literal 1.453152027)).
  { apply round_bounded; [lia |]. rewrite bpow_1, Rabs_pos_eq; lra. }
  assert (B5 : bounded 1 (literal 1.061405429)).
  { apply round_bounded; [lia |]. rewrite bpow_1, Rabs_pos_eq; lra. }
  assert (He : bounded (2 ^ (5 + 1))
            (Math_exp M (div (mul (neg (Finite x)) (Finite x)) (Finite 2)))).
  { apply (sane_exp M HM); [lia |]. eapply bounded_weaken; [bound | cbn; lia]. }
  eapply bounded_weaken; [bound | cbn; lia].
Qed.

Lemma chi2PValue1df_guarded_binary64 (x : R) :
  guarded (chi2PValue1df M (Finite x)).
Proof.
  unfold chi2PValue1df, guarded. cbn [less_eq].
  destruct (Rle_dec x 0) as [H0 | H0].
  { rewrite num_leb_true by exact H0. cbn. split; [now exists 1 | constructor]. }
  rewrite num_leb_false by lra.
  unfold bind, logged, ret. cbn [fst snd app]. split.
  - assert (Hc : bounded 70 (normalCDF M (Math_sqrt (Finite x)))).
    { apply normalCDF_bounded. unfold Math_sqrt. rewrite num_ltb_false by lra.
      apply round_nonneg, sqrt_pos. }
    eapply bounded_finite. bound.
  - repeat constructor. exists x. split; [reflexivity | lra].
Qed.

End NormalCDF.

Lemma ln_bpow k : ln (bpow k) = IZR k * ln 2.
Proof. rewrite bpow_exp. apply ln_exp. Qed.

Lemma IZR_lt_bpow_1024 k : (Z.abs k <= 1000)%Z -> Rabs (IZR k) < bpow 1024.
Proof.
  intros H. rewrite <- abs_IZR.
  apply Rle_lt_trans with (bpow 10); [| apply bpow_lt; lia].
  rewrite (bpow_IZR 10) by lia. apply IZR_le. cbn. lia.
Qed.

Lemma round_within_Z x k : (0 <= k <= 1000)%Z -> Rabs x <= IZR k ->
  exists y, round x = Finite y /\ Rabs y <= IZR k.
Proof.
  intros Hk Hx. apply Rabs_le_inv in Hx.
  pose proof (IZR_lt_bpow_1024 k ltac:(lia)) as Hb.
  rewrite Rabs_pos_eq in Hb by (apply IZR_le; lia).
  destruct (round_between (- IZR k) (IZR k) x) as (y & Ey & Hy).
  - apply format_opp, format_IZR. lia.
  - apply format_IZR. lia.
  - lra.
  - exact Hb.
  - exact Hx.
  - exists y. split; [exact Ey | apply Rabs_le; lra].
Qed.

Lemma ln_within x k : (0 <= k)%Z -> bpow (- k) <= x <= bpow k ->
  - (IZR k * ln 2) <= ln x <= IZR k * ln 2.
Proof.
  intros Hk [H1 H2]. pose proof (bpow_gt_0 (- k)) as H0.
  rewrite <- (ln_bpow k). replace (- ln (bpow k)) with (ln (bpow (- k)))
    by (rewrite !ln_bpow, opp_IZR; lra).
  split.
  - destruct H1 as [H1 | <-]; [left; apply ln_increasing; lra | lra].
  - destruct H2 as [H2 | ->]; [left; apply ln_increasing; lra | lra].
Qed.

(** The correctly rounded library has the assumed bounds. *)
Lemma sane_libm : sane libm.
Proof.
  pose proof ln2_bounds as [Hl1 Hl2]. split.
  - intros u k Hk Hu. cbn [Math_pow libm equal].
    rewrite num_eqb_true by reflexivity.
    replace (2 * k)%Z with (k + k)%Z by lia. apply mul_bounded; [exact Hu .. | lia].
  - intros u k Hk (x & -> & Hx). cbn [Math_log libm].
    pose proof (bpow_gt_0 (- k)) as H0.
    rewrite num_ltb_false, num_eqb_false by lra.
    apply round_within_Z; [exact Hk |].
    pose proof (ln_within x k ltac:(lia) Hx) as Hln.
    assert (0 <= IZR k) by (apply IZR_le; lia).
    apply Rabs_le. nra.
  - intros u k Hk (x & -> & Hx). cbn [Math_log2 libm].
    pose proof (bpow_gt_0 (- k)) as H0.
    rewrite num_ltb_false, num_eqb_false by lra.
    apply round_within_Z; [exact Hk |].
    pose proof (ln_within x k ltac:(lia) Hx) as Hln.
    apply Rabs_le.
    replace (- IZR k) with (- (IZR k * ln 2) / ln 2) by (field; lra).
    replace (IZR k) with (IZR k * ln 2 / ln 2) at 2 by (field; lra).
    assert (0 < / ln 2) by (apply Rinv_0_lt_compat; lra).
    unfold Rdiv. split; apply Rmult_le_compat_r; lra.
  - intros u j Hj (x & -> & Hx). cbn [Math_exp libm].
    apply Rabs_le_inv in Hx.
    assert (He : 0 <= exp x <= bpow (2 ^ (j + 1))).
    { split; [left; apply exp_pos |].
      rewrite (bpow_exp (2 ^ (j + 1))).
      assert (E : IZR (2 ^ (j + 1)) = 2 * bpow j).
      { rewrite <- bpow_IZR, bpow_plus, bpow_1 by lia. lra. }
      rewrite E. pose proof (bpow_gt_0 j).
      assert (x <= 2 * bpow j * ln 2) by nra.
      destruct H0 as [H0 | ->]; [left; now apply exp_increasing | lra]. }
    assert (Hk : (2 ^ (j + 1) <= 512)%Z).
    { change 512%Z with (2 ^ 9)%Z. apply Z.pow_le_mono_r; lia. }
    assert (Hk0 : (0 < 2 ^ (j + 1))%Z) by (apply Z.pow_pos_nonneg; lia).
    destruct (round_between 0 (bpow (2 ^ (j + 1))) (exp x)) as (y & -> & Hy).
    + apply format_0.
    + apply format_bpow. lia.
    + pose proof (bpow_gt_0 1024). lra.
    + apply bpow_lt. lia.
    + exact He.
    + exists y. split; [reflexivity |]. rewrite Rabs_pos_eq; lra.
Qed.

(** C6 (as amended).  For every contingency table of non-negative integer
    counts whose total a + b + c + d is at most 2^53, and every math library
    with the bounds of [sane], each metric calculator ([computePRR],
    [computeChi2], [chi2PValue1df] at any finite statistic, [computeROR],
    [computeROR_CI], [computeIC], [computeIC025], [computeIC975]) returns a
    finite number, and every argument that reaches [Math.sqrt], [Math.log]
    or [Math.log2] is finite and strictly positive. *)
Theorem calculators_finite_on_counts
    (M : MathLib) (ka kb kc kd : Z) (nn_ : number) :
  sane M ->
  (0 <= ka)%Z -> (0 <= kb)%Z -> (0 <= kc)%Z -> (0 <= kd)%Z ->
  (ka + kb + kc + kd <= 2 ^ 53)%Z ->
  let t := mkTable (count ka) (count kb) (count kc) (count kd) nn_ in
  finite (computePRR t)
  /\ finite (computeChi2 M t)
  /\ (forall x : R, guarded (chi2PValue1df M (Finite x)))
  /\ finite (computeROR t)
  /\ guarded_interval (computeROR_CI M t)
  /\ guarded (computeIC M t)
  /\ guarded (computeIC025 M t)
  /\ guarded (computeIC975 M t).
Proof.
  intros HM Ha Hb Hc Hd Hn t. unfold t.
  split; [now apply computePRR_finite |].
  split; [now apply computeChi2_finite |].
  split; [intros x; now apply chi2PValue1df_guarded_binary64 |].
  split; [now apply computeROR_finite |].
  split; [now apply computeROR_CI_finite |].
  split.
  { destruct (computeIC_bounded M HM ka kb kc kd nn_) as [H1 H2]; try lia.
    split; [eapply bounded_finite; exact H1 | exact H2]. }
  split; [now apply computeIC025_guarded_binary64 | now apply computeIC975_guarded_binary64].
Qed.

Lemma calculators_finite_on_counts_witness :
  guarded (computeIC025 libm
             (mkTable (count 150) (count 4850) (count 3000) (count 992000)
                (count 1000000)))
  /\ guarded_interval
       (computeROR_CI libm
          (mkTable (count 150) (count 4850) (count 3000) (count 992000)
             (count 1000000))).
Proof.
  pose proof (calculators_finite_on_counts libm 150 4850 3000 992000
                (count 1000000) sane_libm
                ltac:(lia) ltac:(lia) ltac:(lia) ltac:(lia) ltac:(lia)) as H.
  cbn zeta in H. split; apply H.
Defined.

Lemma mul_overflow j1 k1 j2 k2 u v :
  ranged j1 k1 u -> ranged j2 k2 v -> (1024 <= j1 + j2)%Z ->
  mul u v = Infinity false.
Proof.
  intros (x & -> & Hx) (y & -> & Hy) H. unfold mul. apply round_overflow.
  apply Rle_trans with (bpow (j1 + j2)); [apply bpow_le; lia |].
  rewrite bpow_plus. pose proof (bpow_gt_0 j1). pose proof (bpow_gt_0 j2).
  apply Rmult_le_compat; lra.
Qed.

Lemma sub_ranged j k u v :
  ranged j k u -> ranged 0 0 v -> (1 <= j)%Z -> (k <= 1023)%Z ->
  ranged (j - 1) k (sub u v).
Proof.
  intros (x & -> & Hx) (y & -> & Hy) Hj Hk. unfold sub, neg, add.
  apply round_ranged; [lia | lia |]. rewrite bpow_0 in Hy.
  replace j with (j - 1 + 1)%Z in Hx at 1 by lia.
  rewrite bpow_plus, bpow_1 in Hx.
  assert (1 <= bpow (j - 1)).
  { rewrite <- bpow_0. apply bpow_le. lia. }
  lra.
Qed.

(** C6 (as stated) fails in binary64 on large counts.  On the table
    {a: 1e80, b: 1, c: 1, d: 1e80} the denominator of [computeChi2] and the
    square in its numerator both overflow to [Infinity], and their quotient
    is [NaN]. *)
Lemma computeChi2_overflows :
  computeChi2 libm
    (mkTable (count ten_to_80) (Finite 1) (Finite 1) (count ten_to_80)
       (count (2 * ten_to_80)))
  = NaN.
Proof.
  assert (HA : ranged 265 266 (count ten_to_80)).
  { exists (IZR ten_to_80). split; [reflexivity |].
    rewrite (bpow_IZR 265), (bpow_IZR 266) by lia.
    split; apply IZR_le; unfold ten_to_80; lia. }
  pose proof ranged_1 as H1.
  unfold computeChi2. cbn [a b c d Math_pow libm].
  change (equal (Finite 2) (Finite 2)) with (2 === 2).
  rewrite (num_eqb_true 2 2) by reflexivity.
  assert (Hab : ranged 265 (Z.max 266 0 + 1) (add (count ten_to_80) (Finite 1)))
    by bound.
  assert (Hcd : ranged 0 (Z.max 0 266 + 1) (add (Finite 1) (count ten_to_80))).
  { eapply add_ranged; [bound | bound | lia | cbn; lia]. }
  assert (Hcd' : ranged 265 267 (add (Finite 1) (count ten_to_80))).
  { destruct Hcd as (y & Ey & Hy). exists y. split; [exact Ey |].
    split; [| apply Hy]. unfold add in Ey. cbn in Ey.
    destruct HA as (x & [= <-] & Hx).
    destruct (round_ranged (1 + IZR ten_to_80) 265 267) as (y' & Ey' & Hy');
      [lia | lia | |].
    - rewrite bpow_0 in *. split; [lra |].
      replace 267%Z with (266 + 1)%Z by lia. rewrite bpow_plus, bpow_1.
      pose proof (bpow_le 0 266 ltac:(lia)). rewrite bpow_0 in *. lra.
    - unfold count in Ey. rewrite Ey in Ey'. injection Ey' as <-. lra. }
  clear Hcd.
  set (ab := add (count ten_to_80) (Finite 1)) in *.
  set (cd := add (Finite 1) (count ten_to_80)) in *.
  assert (Hden : mul (mul (mul ab cd) ab) cd = Infinity false).
  { eapply mul_overflow; [| exact Hcd' |].
    - eapply mul_ranged; [eapply mul_ranged; [exact Hab | exact Hcd' | lia | cbn; lia]
                      | exact Hab | lia | cbn; lia].
    - lia. }
  rewrite Hden. cbn [equal].
  assert (Hnum : mul (sub (mul (count ten_to_80) (count ten_to_80))
                         (mul (Finite 1) (Finite 1)))
                     (sub (mul (count ten_to_80) (count ten_to_80))
                         (mul (Finite 1) (Finite 1)))
                 = Infinity false).
  { assert (H11 : ranged 0 0 (mul (Finite 1) (Finite 1))).
    { replace (mul (Finite 1) (Finite 1)) with (Finite 1); [exact H1 |].
      unfold mul. rewrite Rmult_1_l. symmetry.
      apply (round_IZR 1). cbn. lia. }
    assert (Hd : ranged (265 + 265 - 1) (266 + 266)
               (sub (mul (count ten_to_80) (count ten_to_80))
                    (mul (Finite 1) (Finite 1)))).
    { apply sub_ranged; [| exact H11 | lia | lia]. bound. }
    eapply mul_overflow; [exact Hd | exact Hd | lia]. }
  rewrite Hnum.
  assert (Hn : ranged 265 269 (add (add ab (Finite 1)) (count ten_to_80))).
  { eapply ranged_weaken; [bound | lia | cbn; lia]. }
  destruct Hn as (y & -> & Hy). unfold mul, div.
  pose proof (bpow_gt_0 265).
  now rewrite num_eqb_false by lra.
Qed.

(* ================================================================= *)
(** ** Rolling z-score *)











(* ================================================================= *)
(** ** Exact evaluation, and the PRR of neighbouring tables *)















(* ================================================================= *)
(** ** The series 0.1, 0.1, 0.1 *)






